(** * Fingpt: the numeric routines of the RiskAnalysis and TechnicalAnalysis pages

    A shallow embedding of the financial formulas of
    [frontend/src/pages/RiskAnalysis.js] (VaR, CVaR, max drawdown, Sharpe
    ratio, Pearson correlation and the correlation matrix) and of the
    TechnicalAnalysis page (RSI, MACD, EMA, Bollinger Bands), and the
    properties of them that the specification states.

    Numbers.  The routines are embedded over two models of the Numbers of
    the language.  In the first a Number is an exact rational in lowest
    terms ([Qc]) or one of the special values [Infinity], [-Infinity],
    [NaN]; the operators follow IEEE 754 on the special values (so [0/0] is
    [NaN] and [x/0] is an infinity) and are exact on finite values, and
    [Math.sqrt], whose values are not rational, is a parameter of the
    routines that call it.  This model carries the properties that do not
    depend on how an operation rounds: the lengths and the alignment of the
    arrays, the equations that relate the outputs of a routine through the
    operators of the code, the symmetry of the correlation, the values that
    are [NaN], and what a call leaves of the arrays it is given.  In the
    second ([Binary64]) a Number is a binary64 value: every operator rounds
    its exact result to the nearest value of 53 significant bits, overflows
    to an infinity and underflows to a zero, [-0] is a value of its own, and
    [Math.sqrt] is the correctly rounded root.  This model carries the
    properties of the Numbers returned: the quantile of [calculateVaR], the
    tail mean of [calculateCVaR], the maximum of [calculateMaxDrawdown], the
    ratio of [calculateSharpeRatio] and the bands of
    [calculateBollingerBands].  In both, [undefined], the result of reading
    an array out of range, is a value of its own that every arithmetic
    operator converts to [NaN].  Periods are natural numbers.

    Arrays.  The routines are embedded over arrays as values ([Values] and
    [Binary64], lists of elements), where the formulas are studied, and
    over arrays as objects of a heap ([Refs]), where [sort] and [push] write
    in place and a call can be checked to leave the arrays of its caller
    alone.

    Pages.  What the two pages do with the routines (the processing of a
    market-data response, the grades and signals shown, the series of the
    charts) is embedded in [Pages], over arrays as values; the last part of
    the file has its properties and further properties of the routines. *)

From Stdlib Require Import QArith Qcanon Qround Lia Lqa ZArith.
From Stdlib Require Import Sorting.Sorted Sorting.Permutation.
From stdpp Require Import base list numbers strings sorting.

Open Scope Qc_scope.

(** ** JavaScript values *)

Inductive jsval : Type :=
| Fin (q : Qc)
| PInf
| NInf
| NaN
| Undef.

Declare Scope js_scope.
Delimit Scope js_scope with js.
Bind Scope js_scope with jsval.

Global Instance jsval_eq_dec : EqDecision jsval.
Proof. solve_decision. Defined.

Definition num (z : Z) : jsval := Fin (Q2Qc (inject_Z z)).
Definition of_nat (n : nat) : jsval := num (Z.of_nat n).
Definition ratio (a : Z) (b : positive) : jsval := Fin (Q2Qc (a # b)).

Definition is_finite (v : jsval) : Prop :=
  match v with Fin _ => True | _ => False end.

(** [x + y] on Numbers. *)
Definition js_add (x y : jsval) : jsval :=
  match x, y with
  | Fin a, Fin b => Fin (a + b)
  | Fin _, PInf | PInf, Fin _ | PInf, PInf => PInf
  | Fin _, NInf | NInf, Fin _ | NInf, NInf => NInf
  | _, _ => NaN
  end.

Definition js_neg (x : jsval) : jsval :=
  match x with
  | Fin a => Fin (- a)
  | PInf => NInf
  | NInf => PInf
  | _ => NaN
  end.

(** [x - y]. *)
Definition js_sub (x y : jsval) : jsval := js_add x (js_neg y).

(** An infinity times a finite [a]: [NaN] for [a = 0], else the infinity
    (positive when [pos]) with its sign changed by a negative [a]. *)
Definition inf_times (pos : bool) (a : Qc) : jsval :=
  if decide (a = 0) then NaN
  else if bool_decide (0 < a) then (if pos then PInf else NInf)
       else (if pos then NInf else PInf).

(** [x * y]. *)
Definition js_mul (x y : jsval) : jsval :=
  match x, y with
  | Fin a, Fin b => Fin (a * b)
  | Fin a, PInf | PInf, Fin a => inf_times true a
  | Fin a, NInf | NInf, Fin a => inf_times false a
  | PInf, PInf | NInf, NInf => PInf
  | PInf, NInf | NInf, PInf => NInf
  | _, _ => NaN
  end.

(** [x / y]: a finite [x] over zero is [NaN] for [x = 0] and an infinity of
    the sign of [x] otherwise; anything finite over an infinity is [0]. *)
Definition js_div (x y : jsval) : jsval :=
  match x, y with
  | Fin a, Fin b =>
      if decide (b = 0) then inf_times true a else Fin (a / b)
  | Fin _, PInf | Fin _, NInf => Fin 0
  | PInf, Fin b => if bool_decide (b < 0) then NInf else PInf
  | NInf, Fin b => if bool_decide (b < 0) then PInf else NInf
  | _, _ => NaN
  end.

Infix "+" := js_add : js_scope.
Infix "-" := js_sub : js_scope.
Infix "*" := js_mul : js_scope.
Infix "/" := js_div : js_scope.

(** [x < y] and [x > y]: false as soon as an operand is [NaN]. *)
Definition js_lt (x y : jsval) : bool :=
  match x, y with
  | Fin a, Fin b => bool_decide (a < b)
  | Fin _, PInf | NInf, Fin _ | NInf, PInf => true
  | _, _ => false
  end.

Definition js_gt (x y : jsval) : bool := js_lt y x.

(** [x <= y] on Numbers, used to state bounds. *)
Definition js_le (x y : jsval) : bool :=
  match x, y with
  | Fin a, Fin b => bool_decide (a <= b)
  | Fin _, PInf | NInf, Fin _ | NInf, PInf | PInf, PInf | NInf, NInf => true
  | _, _ => false
  end.

(** [x === y]. *)
Definition js_seq (x y : jsval) : bool :=
  match x, y with
  | NaN, _ | _, NaN => false
  | _, _ => bool_decide (x = y)
  end.

(** ToBoolean: [0], [NaN] and [undefined] are falsy. *)
Definition truthy (x : jsval) : bool :=
  match x with
  | Fin a => bool_decide (a ≠ 0)
  | PInf | NInf => true
  | NaN | Undef => false
  end.

(** [x || y]. *)
Definition js_or (x y : jsval) : jsval := if truthy x then x else y.

Infix "||" := js_or : js_scope.

Definition Qcabs (a : Qc) : Qc := if bool_decide (a < 0) then - a else a.

Definition Math_abs (x : jsval) : jsval :=
  match x with
  | Fin a => Fin (Qcabs a)
  | PInf | NInf => PInf
  | _ => NaN
  end.

Definition Math_floor (x : jsval) : jsval :=
  match x with
  | Fin a => num (Qfloor a)
  | Undef => NaN
  | _ => x
  end.

(** [Math.pow(x, n)] for a literal natural exponent. *)
Fixpoint Math_pow (x : jsval) (n : nat) : jsval :=
  match n with
  | O => num 1
  | S n' => js_mul x (Math_pow x n')
  end.

(** A parameter that was omitted arrives as [undefined] and takes its
    default. *)
Definition default_arg (v d : jsval) : jsval :=
  match v with Undef => d | _ => v end.

(** ** Arrays

    An array is the list of its elements.  [arr_at] reads at a loop index,
    [arr_get] at a computed Number: both give [undefined] out of range. *)

Definition arr_at (xs : list jsval) (i : nat) : jsval := default Undef (xs !! i).

Definition index_of (v : jsval) : option nat :=
  match v with
  | Fin q =>
      if decide (Q2Qc (inject_Z (Qfloor q)) = q ∧ 0 <= q)
      then Some (Z.to_nat (Qfloor q)) else None
  | _ => None
  end.

Definition arr_get (xs : list jsval) (v : jsval) : jsval :=
  match index_of v with
  | Some i => arr_at xs i
  | None => Undef
  end.

(** [Array.prototype.slice(start, end)]: a negative index counts from the
    end, and both are clamped to the array. *)
Definition rel_index (len : nat) (k : Z) : nat :=
  if (k <? 0)%Z then Z.to_nat (Z.max (Z.of_nat len + k) 0)
  else Z.to_nat (Z.min k (Z.of_nat len)).

Definition slice (xs : list jsval) (s e : Z) : list jsval :=
  let from := rel_index (length xs) s in
  let to := rel_index (length xs) e in
  take (to - from) (drop from xs).

(** ToIntegerOrInfinity of a Number used as a slice bound of an array of
    length [len]: truncation toward zero, the infinities clamped to the
    array. *)
Definition ToInteger (len : nat) (v : jsval) : Z :=
  match v with
  | Fin q => if bool_decide (q < 0) then Qceiling q else Qfloor q
  | PInf => Z.of_nat len
  | NInf => (- Z.of_nat len)%Z
  | _ => 0%Z
  end.

(** [xs.reduce(f, init)]. *)
Definition reduce {A} (f : A → jsval → A) (init : A) (xs : list jsval) : A :=
  fold_left f xs init.

(** [for (let i = lo; i < hi; i++) body], the loop state passed along. *)
Definition for_loop {S} (lo hi : nat) (body : nat → S → S) (s : S) : S :=
  fold_left (λ s i, body i s) (seq lo (hi - lo)) s.

(** [Array.prototype.sort(cmp)]: a stable sort by the sign of [cmp a b]
    ([a] stays before [b] unless [cmp a b > 0]), [undefined] elements moved
    to the end without being compared.  Written as the insertion sort that
    every stable sort agrees with when the comparator is consistent. *)
Fixpoint sort_insert (cmp : jsval → jsval → jsval) (x : jsval)
  (l : list jsval) : list jsval :=
  match l with
  | [] => [x]
  | y :: l' =>
      if js_gt (cmp x y) (num 0) then y :: sort_insert cmp x l' else x :: l
  end.

Definition Array_sort (cmp : jsval → jsval → jsval) (xs : list jsval)
  : list jsval :=
  foldr (sort_insert cmp) [] (filter (λ v, v ≠ Undef) xs)
    ++ filter (λ v, v = Undef) xs.

(** * The routines, on arrays as values *)

Module Values.

(** ** RiskAnalysis.js *)

Definition calculateVaR (returns : list jsval) (confidence : jsval) : jsval :=
  let confidence := default_arg confidence (ratio 5 100) in
  if decide (length returns = 0%nat) then num 0 else
  let sortedReturns := Array_sort (λ a b, a - b)%js returns in
  let index := Math_floor (confidence * of_nat (length sortedReturns)) in
  Math_abs (arr_get sortedReturns index || num 0).

Definition calculateCVaR (returns : list jsval) (confidence : jsval) : jsval :=
  let confidence := default_arg confidence (ratio 5 100) in
  if decide (length returns = 0%nat) then num 0 else
  let sortedReturns := Array_sort (λ a b, a - b)%js returns in
  let varIndex := Math_floor (confidence * of_nat (length sortedReturns)) in
  let tailReturns :=
    slice sortedReturns 0 (ToInteger (length sortedReturns) varIndex) in
  Math_abs (reduce (λ a b, a + b)%js (num 0) tailReturns
              / of_nat (length tailReturns) || num 0).

Definition calculateMaxDrawdown (prices : list jsval) : jsval :=
  if decide (length prices = 0%nat) then num 0 else
  let maxPrice := arr_at prices 0 in
  let maxDrawdown := num 0 in
  let '(_, maxDrawdown) :=
    for_loop 1 (length prices)
      (λ i '(maxPrice, maxDrawdown),
         let maxPrice :=
           if js_gt (arr_at prices i) maxPrice then arr_at prices i
           else maxPrice in
         let drawdown := ((maxPrice - arr_at prices i) / maxPrice)%js in
         let maxDrawdown :=
           if js_gt drawdown maxDrawdown then drawdown else maxDrawdown in
         (maxPrice, maxDrawdown))
      (maxPrice, maxDrawdown) in
  maxDrawdown.

(** A JavaScript object used as a map from symbols to price arrays: the
    list of its properties in the order [Object.keys] enumerates them. *)
Definition object : Type := list (string * list jsval).

Definition Object_keys (o : object) : list string := o.*1.

Fixpoint obj_get (o : object) (k : string) : option (list jsval) :=
  match o with
  | [] => None
  | (k', v) :: o' => if decide (k' = k) then Some v else obj_get o' k
  end.

(** An object has each key once. *)
Definition wf_object (o : object) : Prop := NoDup (Object_keys o).

Record correlation_result : Type := {
  matrix : list (list jsval);
  symbols : list string
}.

Record macd_result : Type := {
  macd : list jsval;
  signal : list jsval;
  histogram : list jsval
}.

Record bollinger_result : Type := {
  upper : list jsval;
  middle : list jsval;
  lower : list jsval
}.

Section WithSqrt.

(** [Math.sqrt] is a function of the host; its values on non-squares are
    not rational, so it is a parameter of the routines that call it.  What
    a theorem needs of it is a hypothesis of that theorem. *)
Variable Math_sqrt : jsval → jsval.

Definition calculateSharpeRatio (returns : list jsval) (riskFreeRate : jsval)
  : jsval :=
  let riskFreeRate := default_arg riskFreeRate (ratio 2 100) in
  if decide (length returns = 0%nat) then num 0 else
  let avgReturn :=
    (reduce (λ a b, a + b) (num 0) returns / of_nat (length returns))%js in
  let volatility :=
    Math_sqrt
      (reduce (λ a b, a + Math_pow (b - avgReturn) 2) (num 0) returns
         / of_nat (length returns))%js in
  if js_seq volatility (num 0) then num 0
  else ((avgReturn - riskFreeRate / num 252) / volatility)%js.

Definition calculateCorrelation (prices1 prices2 : list jsval) : jsval :=
  if decide (length prices1 ≠ length prices2 ∨ length prices1 = 0%nat)
  then num 0 else
  let returns1 :=
    imap (λ i price, (price - arr_at prices1 i) / arr_at prices1 i)%js
      (slice prices1 1 (Z.of_nat (length prices1))) in
  let returns2 :=
    imap (λ i price, (price - arr_at prices2 i) / arr_at prices2 i)%js
      (slice prices2 1 (Z.of_nat (length prices2))) in
  let mean1 :=
    (reduce (λ a b, a + b) (num 0) returns1 / of_nat (length returns1))%js in
  let mean2 :=
    (reduce (λ a b, a + b) (num 0) returns2 / of_nat (length returns2))%js in
  let '(numerator, sumSq1, sumSq2) :=
    for_loop 0 (length returns1)
      (λ i '(numerator, sumSq1, sumSq2),
         let diff1 := (arr_at returns1 i - mean1)%js in
         let diff2 := (arr_at returns2 i - mean2)%js in
         (numerator + diff1 * diff2, sumSq1 + diff1 * diff1,
          sumSq2 + diff2 * diff2)%js)
      (num 0, num 0, num 0) in
  let denominator := Math_sqrt (sumSq1 * sumSq2)%js in
  if js_seq denominator (num 0) then num 0
  else (numerator / denominator)%js.

(** [priceData[symbols[i]]]: [symbols] are the object's own keys, so the
    read finds the property ([obj_get_own_key]). *)
Definition prop_at (priceData : object) (symbols : list string) (i : nat)
  : list jsval :=
  default [] (obj_get priceData (symbols !!! i)).

Definition calculateCorrelationMatrix (priceData : object)
  : correlation_result :=
  let symbols := Object_keys priceData in
  let matrix :=
    for_loop 0 (length symbols)
      (λ i matrix,
         let row :=
           for_loop 0 (length symbols)
             (λ j row,
                if decide (i = j) then row ++ [num 1]
                else
                  let corr :=
                    calculateCorrelation (prop_at priceData symbols i)
                      (prop_at priceData symbols j) in
                  row ++ [corr])
             [] in
         matrix ++ [row])
      [] in
  {| matrix := matrix; symbols := symbols |}.

(** ** TechnicalAnalysis page *)

Definition default_rsi_period : nat := 14.

Definition calculateRSI (prices : list jsval) (period : nat) : list jsval :=
  if decide (length prices < period + 1)%nat then [] else
  let '(gains, losses) :=
    for_loop 1 (length prices)
      (λ i '(gains, losses),
         let change := (arr_at prices i - arr_at prices (i - 1))%js in
         (gains ++ [if js_gt change (num 0) then change else num 0],
          losses ++ [if js_lt change (num 0) then Math_abs change else num 0]))
      ([], []) in
  let rsi := [] in
  let avgGain :=
    (reduce (λ a b, a + b) (num 0) (slice gains 0 (Z.of_nat period))
       / of_nat period)%js in
  let avgLoss :=
    (reduce (λ a b, a + b) (num 0) (slice losses 0 (Z.of_nat period))
       / of_nat period)%js in
  let '(_, _, rsi) :=
    for_loop period (length gains)
      (λ i '(avgGain, avgLoss, rsi),
         let avgGain :=
           ((avgGain * (of_nat period - num 1) + arr_at gains i)
              / of_nat period)%js in
         let avgLoss :=
           ((avgLoss * (of_nat period - num 1) + arr_at losses i)
              / of_nat period)%js in
         let rs := (avgGain / avgLoss)%js in
         let rsiValue := (num 100 - (num 100 / (num 1 + rs)))%js in
         (avgGain, avgLoss, rsi ++ [rsiValue]))
      (avgGain, avgLoss, rsi) in
  rsi.

Definition calculateEMA (prices : list jsval) (period : nat) : list jsval :=
  let multiplier := (num 2 / (of_nat period + num 1))%js in
  let ema := [arr_at prices 0] in
  for_loop 1 (length prices)
    (λ i ema,
       ema ++ [((arr_at prices i * multiplier)
                + (arr_at ema (i - 1) * (num 1 - multiplier)))%js])
    ema.

Definition default_fast_period : nat := 12.
Definition default_slow_period : nat := 26.
Definition default_signal_period : nat := 9.

Definition calculateMACD (prices : list jsval)
  (fastPeriod slowPeriod signalPeriod : nat) : macd_result :=
  if decide (length prices < slowPeriod)%nat
  then {| macd := []; signal := []; histogram := [] |} else
  let emaFast := calculateEMA prices fastPeriod in
  let emaSlow := calculateEMA prices slowPeriod in
  let macd := imap (λ i fast, fast - arr_at emaSlow i)%js emaFast in
  let signal := calculateEMA macd signalPeriod in
  let histogram := imap (λ i macdVal, macdVal - arr_at signal i)%js macd in
  {| macd := macd; signal := signal; histogram := histogram |}.

Definition default_bollinger_period : nat := 20.

(** The loop starts at [period - 1], which is [-1] for a zero period: its
    index is an integer. *)
Definition calculateBollingerBands (prices : list jsval) (period : nat)
  (stdDev : jsval) : bollinger_result :=
  let stdDev := default_arg stdDev (num 2) in
  if decide (length prices < period)%nat
  then {| upper := []; middle := []; lower := [] |} else
  let '(sma, upper, lower) :=
    fold_left
      (λ '(sma, upper, lower) (i : Z),
         let slice :=
           slice prices (i - Z.of_nat period + 1)%Z (i + 1)%Z in
         let mean :=
           (reduce (λ a b, a + b) (num 0) slice / of_nat period)%js in
         let variance :=
           (reduce (λ a b, a + Math_pow (b - mean) 2) (num 0) slice
              / of_nat period)%js in
         let std := Math_sqrt variance in
         (sma ++ [mean], upper ++ [mean + (std * stdDev)],
          lower ++ [mean - (std * stdDev)])%js)
      (seqZ (Z.of_nat period - 1) (Z.of_nat (length prices)
                                   - (Z.of_nat period - 1)))
      ([], [], []) in
  {| upper := upper; middle := sma; lower := lower |}.

End WithSqrt.

End Values.

Import Values.

(** An instance of [Math.sqrt] for evaluating the routines: the exact root
    of a square of a rational, the root rounded down to a multiple of the
    reciprocal of the denominator otherwise. *)
Definition sqrt_floor (x : jsval) : jsval :=
  match x with
  | Fin q =>
      if bool_decide (q < 0) then NaN
      else Fin (Q2Qc (Z.sqrt (Qnum q * Zpos (Qden q)) # Qden q))
  | PInf => PInf
  | _ => NaN
  end.

(** * Arrays as objects

    The routines above take arrays as values.  JavaScript passes arrays by
    reference, and [sort] and [push] change an array in place: whether a
    routine leaves the arrays of its caller alone is a property of the
    routine written over a store of array objects.  [Refs] has that second
    embedding of the same source: an array is a location of a heap, a
    routine is a state transformer of the heap, and every array method is
    an operation on the heap. *)

Module Refs.

Abbreviation loc := nat.

(** The heap: the array objects, by location. *)
Abbreviation heap := (list (list jsval)).

Definition M (A : Type) : Type := heap → A * heap.

Global Instance M_ret : MRet M := λ A a h, (a, h).
Global Instance M_bind : MBind M :=
  λ A B k m h, let '(a, h') := m h in k a h'.

(** A new array object (an array literal, or the result of a method that
    returns a new array), at a location not in use. *)
Definition alloc (xs : list jsval) : M loc := λ h, (length h, h ++ [xs]).

Definition load (l : loc) : M (list jsval) := λ h, (default [] (h !! l), h).

Definition store (l : loc) (xs : list jsval) : M unit :=
  λ h, (tt, <[l := xs]> h).

(** [[...a]]. *)
Definition Array_spread (l : loc) : M loc := xs ← load l; alloc xs.

(** [a.sort(cmp)] sorts [a] itself and returns it. *)
Definition sort_ref (cmp : jsval → jsval → jsval) (l : loc) : M loc :=
  xs ← load l; _ ← store l (Array_sort cmp xs); mret l.

(** [a.push(v)]. *)
Definition push_ref (l : loc) (v : jsval) : M unit :=
  xs ← load l; store l (xs ++ [v]).

(** [a.slice(s, e)] returns a new array. *)
Definition slice_ref (l : loc) (s e : Z) : M loc :=
  xs ← load l; alloc (slice xs s e).

Definition length_ref (l : loc) : M nat := xs ← load l; mret (length xs).

Definition at_ref (l : loc) (i : nat) : M jsval :=
  xs ← load l; mret (arr_at xs i).

Definition get_ref (l : loc) (v : jsval) : M jsval :=
  xs ← load l; mret (arr_get xs v).

Definition reduce_ref {A} (f : A → jsval → A) (init : A) (l : loc) : M A :=
  xs ← load l; mret (reduce f init xs).

(** [a.map((x, i) => ...)] returns a new array; the callback may read the
    heap. *)
Fixpoint imapM (f : nat → jsval → M jsval) (xs : list jsval)
  : M (list jsval) :=
  match xs with
  | [] => mret []
  | x :: xs' => y ← f 0%nat x; ys ← imapM (f ∘ S) xs'; mret (y :: ys)
  end.

Definition map_ref (f : nat → jsval → M jsval) (l : loc) : M loc :=
  xs ← load l; ys ← imapM f xs; alloc ys.

(** [for (let i = lo; i < hi; i++) body].  The bound is read once: no loop
    of the routines stores to the array whose length bounds it. *)
Definition for_loopM {St} (lo hi : nat) (body : nat → St → M St) (s : St)
  : M St :=
  λ h, fold_left (λ '(s, h) i, body i s h) (seq lo (hi - lo)) (s, h).

Definition for_eachM {St B} (l : list B) (body : B → St → M St) (s : St)
  : M St :=
  λ h, fold_left (λ '(s, h) i, body i s h) l (s, h).

(** ** RiskAnalysis.js *)

Definition calculateVaR (returns : loc) (confidence : jsval) : M jsval :=
  let confidence := default_arg confidence (ratio 5 100) in
  n ← length_ref returns;
  if decide (n = 0%nat) then mret (num 0) else
  copy ← Array_spread returns;
  sortedReturns ← sort_ref (λ a b, a - b)%js copy;
  len ← length_ref sortedReturns;
  let index := Math_floor (confidence * of_nat len) in
  x ← get_ref sortedReturns index;
  mret (Math_abs (x || num 0)).

Definition calculateCVaR (returns : loc) (confidence : jsval) : M jsval :=
  let confidence := default_arg confidence (ratio 5 100) in
  n ← length_ref returns;
  if decide (n = 0%nat) then mret (num 0) else
  copy ← Array_spread returns;
  sortedReturns ← sort_ref (λ a b, a - b)%js copy;
  len ← length_ref sortedReturns;
  let varIndex := Math_floor (confidence * of_nat len) in
  tailReturns ← slice_ref sortedReturns 0 (ToInteger len varIndex);
  sum ← reduce_ref (λ a b, a + b)%js (num 0) tailReturns;
  tailLen ← length_ref tailReturns;
  mret (Math_abs (sum / of_nat tailLen || num 0)).

Definition calculateMaxDrawdown (prices : loc) : M jsval :=
  n ← length_ref prices;
  if decide (n = 0%nat) then mret (num 0) else
  maxPrice ← at_ref prices 0;
  let maxDrawdown := num 0 in
  '(_, maxDrawdown) ←
    for_loopM 1 n
      (λ i '(maxPrice, maxDrawdown),
         p ← at_ref prices i;
         let maxPrice := if js_gt p maxPrice then p else maxPrice in
         p' ← at_ref prices i;
         let drawdown := ((maxPrice - p') / maxPrice)%js in
         let maxDrawdown :=
           if js_gt drawdown maxDrawdown then drawdown else maxDrawdown in
         mret (maxPrice, maxDrawdown))
      (maxPrice, maxDrawdown);
  mret maxDrawdown.

Section WithSqrt.

Variable Math_sqrt : jsval → jsval.

Definition calculateSharpeRatio (returns : loc) (riskFreeRate : jsval)
  : M jsval :=
  let riskFreeRate := default_arg riskFreeRate (ratio 2 100) in
  n ← length_ref returns;
  if decide (n = 0%nat) then mret (num 0) else
  sum ← reduce_ref (λ a b, a + b)%js (num 0) returns;
  len ← length_ref returns;
  let avgReturn := (sum / of_nat len)%js in
  sq ← reduce_ref (λ a b, a + Math_pow (b - avgReturn) 2)%js (num 0) returns;
  len' ← length_ref returns;
  let volatility := Math_sqrt (sq / of_nat len')%js in
  mret (if js_seq volatility (num 0) then num 0
        else ((avgReturn - riskFreeRate / num 252) / volatility)%js).

(** [prices.slice(1).map((price, i) => (price - prices[i]) / prices[i])]. *)
Definition returns_of (prices : loc) : M loc :=
  n ← length_ref prices;
  rest ← slice_ref prices 1 (Z.of_nat n);
  map_ref (λ i price,
             p ← at_ref prices i; p' ← at_ref prices i;
             mret ((price - p) / p')%js)
    rest.

Definition mean_ref (l : loc) : M jsval :=
  sum ← reduce_ref (λ a b, a + b)%js (num 0) l;
  len ← length_ref l;
  mret (sum / of_nat len)%js.

Definition calculateCorrelation (prices1 prices2 : loc) : M jsval :=
  n1 ← length_ref prices1;
  n2 ← length_ref prices2;
  if decide (n1 ≠ n2 ∨ n1 = 0%nat) then mret (num 0) else
  returns1 ← returns_of prices1;
  returns2 ← returns_of prices2;
  mean1 ← mean_ref returns1;
  mean2 ← mean_ref returns2;
  len ← length_ref returns1;
  '(numerator, sumSq1, sumSq2) ←
    for_loopM 0 len
      (λ i '(numerator, sumSq1, sumSq2),
         r1 ← at_ref returns1 i;
         let diff1 := (r1 - mean1)%js in
         r2 ← at_ref returns2 i;
         let diff2 := (r2 - mean2)%js in
         mret (numerator + diff1 * diff2, sumSq1 + diff1 * diff1,
               sumSq2 + diff2 * diff2)%js)
      (num 0, num 0, num 0);
  let denominator := Math_sqrt (sumSq1 * sumSq2)%js in
  mret (if js_seq denominator (num 0) then num 0
        else (numerator / denominator)%js).

End WithSqrt.

(** ** TechnicalAnalysis page *)

Definition calculateRSI (prices : loc) (period : nat) : M loc :=
  n ← length_ref prices;
  if decide (n < period + 1)%nat then alloc [] else
  gains ← alloc [];
  losses ← alloc [];
  _ ← for_loopM 1 n
        (λ i _,
           p ← at_ref prices i;
           q ← at_ref prices (i - 1);
           let change := (p - q)%js in
           _ ← push_ref gains (if js_gt change (num 0) then change else num 0);
           push_ref losses
             (if js_lt change (num 0) then Math_abs change else num 0))
        tt;
  rsi ← alloc [];
  firstGains ← slice_ref gains 0 (Z.of_nat period);
  sumGains ← reduce_ref (λ a b, a + b)%js (num 0) firstGains;
  let avgGain := (sumGains / of_nat period)%js in
  firstLosses ← slice_ref losses 0 (Z.of_nat period);
  sumLosses ← reduce_ref (λ a b, a + b)%js (num 0) firstLosses;
  let avgLoss := (sumLosses / of_nat period)%js in
  len ← length_ref gains;
  _ ← for_loopM period len
        (λ i '(avgGain, avgLoss),
           g ← at_ref gains i;
           let avgGain :=
             ((avgGain * (of_nat period - num 1) + g) / of_nat period)%js in
           l ← at_ref losses i;
           let avgLoss :=
             ((avgLoss * (of_nat period - num 1) + l) / of_nat period)%js in
           let rs := (avgGain / avgLoss)%js in
           let rsiValue := (num 100 - (num 100 / (num 1 + rs)))%js in
           _ ← push_ref rsi rsiValue;
           mret (avgGain, avgLoss))
        (avgGain, avgLoss);
  mret rsi.

Definition calculateEMA (prices : loc) (period : nat) : M loc :=
  let multiplier := (num 2 / (of_nat period + num 1))%js in
  p0 ← at_ref prices 0;
  ema ← alloc [p0];
  n ← length_ref prices;
  _ ← for_loopM 1 n
        (λ i _,
           p ← at_ref prices i;
           e ← at_ref ema (i - 1);
           push_ref ema ((p * multiplier) + (e * (num 1 - multiplier)))%js)
        tt;
  mret ema.

Record macd_refs : Type := {
  macd_ref : loc;
  signal_ref : loc;
  histogram_ref : loc
}.

Definition calculateMACD (prices : loc)
  (fastPeriod slowPeriod signalPeriod : nat) : M macd_refs :=
  n ← length_ref prices;
  if decide (n < slowPeriod)%nat
  then
    m ← alloc []; s ← alloc []; h ← alloc [];
    mret {| macd_ref := m; signal_ref := s; histogram_ref := h |}
  else
    emaFast ← calculateEMA prices fastPeriod;
    emaSlow ← calculateEMA prices slowPeriod;
    macd ← map_ref (λ i fast, s ← at_ref emaSlow i; mret (fast - s)%js) emaFast;
    signal ← calculateEMA macd signalPeriod;
    histogram ←
      map_ref (λ i macdVal, s ← at_ref signal i; mret (macdVal - s)%js) macd;
    mret {| macd_ref := macd; signal_ref := signal;
            histogram_ref := histogram |}.

Record bollinger_refs : Type := {
  upper_ref : loc;
  middle_ref : loc;
  lower_ref : loc
}.

Definition calculateBollingerBands (Math_sqrt : jsval → jsval) (prices : loc)
  (period : nat) (stdDev : jsval) : M bollinger_refs :=
  let stdDev := default_arg stdDev (num 2) in
  n ← length_ref prices;
  if decide (n < period)%nat
  then
    u ← alloc []; m ← alloc []; l ← alloc [];
    mret {| upper_ref := u; middle_ref := m; lower_ref := l |}
  else
    sma ← alloc [];
    upper ← alloc [];
    lower ← alloc [];
    _ ← for_eachM (seqZ (Z.of_nat period - 1)
                     (Z.of_nat n - (Z.of_nat period - 1)))
          (λ (i : Z) _,
             slice ← slice_ref prices (i - Z.of_nat period + 1)%Z (i + 1)%Z;
             sum ← reduce_ref (λ a b, a + b)%js (num 0) slice;
             let mean := (sum / of_nat period)%js in
             sq ← reduce_ref (λ a b, a + Math_pow (b - mean) 2)%js (num 0) slice;
             let variance := (sq / of_nat period)%js in
             let std := Math_sqrt variance in
             _ ← push_ref sma mean;
             _ ← push_ref upper (mean + (std * stdDev))%js;
             push_ref lower (mean - (std * stdDev))%js)
          tt;
    mret {| upper_ref := upper; middle_ref := sma; lower_ref := lower |}.

(** ** What a call leaves of the heap *)

(** Every array object of [h] is in [h'], at its location, with its
    elements. *)
Definition preserves (h h' : heap) : Prop :=
  ∀ l ys, h !! l = Some ys → h' !! l = Some ys.

(** Run from [h], [m] returns [v] and preserves [h]. *)
Definition returns_value {A} (m : M A) (h : heap) (v : A) : Prop :=
  ∃ h', m h = (v, h') ∧ preserves h h'.

(** Run from [h], [m] returns an array of elements [ys] and preserves
    [h]. *)
Definition returns_array (m : M loc) (h : heap) (ys : list jsval) : Prop :=
  ∃ r h', m h = (r, h') ∧ preserves h h' ∧ h' !! r = Some ys.

(** ** The assertion of the program logic

    [spec h0 m Q ext]: run from the heap [h0 ++ ext], [m] ends in a heap
    [h0 ++ ext'] (the objects of [h0] are as they were) with a result [a]
    such that [Q a ext']. *)
Definition spec {A} (h0 : heap) (m : M A) (Q : A → heap → Prop) (ext : heap)
  : Prop :=
  ∃ a ext', m (h0 ++ ext) = (a, h0 ++ ext') ∧ Q a ext'.

End Refs.

(** * Vocabulary of the specification

    The notions the properties are stated with: the ascending arrangement
    of a list of rationals, sums and means, the textbook maximum drawdown,
    the exponential moving average, and the pieces of the RSI. *)

Fixpoint qinsert (x : Qc) (l : list Qc) : list Qc :=
  match l with
  | [] => [x]
  | y :: l' => if bool_decide (y < x) then y :: qinsert x l' else x :: l
  end.

Definition qsort (l : list Qc) : list Qc := foldr qinsert [] l.

Definition Qc_of_nat (n : nat) : Qc := Q2Qc (inject_Z (Z.of_nat n)).

Definition Qcsum (l : list Qc) : Qc := foldr Qcplus 0 l.

(** The arithmetic mean of a non-empty list. *)
Definition Qcmean (l : list Qc) : Qc := Qcsum l / Qc_of_nat (length l).

Definition Qcmax (a b : Qc) : Qc := if bool_decide (a < b) then b else a.

(** The fall from the price at index [i] to the price at index [j], as a
    fraction of the former. *)
Definition drawdown_between (prices : list Qc) (i j : nat) : Qc :=
  (nth i prices 0 - nth j prices 0) / nth i prices 0.

(** The textbook peak-to-trough definition: the largest of [0] and of the
    drawdowns between all index pairs [i < j]. *)
Definition textbook_drawdowns (prices : list Qc) : list Qc :=
  flat_map
    (λ i, map (drawdown_between prices i)
            (seq (S i) (length prices - S i)))
    (seq 0 (length prices)).

Definition textbook_max_drawdown (prices : list Qc) : Qc :=
  foldr Qcmax 0 (textbook_drawdowns prices).

(** [d] is the maximum of [0] and the drawdowns between the pairs of indices
    below [k]. *)
Definition is_max_drawdown (prices : list Qc) (k : nat) (d : Qc) : Prop :=
  0 <= d ∧
  (∀ i j, (i < j < k)%nat → drawdown_between prices i j <= d) ∧
  (d = 0 ∨ ∃ i j, (i < j < k)%nat ∧ d = drawdown_between prices i j).

(** [m] is the largest of the prices at the indices below [k]. *)
Definition is_running_max (prices : list Qc) (k : nat) (m : Qc) : Prop :=
  (∃ i, (i < k)%nat ∧ m = nth i prices 0) ∧
  (∀ i, (i < k)%nat → nth i prices 0 <= m).

(** The mean of the squared deviations from the mean. *)
Definition population_variance (l : list Qc) : Qc :=
  Qcmean ((λ b, (b - Qcmean l) * (b - Qcmean l)) <$> l).

(** The element of a matrix at row [i] and column [j]. *)
Definition matrix_at (m : list (list jsval)) (i j : nat) : jsval :=
  arr_at (default [] (m !! i)) j.

(** The entry the loops of [calculateCorrelationMatrix] push at row [i],
    column [j]. *)
Definition matrix_entry (Math_sqrt : jsval → jsval) (priceData : object)
  (i j : nat) : jsval :=
  if decide (i = j) then num 1
  else calculateCorrelation Math_sqrt
         (prop_at priceData (Object_keys priceData) i)
         (prop_at priceData (Object_keys priceData) j).

(** The smoothing factor [2 / (period + 1)]. *)
Definition ema_multiplier (period : nat) : jsval :=
  (num 2 / (of_nat period + num 1))%js.

(** [e] is the exponential moving average of [x]: it starts at [x[0]] and
    then moves toward each new value by the smoothing factor. *)
Definition is_ema (period : nat) (x e : list jsval) : Prop :=
  arr_at e 0 = arr_at x 0 ∧
  ∀ i, (1 <= i < length x)%nat →
    arr_at e i
    = (ema_multiplier period * arr_at x i
       + (num 1 - ema_multiplier period) * arr_at e (i - 1))%js.

(** The three values pushed by the iteration of index [i]. *)
Definition bb_slice (prices : list jsval) (period : nat) (i : Z) : list jsval :=
  slice prices (i - Z.of_nat period + 1) (i + 1).

Definition bb_mean (prices : list jsval) (period : nat) (i : Z) : jsval :=
  (reduce (λ a b, a + b) (num 0) (bb_slice prices period i) / of_nat period)%js.

Definition bb_std (Math_sqrt : jsval → jsval) (prices : list jsval)
  (period : nat) (i : Z) : jsval :=
  Math_sqrt
    (reduce (λ a b, a + Math_pow (b - bb_mean prices period i) 2) (num 0)
       (bb_slice prices period i) / of_nat period)%js.

(** The day-to-day change ending at index [i], and its gain and loss. *)
Definition rsi_change (prices : list jsval) (i : nat) : jsval :=
  (arr_at prices i - arr_at prices (i - 1))%js.

Definition rsi_gain (prices : list jsval) (i : nat) : jsval :=
  if js_gt (rsi_change prices i) (num 0) then rsi_change prices i else num 0.

Definition rsi_loss (prices : list jsval) (i : nat) : jsval :=
  if js_lt (rsi_change prices i) (num 0) then Math_abs (rsi_change prices i)
  else num 0.

(** Wilder's smoothing of an average by a new value, and the index value of
    an average gain and an average loss. *)
Definition rsi_smooth (period : nat) (avg x : jsval) : jsval :=
  ((avg * (of_nat period - num 1) + x) / of_nat period)%js.

Definition rsi_value (avgGain avgLoss : jsval) : jsval :=
  (num 100 - (num 100 / (num 1 + avgGain / avgLoss)))%js.

Definition rsi_start (period : nat) (xs : list jsval) : jsval :=
  (reduce (λ a b, a + b) (num 0) (slice xs 0 (Z.of_nat period))
     / of_nat period)%js.

Definition qchange (prices : list Qc) (i : nat) : Qc :=
  nth i prices 0 - nth (i - 1) prices 0.

Definition qgain (prices : list Qc) (i : nat) : Qc :=
  if bool_decide (0 < qchange prices i) then qchange prices i else 0.

Definition qloss (prices : list Qc) (i : nat) : Qc :=
  if bool_decide (qchange prices i < 0) then Qcabs (qchange prices i) else 0.

(** The prices at the indices [0 .. i] are all the same. *)
Definition flat_upto (prices : list Qc) (i : nat) : Prop :=
  ∀ j, (j <= i)%nat → nth j prices 0 = nth 0 prices 0.

(** A finite number between [0] and [100]. *)
Definition rsi_in_range (v : jsval) : Prop :=
  ∃ q : Qc, v = Fin q ∧ 0 <= q ∧ q <= Q2Qc (inject_Z 100).

(** Wilder's smoothing on finite numbers. *)
Definition qsmooth (p : nat) (g x : Qc) : Qc :=
  (g * (Qc_of_nat p - 1) + x) / Qc_of_nat p.

(** The averages that start the smoothing, on finite numbers. *)
Definition qstart (p : nat) (xs : list Qc) : Qc :=
  Qcsum (take p xs) / Qc_of_nat p.

(** What the running averages of gains and losses are after the changes up
    to price index [i] went in: finite, non-negative, both zero on a flat
    series, and (for a period of at least two) one of them positive on a
    series that is not flat. *)
Definition rsi_averages (prices : list Qc) (period i : nat)
  (avgGain avgLoss : jsval) : Prop :=
  ∃ g l : Qc, avgGain = Fin g ∧ avgLoss = Fin l ∧ 0 <= g ∧ 0 <= l ∧
    (flat_upto prices i → g = 0 ∧ l = 0) ∧
    ((2 <= period)%nat → ¬ flat_upto prices i → 0 < g ∨ 0 < l).

(** The array of day-to-day returns of [prices], as
    [calculateCorrelation] builds it. *)
Definition returns_list (xs : list jsval) : list jsval :=
  imap (λ i price, (price - arr_at xs i) / arr_at xs i)%js
    (slice xs 1 (Z.of_nat (length xs))).

(** * The rest of the two pages

    What the pages do with the routines: the processing of a market-data
    response ([fetchRiskAnalysis], [fetchTechnicalAnalysis]: the request
    itself is outside, its parsed result is an argument, and the state of
    the component is passed along), the classifications shown to the user
    ([getRiskLevel], [getRSISignal], [getMACDSignal]) and the series handed
    to the charts ([createPriceChart], [createRSIChart], [createMACDChart],
    [createBollingerBandsChart]). *)

Module Pages.

Local Open Scope string_scope.

(** ** Objects with values of any type *)

Section Objects.

Context {A : Type}.

(** [o[k]]. *)
Fixpoint prop_get (o : list (string * A)) (k : string) : option A :=
  match o with
  | [] => None
  | (k', v) :: o' => if decide (k' = k) then Some v else prop_get o' k
  end.

(** [o[k] = v]: the property is replaced where it is, or added last.  The
    pages add the keys in the order [Object.keys] enumerated them on the
    response, which is then also the order [Object.keys] enumerates them on
    the new object. *)
Fixpoint prop_put (o : list (string * A)) (k : string) (v : A)
  : list (string * A) :=
  match o with
  | [] => [(k, v)]
  | (k', v') :: o' =>
      if decide (k' = k) then (k, v) :: o' else (k', v') :: prop_put o' k v
  end.

(** The key [__proto__] is not a property of an object built by
    assignments: [o["__proto__"] = v], with [v] an array or an object as
    the pages assign, calls the setter that [o] inherits, which makes [v]
    the prototype of [o] and leaves [o] the keys it had. *)
Definition prop_set (o : list (string * A)) (k : string) (v : A)
  : list (string * A) :=
  if decide (k = "__proto__") then o else prop_put o k v.

(** [xs.slice(s)]: from [s] (counted from the end when negative) to the
    end. *)
Definition slice_from (xs : list A) (s : Z) : list A :=
  drop (rel_index (length xs) s) xs.

End Objects.

(** [xs[k]] at an integer that may be negative, as [xs[xs.length - 2]] is
    on a short array: [undefined] out of range. *)
Definition arr_at_int (xs : list jsval) (k : Z) : jsval :=
  if (k <? 0)%Z then Undef else arr_at xs (Z.to_nat k).

(** ** RiskAnalysis.js *)

Record risk_level : Type := {
  level : string;
  color : string
}.

Definition getRiskLevel (value : jsval) (type : string) : risk_level :=
  if decide (type = "volatility") then
    if js_lt value (ratio 15 100)
    then {| level := "Low"; color := "#52c41a" |}
    else if js_lt value (ratio 25 100)
    then {| level := "Medium"; color := "#faad14" |}
    else {| level := "High"; color := "#ff4d4f" |}
  else if decide (type = "maxDrawdown") then
    if js_lt value (ratio 1 10)
    then {| level := "Low"; color := "#52c41a" |}
    else if js_lt value (ratio 2 10)
    then {| level := "Medium"; color := "#faad14" |}
    else {| level := "High"; color := "#ff4d4f" |}
  else if decide (type = "sharpeRatio") then
    if js_gt value (num 1)
    then {| level := "Excellent"; color := "#52c41a" |}
    else if js_gt value (ratio 1 2)
    then {| level := "Good"; color := "#1890ff" |}
    else if js_gt value (num 0)
    then {| level := "Fair"; color := "#faad14" |}
    else {| level := "Poor"; color := "#ff4d4f" |}
  else {| level := "N/A"; color := "#d9d9d9" |}.

Record risk_metrics : Type := {
  var95 : jsval;
  var99 : jsval;
  cvar95 : jsval;
  cvar99 : jsval;
  maxDrawdown : jsval;
  sharpeRatio : jsval;
  volatility : jsval;
  avgReturn : jsval
}.

(** The state of the RiskAnalysis component that the analysis sets. *)
Record risk_state : Type := {
  riskMetrics : option (list (string * risk_metrics));
  correlationMatrix : option correlation_result
}.

Section WithSqrt.

Variable Math_sqrt : jsval → jsval.

(** The object literal with the metrics of a symbol, from its prices and
    their returns. *)
Definition symbol_metrics (prices returns : list jsval) : risk_metrics :=
  {| var95 := calculateVaR returns (ratio 5 100);
     var99 := calculateVaR returns (ratio 1 100);
     cvar95 := calculateCVaR returns (ratio 5 100);
     cvar99 := calculateCVaR returns (ratio 1 100);
     maxDrawdown := calculateMaxDrawdown prices;
     sharpeRatio := calculateSharpeRatio Math_sqrt returns Undef;
     volatility :=
       (Math_sqrt
          (reduce
             (λ a b,
                a + Math_pow
                      (b - reduce (λ x y, x + y) (num 0) returns
                           / of_nat (length returns)) 2)
             (num 0) returns
           / of_nat (length returns))
        * Math_sqrt (num 252))%js;
     avgReturn :=
       (reduce (λ a b, a + b) (num 0) returns
          / of_nat (length returns) * num 252)%js |}.

(** The body of the [forEach] over the symbols of the response: for a
    symbol with historical data, its closing prices go to [priceData] and
    its metrics to [riskMetricsData].  The data of a symbol is [None] when
    [symbolData && symbolData.historical_data] is falsy, else the [close]
    of each day. *)
Definition process_symbol (data : list (string * option (list jsval)))
  (acc : object * list (string * risk_metrics)) (symbol : string)
  : object * list (string * risk_metrics) :=
  let '(priceData, riskMetricsData) := acc in
  match prop_get data symbol with
  | Some (Some prices) =>
      let returns :=
        imap (λ i price, (price - arr_at prices i) / arr_at prices i)%js
          (slice prices 1 (Z.of_nat (length prices))) in
      (prop_set priceData symbol prices,
       prop_set riskMetricsData symbol (symbol_metrics prices returns))
  | _ => acc
  end.

(** [fetchRiskAnalysis] from the parsed response on: [response] is [None]
    when [result.success && result.data && result.data.data] is falsy.
    With no symbol entered, or such a response, only a message is shown. *)
Definition fetchRiskAnalysis (symbols : list string)
  (response : option (list (string * option (list jsval))))
  (st : risk_state) : risk_state :=
  if decide (length symbols = 0%nat) then st else
  match response with
  | Some data =>
      let '(priceData, riskMetricsData) :=
        fold_left (process_symbol data) (data.*1) ([], []) in
      let st1 :=
        {| riskMetrics := Some riskMetricsData;
           correlationMatrix := correlationMatrix st |} in
      if decide (1 < length (Object_keys priceData))%nat
      then
        {| riskMetrics := riskMetrics st1;
           correlationMatrix :=
             Some (calculateCorrelationMatrix Math_sqrt priceData) |}
      else st1
  | None => st
  end.

End WithSqrt.

(** ** TechnicalAnalysis page *)

Record day : Type := {
  date : string;
  close : jsval
}.

Record market_data : Type := {
  prices : list jsval;
  dates : list string;
  historical : list day
}.

Record indicators_data : Type := {
  rsi : list jsval;
  macd : macd_result;
  bollinger : bollinger_result
}.

(** The state of the TechnicalAnalysis component that the analysis sets. *)
Record technical_state : Type := {
  marketData : option market_data;
  indicators : option indicators_data
}.

(** [fetchTechnicalAnalysis] from the parsed response on: [response] is
    [None] when the result has no data, [Some None] when the symbol has no
    historical data; both only show a message (as does a blank symbol,
    before the request).  The indicators keep their last 100 values. *)
Definition fetchTechnicalAnalysis (Math_sqrt : jsval → jsval)
  (response : option (option (list day))) (st : technical_state)
  : technical_state :=
  match response with
  | Some (Some historical_data) =>
      let prices := close <$> historical_data in
      let dates := date <$> historical_data in
      let rsi := calculateRSI prices default_rsi_period in
      let macd :=
        calculateMACD prices default_fast_period default_slow_period
          default_signal_period in
      let bollinger :=
        calculateBollingerBands Math_sqrt prices default_bollinger_period
          Undef in
      {| marketData :=
           Some {| prices := prices; dates := dates;
                   historical := historical_data |};
         indicators :=
           Some {| rsi := slice_from rsi (-100);
                   macd :=
                     {| Values.macd := slice_from (Values.macd macd) (-100);
                        signal := slice_from (signal macd) (-100);
                        histogram := slice_from (histogram macd) (-100) |};
                   bollinger :=
                     {| upper := slice_from (upper bollinger) (-100);
                        middle := slice_from (middle bollinger) (-100);
                        lower := slice_from (lower bollinger) (-100) |} |} |}
  | _ => st
  end.

(** A trace of a chart. *)
Record trace : Type := {
  x : list string;
  y : list jsval;
  name : string
}.

(** The [data] of the price chart: the last 100 closing prices over the
    last 100 dates. *)
Definition createPriceChart (st : technical_state) : option (list trace) :=
  match marketData st with
  | Some marketData =>
      Some
        [ {| x := slice_from (dates marketData) (-100);
             y := slice_from (prices marketData) (-100);
             name := "Price" |} ]
  | None => None
  end.

(** The [data] of the RSI chart: the RSI and the two threshold lines, over
    the last 100 dates. *)
Definition createRSIChart (st : technical_state) : option (list trace) :=
  match indicators st, marketData st with
  | Some indicators, Some marketData =>
      Some
        [ {| x := slice_from (dates marketData) (-100);
             y := rsi indicators;
             name := "RSI" |};
          {| x := slice_from (dates marketData) (-100);
             y := replicate (length (rsi indicators)) (num 70);
             name := "Overbought (70)" |};
          {| x := slice_from (dates marketData) (-100);
             y := replicate (length (rsi indicators)) (num 30);
             name := "Oversold (30)" |} ]
  | _, _ => None
  end.

(** The [data] of the MACD chart: the three kept arrays over the last 100
    dates. *)
Definition createMACDChart (st : technical_state) : option (list trace) :=
  match indicators st, marketData st with
  | Some indicators, Some marketData =>
      Some
        [ {| x := slice_from (dates marketData) (-100);
             y := Values.macd (macd indicators);
             name := "MACD" |};
          {| x := slice_from (dates marketData) (-100);
             y := signal (macd indicators);
             name := "Signal" |};
          {| x := slice_from (dates marketData) (-100);
             y := histogram (macd indicators);
             name := "Histogram" |} ]
  | _, _ => None
  end.

(** The [data] of the Bollinger chart: the last 100 closing prices and the
    three kept bands, over the last 100 dates. *)
Definition createBollingerBandsChart (st : technical_state)
  : option (list trace) :=
  match indicators st, marketData st with
  | Some indicators, Some marketData =>
      Some
        [ {| x := slice_from (dates marketData) (-100);
             y := slice_from (prices marketData) (-100);
             name := "Price" |};
          {| x := slice_from (dates marketData) (-100);
             y := upper (bollinger indicators);
             name := "Upper Band" |};
          {| x := slice_from (dates marketData) (-100);
             y := middle (bollinger indicators);
             name := "Middle Band (SMA)" |};
          {| x := slice_from (dates marketData) (-100);
             y := lower (bollinger indicators);
             name := "Lower Band" |} ]
  | _, _ => None
  end.

Definition getRSISignal (st : technical_state) : string :=
  match indicators st with
  | None => "N/A"
  | Some indicators =>
      if decide (length (rsi indicators) = 0%nat) then "N/A" else
      let currentRSI :=
        arr_at (rsi indicators) (length (rsi indicators) - 1) in
      if js_gt currentRSI (num 70) then "Overbought"
      else if js_lt currentRSI (num 30) then "Oversold"
      else "Neutral"
  end.

Definition getMACDSignal (st : technical_state) : string :=
  match indicators st with
  | None => "N/A"
  | Some indicators =>
      if decide (length (Values.macd (macd indicators)) < 2)%nat
      then "N/A" else
      let signal := Values.signal (macd indicators) in
      let macd := Values.macd (macd indicators) in
      let currentMACD := arr_at_int macd (Z.of_nat (length macd) - 1) in
      let currentSignal :=
        arr_at_int signal (Z.of_nat (length signal) - 1) in
      let prevMACD := arr_at_int macd (Z.of_nat (length macd) - 2) in
      let prevSignal := arr_at_int signal (Z.of_nat (length signal) - 2) in
      if js_gt currentMACD currentSignal && js_le prevMACD prevSignal
      then "Bullish Crossover"
      else if js_lt currentMACD currentSignal && js_le prevSignal prevMACD
      then "Bearish Crossover"
      else "No Signal"
  end.

End Pages.

(** * Vocabulary of the further properties *)

(** The prices rise, or fall, at each of the first [i] steps. *)
Definition rising_upto (prices : list Qc) (i : nat) : Prop :=
  ∀ j, (j < i)%nat → nth j prices 0 < nth (S j) prices 0.

Definition falling_upto (prices : list Qc) (i : nat) : Prop :=
  ∀ j, (j < i)%nat → nth (S j) prices 0 < nth j prices 0.

(** The [data] of a response: for each symbol its closing prices, when it
    has historical data. *)
Abbreviation response_data := (list (string * option (list jsval))).

(** The body of the main loop of [calculateRSI], over the gains and the
    losses. *)
Abbreviation rsi_body period gains losses :=
  (λ (i : nat) '(avgGain, avgLoss, rsi),
     let avgGain := rsi_smooth period avgGain (arr_at gains i) in
     let avgLoss := rsi_smooth period avgLoss (arr_at losses i) in
     (avgGain, avgLoss, rsi ++ [rsi_value avgGain avgLoss])).

(** A symbol of the response has historical data. *)
Definition has_history (data : list (string * option (list jsval)))
  (k : string) : bool :=
  match Pages.prop_get data k with Some (Some _) => true | _ => false end.

(** The closing prices of a symbol of the response. *)
Definition history_of (data : list (string * option (list jsval)))
  (k : string) : list jsval :=
  default [] (mjoin (Pages.prop_get data k)).

(** The symbols of a response that get a row of metrics: those with
    historical data, but for the key [__proto__]. *)
Definition listed_symbols (data : list (string * option (list jsval)))
  : list string :=
  filter (λ k, has_history data k ∧ k ≠ "__proto__"%string) data.*1.

(** The metrics that the loop body of [fetchRiskAnalysis] computes for a
    symbol with historical data. *)
Definition metrics_of (Math_sqrt : jsval → jsval)
  (data : list (string * option (list jsval))) (k : string)
  : option Pages.risk_metrics :=
  (λ prices, Pages.symbol_metrics Math_sqrt prices (returns_list prices))
    <$> mjoin (Pages.prop_get data k).

(** * The routines on binary64 numbers

    The embedding above computes with exact rationals, which is what the
    properties of the arrays, of their alignment and of the special values
    need.  What a routine returns as a Number depends on the rounding of
    every operation, on overflow to an infinity, on underflow to a zero and
    on the sign of a zero.  [Binary64] has the Numbers of the language
    themselves and, over them, the routines whose specification is
    numeric: [calculateVaR], [calculateCVaR], [calculateMaxDrawdown],
    [calculateSharpeRatio] and [calculateBollingerBands].

    Every finite binary64 value is an integer multiple of [2^-1074], the
    smallest positive one.  A finite Number is the integer [k] of these
    units it holds ([Num k] is [k * 2^-1074]; [1] is [Num (2^1074)]); [-0]
    is a value of its own beside [Num 0].  An operator computes its exact
    result as a fraction of integers and rounds it once to the nearest
    binary64 value, ties to even: 53 significant bits, a result of
    [2^1024] or more being an infinity. *)

Module Binary64.

Local Open Scope Z_scope.

(** The Number [1], in units. *)
Definition U : Z := 2 ^ 1074.

(** [2^1024], in units: what rounds to it overflows. *)
Definition OVF : Z := 2 ^ 2098.

Inductive val : Type :=
| Num (k : Z)
| NegZero
| PInf
| NInf
| NaN
| Undef.

Global Instance val_eq_dec : EqDecision val.
Proof. solve_decision. Defined.

(** The integer nearest to [n / d] for [0 <= n] and [0 < d], the even one
    of the two when [n / d] is half-way. *)
Definition rne (n d : Z) : Z :=
  let q := n / d in
  match 2 * (n mod d) ?= d with
  | Lt => q
  | Gt => q + 1
  | Eq => if Z.even q then q else q + 1
  end.

(** [n / d] units rounded to 53 significant bits: below [2^53] units the
    binary64 values are the integers, and from [2^l] to [2^(l+1)] units
    they are the multiples of [2^(l-52)].  [shift_of q] is the number of
    low bits that a quotient of integer part [q] loses. *)
Definition shift_of (q : Z) : Z := Z.max 0 (Z.log2 q - 52).

Definition round_mag (n d : Z) : Z :=
  let s := shift_of (n / d) in
  rne n (d * 2 ^ s) * 2 ^ s.

(** The Number that [n / d] units round to, for [0 < d]: the sign is kept
    when the magnitude rounds to zero or overflows. *)
Definition rnd (n d : Z) : val :=
  match n ?= 0 with
  | Eq => Num 0
  | Gt => let m := round_mag n d in if OVF <=? m then PInf else Num m
  | Lt =>
      let m := round_mag (- n) d in
      if OVF <=? m then NInf else if m =? 0 then NegZero else Num (- m)
  end.

(** The Number of an integer literal or of an array length (exact below
    [2^53]), and of a decimal literal. *)
Definition num (z : Z) : val := Num (z * U).
Definition of_nat (n : nat) : val := num (Z.of_nat n).
Definition dbl (q : Q) : val := rnd (Qnum q * U) (Zpos (Qden q)).

(** A finite Number that is a binary64 value: rounding leaves it as it
    is. *)
Definition double (k : Z) : Prop := rnd k 1 = Num k.

Definition finite (x : val) : Prop :=
  match x with Num _ | NegZero => True | _ => False end.

(** The units of a finite Number; [-0] has none. *)
Definition units (x : val) : Z :=
  match x with Num k => k | _ => 0 end.

(** The sign bit. *)
Definition sign (x : val) : bool :=
  match x with
  | Num k => k <? 0
  | NegZero | NInf => true
  | _ => false
  end.

Definition zero (neg : bool) : val := if neg then NegZero else Num 0.
Definition inf (neg : bool) : val := if neg then NInf else PInf.

Definition is_zero (x : val) : bool :=
  match x with Num 0 | NegZero => true | _ => false end.

Definition js_neg (x : val) : val :=
  match x with
  | Num 0 => NegZero
  | Num k => Num (- k)
  | NegZero => Num 0
  | PInf => NInf
  | NInf => PInf
  | _ => NaN
  end.

(** [x + y]: a zero sum of two finite Numbers is [+0] unless both are
    [-0]. *)
Definition js_add (x y : val) : val :=
  match x, y with
  | Num a, Num b => rnd (a + b) 1
  | Num a, NegZero | NegZero, Num a => Num a
  | NegZero, NegZero => NegZero
  | (Num _ | NegZero), PInf | PInf, (Num _ | NegZero) | PInf, PInf => PInf
  | (Num _ | NegZero), NInf | NInf, (Num _ | NegZero) | NInf, NInf => NInf
  | _, _ => NaN
  end.

(** [x - y]. *)
Definition js_sub (x y : val) : val := js_add x (js_neg y).

(** [x * y]: the sign of the result is the exclusive or of the signs, also
    of a zero and of an infinity; an infinity times a zero is [NaN]. *)
Definition js_mul (x y : val) : val :=
  match x, y with
  | (NaN | Undef), _ | _, (NaN | Undef) => NaN
  | (PInf | NInf), _ | _, (PInf | NInf) =>
      if is_zero x || is_zero y then NaN else inf (xorb (sign x) (sign y))
  | Num a, Num b =>
      if (a =? 0) || (b =? 0) then zero (xorb (sign x) (sign y))
      else rnd (a * b) U
  | _, _ => zero (xorb (sign x) (sign y))
  end.

(** [x / y]: [0 / 0] and an infinity over an infinity are [NaN], anything
    else over a zero is an infinity, and a finite Number over an infinity
    is a zero. *)
Definition js_div (x y : val) : val :=
  match x, y with
  | (NaN | Undef), _ | _, (NaN | Undef) => NaN
  | (PInf | NInf), (PInf | NInf) => NaN
  | (PInf | NInf), _ => inf (xorb (sign x) (sign y))
  | _, (PInf | NInf) => zero (xorb (sign x) (sign y))
  | _, _ =>
      if is_zero y then
        if is_zero x then NaN else inf (xorb (sign x) (sign y))
      else if is_zero x then zero (xorb (sign x) (sign y))
      else if 0 <? units y then rnd (units x * U) (units y)
      else rnd (- (units x * U)) (- units y)
  end.

Declare Scope b64_scope.
Delimit Scope b64_scope with b64.
Bind Scope b64_scope with val.

Infix "+" := js_add : b64_scope.
Infix "-" := js_sub : b64_scope.
Infix "*" := js_mul : b64_scope.
Infix "/" := js_div : b64_scope.

(** [x < y] and [x > y]: false as soon as an operand is [NaN]; the two
    zeros are equal. *)
Definition js_lt (x y : val) : bool :=
  match x, y with
  | (NaN | Undef), _ | _, (NaN | Undef) => false
  | _, NInf | PInf, _ => false
  | NInf, _ | _, PInf => true
  | _, _ => units x <? units y
  end.

Definition js_gt (x y : val) : bool := js_lt y x.

(** [x <= y] on Numbers, used to state bounds. *)
Definition js_le (x y : val) : bool :=
  match x, y with
  | (NaN | Undef), _ | _, (NaN | Undef) => false
  | NInf, _ | _, PInf => true
  | _, NInf | PInf, _ => false
  | _, _ => units x <=? units y
  end.

(** [x === y]. *)
Definition js_seq (x y : val) : bool :=
  match x, y with
  | NaN, _ | _, NaN => false
  | (Num 0 | NegZero), (Num 0 | NegZero) => true
  | _, _ => bool_decide (x = y)
  end.

(** ToBoolean: the zeros, [NaN] and [undefined] are falsy. *)
Definition truthy (x : val) : bool :=
  match x with
  | Num k => negb (k =? 0)
  | PInf | NInf => true
  | NegZero | NaN | Undef => false
  end.

(** [x || y]. *)
Definition js_or (x y : val) : val := if truthy x then x else y.

Infix "||" := js_or : b64_scope.

Definition Math_abs (x : val) : val :=
  match x with
  | Num k => Num (Z.abs k)
  | NegZero => Num 0
  | PInf | NInf => PInf
  | _ => NaN
  end.

(** [Math.floor]: the multiple of the unit [1] below; [Z]'s division
    rounds down. *)
Definition Math_floor (x : val) : val :=
  match x with
  | Num k => Num (k / U * U)
  | Undef => NaN
  | _ => x
  end.

(** [Math.pow(x, 2)]: the product [x * x] rounded once, which is what the
    [pow] of fdlibm returns for the exponent [2] and what a correctly
    rounded power is. *)
Definition Math_pow_2 (x : val) : val := (x * x)%b64.

(** [Math.sqrt], correctly rounded.  The root of [k] units is the root of
    [k * U] in units; when that is not an integer it lies strictly between
    two integers [s] and [s + 1], far above the range where binary64 values
    are one unit apart, and rounds as [s + 1/2] does. *)
Definition Math_sqrt (x : val) : val :=
  match x with
  | Num k =>
      if k <? 0 then NaN else
      let s := Z.sqrt (k * U) in
      if s * s =? k * U then rnd s 1 else rnd (2 * s + 1) 2
  | NegZero => NegZero
  | PInf => PInf
  | _ => NaN
  end.

(** A parameter that was omitted arrives as [undefined] and takes its
    default. *)
Definition default_arg (v d : val) : val :=
  match v with Undef => d | _ => v end.

(** Arrays, as in the embedding over rationals: [arr_at] reads at a loop
    index, [arr_get] at a computed Number, which names an element when it
    is a non-negative integer ([-0] names the first). *)
Definition arr_at (xs : list val) (i : nat) : val := default Undef (xs !! i).

Definition index_of (v : val) : option nat :=
  match v with
  | Num k =>
      if decide (0 <= k ∧ k mod U = 0) then Some (Z.to_nat (k / U)) else None
  | NegZero => Some 0%nat
  | _ => None
  end.

Definition arr_get (xs : list val) (v : val) : val :=
  match index_of v with
  | Some i => arr_at xs i
  | None => Undef
  end.

Definition slice (xs : list val) (s e : Z) : list val :=
  let from := rel_index (length xs) s in
  let to := rel_index (length xs) e in
  take (to - from) (drop from xs).

(** ToIntegerOrInfinity of a Number used as a slice bound of an array of
    length [len]: truncation toward zero, the infinities clamped to the
    array. *)
Definition ToInteger (len : nat) (v : val) : Z :=
  match v with
  | Num k => Z.quot k U
  | PInf => Z.of_nat len
  | NInf => - Z.of_nat len
  | _ => 0
  end.

Definition reduce {A} (f : A → val → A) (init : A) (xs : list val) : A :=
  fold_left f xs init.

(** [Array.prototype.sort(cmp)], the stable insertion sort of the
    embedding over rationals. *)
Fixpoint sort_insert (cmp : val → val → val) (x : val) (l : list val)
  : list val :=
  match l with
  | [] => [x]
  | y :: l' =>
      if js_gt (cmp x y) (Num 0) then y :: sort_insert cmp x l' else x :: l
  end.

Definition Array_sort (cmp : val → val → val) (xs : list val) : list val :=
  foldr (sort_insert cmp) [] (filter (λ v, v ≠ Undef) xs)
    ++ filter (λ v, v = Undef) xs.

(** ** RiskAnalysis.js *)

Definition calculateVaR (returns : list val) (confidence : val) : val :=
  let confidence := default_arg confidence (dbl (5 # 100)) in
  if decide (length returns = 0%nat) then num 0 else
  let sortedReturns := Array_sort (λ a b, a - b)%b64 returns in
  let index := Math_floor (confidence * of_nat (length sortedReturns)) in
  Math_abs (arr_get sortedReturns index || num 0).

Definition calculateCVaR (returns : list val) (confidence : val) : val :=
  let confidence := default_arg confidence (dbl (5 # 100)) in
  if decide (length returns = 0%nat) then num 0 else
  let sortedReturns := Array_sort (λ a b, a - b)%b64 returns in
  let varIndex := Math_floor (confidence * of_nat (length sortedReturns)) in
  let tailReturns :=
    slice sortedReturns 0 (ToInteger (length sortedReturns) varIndex) in
  Math_abs (reduce (λ a b, a + b)%b64 (num 0) tailReturns
              / of_nat (length tailReturns) || num 0).

Definition calculateMaxDrawdown (prices : list val) : val :=
  if decide (length prices = 0%nat) then num 0 else
  let maxPrice := arr_at prices 0 in
  let maxDrawdown := num 0 in
  let '(_, maxDrawdown) :=
    for_loop 1 (length prices)
      (λ i '(maxPrice, maxDrawdown),
         let maxPrice :=
           if js_gt (arr_at prices i) maxPrice then arr_at prices i
           else maxPrice in
         let drawdown := ((maxPrice - arr_at prices i) / maxPrice)%b64 in
         let maxDrawdown :=
           if js_gt drawdown maxDrawdown then drawdown else maxDrawdown in
         (maxPrice, maxDrawdown))
      (maxPrice, maxDrawdown) in
  maxDrawdown.

Definition calculateSharpeRatio (returns : list val) (riskFreeRate : val)
  : val :=
  let riskFreeRate := default_arg riskFreeRate (dbl (2 # 100)) in
  if decide (length returns = 0%nat) then num 0 else
  let avgReturn :=
    (reduce (λ a b, a + b) (num 0) returns / of_nat (length returns))%b64 in
  let volatility :=
    Math_sqrt
      (reduce (λ a b, a + Math_pow_2 (b - avgReturn)) (num 0) returns
         / of_nat (length returns))%b64 in
  if js_seq volatility (num 0) then num 0
  else ((avgReturn - riskFreeRate / num 252) / volatility)%b64.

(** ** TechnicalAnalysis page *)

Record bollinger_result : Type := {
  upper : list val;
  middle : list val;
  lower : list val
}.

Definition calculateBollingerBands (prices : list val) (period : nat)
  (stdDev : val) : bollinger_result :=
  let stdDev := default_arg stdDev (num 2) in
  if decide (length prices < period)%nat
  then {| upper := []; middle := []; lower := [] |} else
  let '(sma, upper, lower) :=
    fold_left
      (λ '(sma, upper, lower) (i : Z),
         let slice :=
           slice prices (i - Z.of_nat period + 1)%Z (i + 1)%Z in
         let mean :=
           (reduce (λ a b, a + b) (num 0) slice / of_nat period)%b64 in
         let variance :=
           (reduce (λ a b, a + Math_pow_2 (b - mean)) (num 0) slice
              / of_nat period)%b64 in
         let std := Math_sqrt variance in
         (sma ++ [mean], upper ++ [mean + (std * stdDev)],
          lower ++ [mean - (std * stdDev)])%b64)
      (seqZ (Z.of_nat period - 1) (Z.of_nat (length prices)
                                   - (Z.of_nat period - 1)))
      ([], [], []) in
  {| upper := upper; middle := sma; lower := lower |}.

End Binary64.

(** * Vocabulary of the properties on binary64 numbers *)

Module Binary64Spec.

Import Binary64.
Local Open Scope Z_scope.

(** An array in ascending order. *)
Definition ascending (xs : list val) : Prop :=
  Sorted (λ x y, js_le x y = true) xs.

(** The binary64 sum of an array, accumulated from [0] from left to right,
    and its binary64 mean. *)
Definition sum64 (xs : list val) : val := fold_left js_add xs (num 0).

Definition mean64 (xs : list val) : val :=
  (sum64 xs / of_nat (length xs))%b64.

(** The binary64 mean of the squared deviations from the binary64 mean,
    and its root. *)
Definition variance64 (xs : list val) : val :=
  mean64 ((λ b, Math_pow_2 (b - mean64 xs)) <$> xs).

Definition std64 (xs : list val) : val := Math_sqrt (variance64 xs).

(** [floor(c * n)] in exact arithmetic, for a confidence level of [c]
    units. *)
Definition exact_var_index (c : Z) (n : nat) : Z := c * Z.of_nat n / U.

(** The rational that a finite Number is. *)
Definition exact (x : val) : Qc := Q2Qc (units x # Z.to_pos U).

(** The largest of the prices at the indices [0 .. j]. *)
Definition running_max (prices : list Z) (j : nat) : Z :=
  fold_left Z.max (take (S j) prices) (nth 0 prices 0).

(** The binary64 fall from a peak to a price, as a fraction of the
    peak. *)
Definition drawdown64 (peak price : Z) : val :=
  ((Num peak - Num price) / Num peak)%b64.

(** A Number that is not negative: a finite one of no less than zero
    units, or [Infinity]. *)
Definition nonneg (x : val) : Prop :=
  match x with Num k => 0 <= k | PInf => True | _ => False end.

(** What a sum accumulated from [0] is: a binary64 value or an
    infinity. *)
Definition rounded (x : val) : Prop :=
  match x with Num a => double a | PInf | NInf => True | _ => False end.



(** The slice, the mean and the deviation of the iteration of index [i] of
    [calculateBollingerBands]. *)
Definition bb_slice (prices : list val) (period : nat) (i : Z) : list val :=
  slice prices (i - Z.of_nat period + 1) (i + 1).

Definition bb_mean (prices : list val) (period : nat) (i : Z) : val :=
  (sum64 (bb_slice prices period i) / of_nat period)%b64.

Definition bb_std (prices : list val) (period : nat) (i : Z) : val :=
  Math_sqrt
    (sum64 ((λ b, Math_pow_2 (b - bb_mean prices period i))
              <$> bb_slice prices period i) / of_nat period)%b64.

End Binary64Spec.

(** * Properties *)

(** ** The number model *)

(** Goals over [Qc] are taken to [Q], where [lra] and [nra] work. *)
Ltac qc_unfold :=
  unfold Qcle, Qclt, Qcdiv, Qcminus, Qcplus, Qcmult, Qcopp, Qcinv, Q2Qc in *;
  cbn [this] in *; rewrite ?Qred_correct in *.

Ltac qc_lra := qc_unfold; lra.

Lemma Qc_neq_0 (a : Qc) : a ≠ 0 ↔ ¬ (this a == 0)%Q.
Proof.
  split; intros H E; apply H.
  - apply Qc_is_canon. exact E.
  - subst a. reflexivity.
Qed.

Lemma this_inject_Z (z : Z) : (this (Q2Qc (inject_Z z)) == inject_Z z)%Q.
Proof. apply Qred_correct. Qed.

Lemma inject_nat_pos (n : nat) : (0 < n)%nat → (0 < inject_Z (Z.of_nat n))%Q.
Proof. intros H. change 0%Q with (inject_Z 0). rewrite <- Zlt_Qlt. lia. Qed.

Lemma of_nat_neq_0 (n : nat) : (0 < n)%nat → Q2Qc (inject_Z (Z.of_nat n)) ≠ 0.
Proof.
  intros H. apply Qc_neq_0. rewrite this_inject_Z.
  pose proof (inject_nat_pos n H). lra.
Qed.

Lemma js_add_comm (x y : jsval) : (x + y = y + x)%js.
Proof. destruct x, y; simpl; try reflexivity. f_equal. ring. Qed.

Lemma js_mul_comm (x y : jsval) : (x * y = y * x)%js.
Proof. destruct x, y; simpl; try reflexivity. f_equal. ring. Qed.

Lemma Qcabs_nonneg (a : Qc) : 0 <= Qcabs a.
Proof. unfold Qcabs. case_bool_decide; qc_lra. Qed.

(** ** Arrays and loops *)

Lemma arr_at_fmap_Fin (l : list Qc) (i : nat) :
  (i < length l)%nat → arr_at (Fin <$> l) i = Fin (nth i l 0).
Proof.
  intros H. unfold arr_at. rewrite list_lookup_fmap.
  destruct (lookup_lt_is_Some_2 l i H) as [x Hx]. rewrite Hx. simpl.
  f_equal. symmetry. apply nth_lookup_Some with (d := 0) in Hx. exact Hx.
Qed.

Lemma arr_at_app_l (l1 l2 : list jsval) (i : nat) :
  (i < length l1)%nat → arr_at (l1 ++ l2) i = arr_at l1 i.
Proof. intros H. unfold arr_at. by rewrite lookup_app_l. Qed.

Lemma arr_at_snoc (l : list jsval) (x : jsval) :
  arr_at (l ++ [x]) (length l) = x.
Proof. unfold arr_at. by rewrite list_lookup_middle. Qed.

Lemma arr_at_snoc_eq (l : list jsval) (x : jsval) (i : nat) :
  length l = i → arr_at (l ++ [x]) i = x.
Proof. intros <-. apply arr_at_snoc. Qed.

Lemma for_loop_ge {S} (lo hi : nat) (body : nat → S → S) (s : S) :
  (hi <= lo)%nat → for_loop lo hi body s = s.
Proof. intros H. unfold for_loop. by replace (hi - lo)%nat with 0%nat by lia. Qed.

Lemma for_loop_S {S} (lo hi : nat) (body : nat → S → S) (s : S) :
  (lo <= hi)%nat →
  for_loop lo (Datatypes.S hi) body s = body hi (for_loop lo hi body s).
Proof.
  intros H. unfold for_loop.
  replace (Datatypes.S hi - lo)%nat with (Datatypes.S (hi - lo)) by lia.
  rewrite seq_S, fold_left_app. simpl. by replace (lo + (hi - lo))%nat with hi by lia.
Qed.

(** A loop invariant rule: [I lo s], and [I] carried from [i] to [i + 1]
    by the body, give [I hi] at the end. *)
Lemma for_loop_ind {S} (I : nat → S → Prop) (lo hi : nat)
  (body : nat → S → S) (s : S) :
  (lo <= hi)%nat →
  I lo s →
  (∀ i s, (lo <= i < hi)%nat → I i s → I (Datatypes.S i) (body i s)) →
  I hi (for_loop lo hi body s).
Proof.
  intros Hle H0 Hstep. induction hi as [|hi IH].
  - assert (lo = 0)%nat as -> by lia. by rewrite for_loop_ge.
  - destruct (decide (lo = Datatypes.S hi)) as [->|Hne].
    + by rewrite for_loop_ge.
    + rewrite for_loop_S by lia. apply Hstep; [lia|].
      apply IH; [lia|]. intros i s' Hi. apply Hstep. lia.
Qed.

(** ** Sorting finite numbers

    On finite numbers the comparator [a - b] is the order of the rationals,
    and [Array_sort] is the insertion sort [qsort] by [<=]. *)

Lemma sort_insert_fin (x : Qc) (l : list Qc) :
  sort_insert (λ a b, a - b)%js (Fin x) (Fin <$> l) = Fin <$> qinsert x l.
Proof.
  induction l as [|y l IH]; [reflexivity|].
  rewrite fmap_cons. cbn [sort_insert qinsert].
  assert (E : js_gt (Fin x - Fin y)%js (num 0) = bool_decide (y < x)).
  { cbn [js_sub js_neg js_add js_gt js_lt num].
    apply bool_decide_ext. change (Q2Qc (inject_Z 0)) with 0.
    split; intros H; qc_lra. }
  rewrite E. destruct (bool_decide (y < x)); [|reflexivity].
  by rewrite IH.
Qed.

Lemma filter_defined_fin (l : list Qc) :
  filter (λ v, v ≠ Undef) (Fin <$> l) = Fin <$> l.
Proof.
  induction l as [|x l IH]; [reflexivity|].
  rewrite fmap_cons, filter_cons_True by discriminate. by rewrite IH.
Qed.

Lemma filter_undef_fin (l : list Qc) :
  filter (λ v, v = Undef) (Fin <$> l) = [].
Proof.
  induction l as [|x l IH]; [reflexivity|].
  rewrite fmap_cons, filter_cons_False by discriminate. exact IH.
Qed.

Lemma Array_sort_fin (l : list Qc) :
  Array_sort (λ a b, a - b)%js (Fin <$> l) = Fin <$> qsort l.
Proof.
  unfold Array_sort. rewrite filter_defined_fin, filter_undef_fin, app_nil_r.
  induction l as [|x l IH]; [reflexivity|].
  rewrite fmap_cons. cbn [foldr]. rewrite IH. apply sort_insert_fin.
Qed.

Lemma qinsert_perm (x : Qc) (l : list Qc) : qinsert x l ≡ₚ x :: l.
Proof.
  induction l as [|y l IH]; [reflexivity|]. simpl.
  case_bool_decide; [|reflexivity]. rewrite IH. apply Permutation_swap.
Qed.

Lemma qsort_perm (l : list Qc) : qsort l ≡ₚ l.
Proof.
  induction l as [|x l IH]; [reflexivity|]. unfold qsort. simpl.
  rewrite qinsert_perm. by constructor.
Qed.

Lemma qinsert_sorted (x : Qc) (l : list Qc) :
  Sorted Qcle l → Sorted Qcle (qinsert x l).
Proof.
  induction l as [|y l IH]; intros Hs; simpl.
  - repeat constructor.
  - case_bool_decide as Hlt.
    + apply Sorted_inv in Hs as [Hs Hhd]. constructor; [by apply IH|].
      destruct l as [|z l]; simpl.
      * constructor. by apply Qclt_le_weak.
      * case_bool_decide; constructor.
        -- by apply HdRel_inv in Hhd.
        -- by apply Qclt_le_weak.
    + constructor; [exact Hs|]. constructor. by apply Qcle_ngt.
Qed.

Lemma qsort_sorted (l : list Qc) : Sorted Qcle (qsort l).
Proof.
  induction l as [|x l IH]; [constructor|]. by apply qinsert_sorted.
Qed.

(** The ascending arrangement of a list of rationals is unique. *)
Lemma sorted_is_qsort (l s : list Qc) :
  s ≡ₚ l → Sorted Qcle s → s = qsort l.
Proof.
  intros Hp Hs. apply (Sorted_unique Qcle); [exact Hs|apply qsort_sorted|].
  by rewrite qsort_perm.
Qed.

(** ** Sums and means of rationals *)

Lemma reduce_add_fin (l : list Qc) (s : Qc) :
  reduce (λ a b, a + b)%js (Fin s) (Fin <$> l) = Fin (s + Qcsum l).
Proof.
  unfold reduce. revert s. induction l as [|x l IH]; intros s.
  - simpl. f_equal. unfold Qcsum. simpl. ring.
  - rewrite fmap_cons. cbn [fold_left js_add]. rewrite IH. f_equal.
    unfold Qcsum. simpl. ring.
Qed.

Lemma reduce_sum_fin (l : list Qc) :
  reduce (λ a b, a + b)%js (num 0) (Fin <$> l) = Fin (Qcsum l).
Proof.
  unfold num. rewrite reduce_add_fin. f_equal.
  change (Q2Qc (inject_Z 0)) with 0. ring.
Qed.

Lemma js_div_of_nat (a : Qc) (n : nat) :
  (0 < n)%nat → (Fin a / of_nat n)%js = Fin (a / Qc_of_nat n).
Proof.
  intros H. unfold of_nat, num, js_div.
  case_decide as E; [|reflexivity]. by apply of_nat_neq_0 in E.
Qed.

(** ** Slices *)

Lemma slice_prefix (xs : list jsval) (k : Z) :
  (0 <= k <= Z.of_nat (length xs))%Z → slice xs 0 k = take (Z.to_nat k) xs.
Proof.
  intros Hk. unfold slice, rel_index.
  replace (0 <? 0)%Z with false by reflexivity.
  replace (k <? 0)%Z with false by (symmetry; apply Z.ltb_ge; lia).
  rewrite Z.min_l by lia. rewrite Z.min_l by lia.
  change (Z.to_nat 0) with 0%nat. rewrite drop_0. f_equal. lia.
Qed.

(** ** Maximum drawdown *)

Lemma Qdiv_le_div (a b c d : Q) :
  (0 < b → 0 < d → a * d <= c * b → a / b <= c / d)%Q.
Proof.
  intros Hb Hd H. apply Qle_shift_div_r; [exact Hb|].
  assert (E : (c / d * b == c * b / d)%Q) by (field; lra).
  rewrite E. by apply Qle_shift_div_l.
Qed.

(** A drawdown to a fixed positive price grows with the peak. *)
Lemma drawdown_mono (a m p : Qc) :
  0 < a → a <= m → 0 < p → (a - p) / a <= (m - p) / m.
Proof.
  intros Ha Ham Hp. qc_unfold.
  change (Qred 0) with 0%Q in *.
  apply Qdiv_le_div; [lra|lra|nra].
Qed.

Lemma drawdown_nonneg (m p : Qc) : 0 < m → p <= m → 0 <= (m - p) / m.
Proof.
  intros Hm Hp. qc_unfold. change (Qred 0) with 0%Q in *.
  apply Qle_shift_div_l; [exact Hm|]. lra.
Qed.

Lemma nth_Forall_pos (prices : list Qc) (i : nat) :
  Forall (λ p, 0 < p) prices → (i < length prices)%nat → 0 < nth i prices 0.
Proof.
  intros HF Hi. rewrite Forall_forall in HF. apply HF.
  apply list_elem_of_In, nth_In, Hi.
Qed.

(** One iteration of the loop of [calculateMaxDrawdown] keeps the running
    maximum and the maximum drawdown of the prices seen so far. *)
Lemma max_drawdown_step (prices : list Qc) (i : nat) (m d : Qc) :
  Forall (λ p, 0 < p) prices → (1 <= i < length prices)%nat →
  is_running_max prices i m → is_max_drawdown prices i d →
  let p := nth i prices 0 in
  let m' := if bool_decide (m < p) then p else m in
  let x := (m' - p) / m' in
  let d' := if bool_decide (d < x) then x else d in
  is_running_max prices (S i) m' ∧ is_max_drawdown prices (S i) d'.
Proof.
  intros Hpos Hi ((im & Him & Hm) & Hmub) (Hd0 & Hdub & Hdat) p m' x d'.
  assert (Hp : 0 < p) by (apply nth_Forall_pos; [done|lia]).
  assert (Hmpos : 0 < m) by (subst m; apply nth_Forall_pos; [done|lia]).
  assert (Hm' : is_running_max prices (S i) m').
  { unfold m'. case_bool_decide as Hlt; split.
    - exists i. split; [lia|done].
    - intros k Hk. destruct (decide (k = i)) as [->|]; [apply Qcle_refl|].
      etrans; [apply Hmub; lia|by apply Qclt_le_weak].
    - exists im. split; [lia|done].
    - intros k Hk. destruct (decide (k = i)) as [->|]; [by apply Qcle_ngt|].
      apply Hmub. lia. }
  split; [exact Hm'|].
  assert (Hm'pos : 0 < m').
  { unfold m'. by case_bool_decide. }
  assert (Hpm' : p <= m') by (apply Hm'; lia).
  assert (Hx0 : 0 <= x) by (by apply drawdown_nonneg).
  assert (Hnew : ∀ k, (k < i)%nat → drawdown_between prices k i <= x).
  { intros k Hk. unfold drawdown_between. fold p. unfold x.
    apply drawdown_mono; [apply nth_Forall_pos; [done|lia]| |done].
    apply Hm'. lia. }
  assert (Hxat : x = 0 ∨ ∃ a b, (a < b < S i)%nat ∧ x = drawdown_between prices a b).
  { unfold x, m'. case_bool_decide as Hlt.
    - left. unfold Qcminus. rewrite Qcplus_opp_r. unfold Qcdiv. ring.
    - right. exists im, i. split; [lia|]. unfold drawdown_between. by rewrite <- Hm. }
  unfold d'. case_bool_decide as Hlt.
  - split; [exact Hx0|]. split; [|exact Hxat].
    intros a b Hab. destruct (decide (b = i)) as [->|]; [apply Hnew; lia|].
    etrans; [apply Hdub; lia|by apply Qclt_le_weak].
  - apply Qcle_ngt in Hlt. split; [exact Hd0|]. split.
    + intros a b Hab. destruct (decide (b = i)) as [->|]; [|apply Hdub; lia].
      etrans; [apply Hnew; lia|done].
    + destruct Hdat as [?|(a & b & Hab & ?)]; [by left|right].
      exists a, b. split; [lia|done].
Qed.

Lemma js_div_fin (a b : Qc) : b ≠ 0 → (Fin a / Fin b)%js = Fin (a / b).
Proof. intros H. unfold js_div. by case_decide. Qed.

Lemma Qclt_neq_0 (a : Qc) : 0 < a → a ≠ 0.
Proof. intros H ->. by apply Qclt_not_eq in H. Qed.

(** ** Correlation *)

Lemma for_loop_ext {St} (lo hi : nat) (f g : nat → St → St) (s : St) :
  (∀ i s, (lo <= i < hi)%nat → f i s = g i s) →
  for_loop lo hi f s = for_loop lo hi g s.
Proof.
  intros H. destruct (decide (lo <= hi)%nat) as [Hle|]; [|by rewrite !for_loop_ge by lia].
  induction hi as [|hi IH].
  - by rewrite !for_loop_ge by lia.
  - destruct (decide (lo = S hi)) as [->|]; [by rewrite !for_loop_ge by lia|].
    rewrite !for_loop_S by lia. rewrite IH; [apply H; lia|intros; apply H; lia|lia].
Qed.

(** Two loops over the same range whose states start related and stay
    related end related. *)
Lemma for_loop_rel {St T} (R : St → T → Prop) (lo hi : nat)
  (f : nat → St → St) (g : nat → T → T) (s : St) (t : T) :
  R s t →
  (∀ i s t, (lo <= i < hi)%nat → R s t → R (f i s) (g i t)) →
  R (for_loop lo hi f s) (for_loop lo hi g t).
Proof.
  intros H0 H. destruct (decide (lo <= hi)%nat) as [Hle|]; [|by rewrite !for_loop_ge by lia].
  induction hi as [|hi IH].
  - by rewrite !for_loop_ge by lia.
  - destruct (decide (lo = S hi)) as [->|]; [by rewrite !for_loop_ge by lia|].
    rewrite !for_loop_S by lia. apply H; [lia|]. apply IH; [|lia].
    intros. apply H; [lia|done].
Qed.

(** A loop that pushes one value per iteration builds the array of these
    values. *)
Lemma for_loop_push {A} (lo hi : nat) (f : nat → A) (acc : list A) :
  for_loop lo hi (λ i acc, acc ++ [f i]) acc = acc ++ (f <$> seq lo (hi - lo)).
Proof.
  unfold for_loop. generalize (seq lo (hi - lo)). intros l. revert acc.
  induction l as [|i l IH]; intros acc; simpl.
  - by rewrite app_nil_r.
  - rewrite IH. by rewrite <- app_assoc.
Qed.

Section Correlation.

Variable Math_sqrt : jsval → jsval.

(** The correlation of two price arrays does not depend on their order. *)
Lemma calculateCorrelation_comm (prices1 prices2 : list jsval) :
  calculateCorrelation Math_sqrt prices1 prices2
  = calculateCorrelation Math_sqrt prices2 prices1.
Proof.
  unfold calculateCorrelation.
  case_decide as H1; case_decide as H2; try reflexivity; try (exfalso; lia).
  assert (Hlen : length prices1 = length prices2) by lia.
  set (returns1 := imap _ (slice prices1 _ _)).
  set (returns2 := imap _ (slice prices2 _ _)).
  assert (Hr : length returns1 = length returns2).
  { unfold returns1, returns2, slice. rewrite !length_imap, !length_take, !length_drop.
    by rewrite Hlen. }
  set (mean1 := (reduce _ _ returns1 / _)%js).
  set (mean2 := (reduce _ _ returns2 / _)%js).
  rewrite <- Hr.
  set (body12 := λ (i : nat) '(numerator, sumSq1, sumSq2), _).
  set (body21 := λ (i : nat) '(numerator, sumSq1, sumSq2), _).
  assert (HR : ∀ a b, a = for_loop 0 (length returns1) body12 (num 0, num 0, num 0) →
                b = for_loop 0 (length returns1) body21 (num 0, num 0, num 0) →
                a.1.1 = b.1.1 ∧ a.1.2 = b.2 ∧ a.2 = b.1.2).
  { intros a b -> ->.
    apply (for_loop_rel (λ a b : jsval * jsval * jsval,
              a.1.1 = b.1.1 ∧ a.1.2 = b.2 ∧ a.2 = b.1.2)); [done|].
    intros i [[n1 s1] s2] [[n2 t1] t2] _ (E1 & E2 & E3). simpl in *. subst.
    split; [|done]. f_equal. apply js_mul_comm. }
  destruct (for_loop 0 _ body12 _) as [[n1 s1] s2].
  destruct (for_loop 0 _ body21 _) as [[n2 t1] t2].
  destruct (HR _ _ eq_refl eq_refl) as (E1 & E2 & E3). simpl in *. subst.
  by rewrite (js_mul_comm t2 t1).
Qed.

Lemma calculateCorrelationMatrix_rows (priceData : object) :
  let n := length (Object_keys priceData) in
  matrix (calculateCorrelationMatrix Math_sqrt priceData)
  = (λ i, matrix_entry Math_sqrt priceData i <$> seq 0 n) <$> seq 0 n.
Proof.
  intros n. unfold calculateCorrelationMatrix. cbn [matrix]. fold n.
  trans (for_loop 0 n
           (λ i acc, acc ++ [matrix_entry Math_sqrt priceData i <$> seq 0 n]) []).
  - apply for_loop_ext. intros i acc _. f_equal. f_equal.
    trans (for_loop 0 n (λ j row, row ++ [matrix_entry Math_sqrt priceData i j]) []).
    + apply for_loop_ext. intros j row _. unfold matrix_entry. by case_decide.
    + rewrite for_loop_push. by rewrite Nat.sub_0_r.
  - rewrite for_loop_push. by rewrite Nat.sub_0_r.
Qed.

Lemma matrix_at_entry (priceData : object) (i j : nat) :
  let n := length (Object_keys priceData) in
  (i < n)%nat → (j < n)%nat →
  matrix_at (matrix (calculateCorrelationMatrix Math_sqrt priceData)) i j
  = matrix_entry Math_sqrt priceData i j.
Proof.
  intros n Hi Hj. rewrite calculateCorrelationMatrix_rows. fold n.
  unfold matrix_at, arr_at.
  rewrite list_lookup_fmap, lookup_seq_lt by done. simpl.
  rewrite list_lookup_fmap, lookup_seq_lt by done. reflexivity.
Qed.

(** An own key of an object reads its property. *)
Lemma obj_get_own_key (priceData : object) (i : nat) :
  (i < length (Object_keys priceData))%nat →
  is_Some (obj_get priceData (Object_keys priceData !!! i)).
Proof.
  unfold Object_keys. revert i. induction priceData as [|[k v] o IH]; intros i Hi.
  - simpl in Hi. lia.
  - rewrite fmap_cons in *. simpl. case_decide; [by eexists|].
    destruct i as [|i]; [done|]. simpl. apply IH. simpl in Hi. lia.
Qed.

(** C8: the matrix of [calculateCorrelationMatrix] is square of dimension
    the number of symbols, has [1] on its diagonal and is symmetric, the
    correlation of two arrays being the same in either order. *)
Theorem calculateCorrelationMatrix_symmetric (priceData : object) :
  let r := calculateCorrelationMatrix Math_sqrt priceData in
  let n := length (Object_keys priceData) in
  symbols r = Object_keys priceData ∧
  length (matrix r) = n ∧
  Forall (λ row, length row = n) (matrix r) ∧
  (∀ i, (i < n)%nat → matrix_at (matrix r) i i = num 1) ∧
  (∀ i j, (i < n)%nat → (j < n)%nat →
     matrix_at (matrix r) i j = matrix_at (matrix r) j i) ∧
  (∀ p q : list jsval,
     calculateCorrelation Math_sqrt p q = calculateCorrelation Math_sqrt q p).
Proof.
  intros r n. split; [reflexivity|].
  unfold r. rewrite calculateCorrelationMatrix_rows. fold n.
  split; [by rewrite length_fmap, length_seq|]. split.
  { apply Forall_fmap, Forall_forall. intros i _. simpl.
    by rewrite length_fmap, length_seq. }
  rewrite <- calculateCorrelationMatrix_rows.
  split; [|split].
  - intros i Hi. rewrite matrix_at_entry by done.
    unfold matrix_entry. by case_decide.
  - intros i j Hi Hj. rewrite !matrix_at_entry by done.
    unfold matrix_entry. repeat case_decide; try reflexivity; try lia.
    apply calculateCorrelation_comm.
  - apply calculateCorrelation_comm.
Qed.

End Correlation.

(** ** EMA and MACD *)

Lemma calculateEMA_spec (prices : list jsval) (period : nat) :
  prices ≠ [] →
  length (calculateEMA prices period) = length prices ∧
  is_ema period prices (calculateEMA prices period).
Proof.
  intros Hne.
  assert (Hn : (1 <= length prices)%nat) by (destruct prices; [done|simpl; lia]).
  unfold calculateEMA. fold (ema_multiplier period).
  set (a := ema_multiplier period).
  assert (HI : ∀ k, (1 <= k <= length prices)%nat →
    let e := for_loop 1 k
      (λ i ema, ema ++ [(arr_at prices i * a + arr_at ema (i - 1) * (num 1 - a))%js])
      [arr_at prices 0] in
    length e = k ∧ arr_at e 0 = arr_at prices 0 ∧
    ∀ i, (1 <= i < k)%nat →
      arr_at e i = (a * arr_at prices i + (num 1 - a) * arr_at e (i - 1))%js).
  { intros k Hk.
    apply (for_loop_ind (λ k e, length e = k ∧ arr_at e 0 = arr_at prices 0 ∧
      ∀ i, (1 <= i < k)%nat →
        arr_at e i = (a * arr_at prices i + (num 1 - a) * arr_at e (i - 1))%js));
      [lia| |].
    - split; [reflexivity|]. split; [reflexivity|]. intros i Hi. lia.
    - intros i e Hi (Hlen & H0 & Hrec). split; [|split].
      + rewrite length_app. simpl. lia.
      + rewrite arr_at_app_l by lia. exact H0.
      + intros j Hj. destruct (decide (j = i)) as [->|Hne'].
        * rewrite arr_at_snoc_eq by done.
          rewrite arr_at_app_l by lia.
          by rewrite (js_mul_comm a), (js_mul_comm (num 1 - a)%js).
        * rewrite !arr_at_app_l by lia. apply Hrec. lia. }
  destruct (HI (length prices) ltac:(lia)) as (Hlen & H0 & Hrec).
  split; [exact Hlen|]. split; [exact H0|exact Hrec].
Qed.

Lemma arr_at_imap (f : nat → jsval → jsval) (l : list jsval) (i : nat) :
  (i < length l)%nat → arr_at (imap f l) i = f i (arr_at l i).
Proof.
  intros H. unfold arr_at. rewrite list_lookup_imap.
  destruct (lookup_lt_is_Some_2 l i H) as [x ->]. reflexivity.
Qed.

(** C7: for [n >= slowPeriod] (a period of at least one), [calculateMACD]
    returns three arrays of length [n]; [macd] is the difference of the fast
    and the slow EMA of the prices, [histogram] the difference of [macd] and
    [signal], and the three EMAs (fast, slow, and [signal] over [macd]) start
    at the first value and follow
    [ema[i] = a * x[i] + (1 - a) * ema[i-1]] with [a = 2 / (period + 1)];
    for [n < slowPeriod] the three arrays are empty. *)
Theorem calculateMACD_spec (prices : list jsval)
  (fastPeriod slowPeriod signalPeriod : nat) :
  (1 <= slowPeriod)%nat →
  let n := length prices in
  let r := calculateMACD prices fastPeriod slowPeriod signalPeriod in
  let emaFast := calculateEMA prices fastPeriod in
  let emaSlow := calculateEMA prices slowPeriod in
  ((slowPeriod <= n)%nat →
     length (macd r) = n ∧ length (signal r) = n ∧ length (histogram r) = n ∧
     (∀ i, (i < n)%nat →
        arr_at (macd r) i = (arr_at emaFast i - arr_at emaSlow i)%js ∧
        arr_at (histogram r) i
        = (arr_at (macd r) i - arr_at (signal r) i)%js) ∧
     is_ema fastPeriod prices emaFast ∧
     is_ema slowPeriod prices emaSlow ∧
     is_ema signalPeriod (macd r) (signal r)) ∧
  ((n < slowPeriod)%nat →
     r = {| macd := []; signal := []; histogram := [] |}).
Proof.
  intros Hslow n r emaFast emaSlow. split.
  - intros Hn.
    assert (Hne : prices ≠ []) by (intros ->; simpl in *; lia).
    destruct (calculateEMA_spec prices fastPeriod Hne) as [HlenF HF].
    destruct (calculateEMA_spec prices slowPeriod Hne) as [HlenS HS].
    fold emaFast in HlenF, HF. fold emaSlow in HlenS, HS. fold n in HlenF, HlenS.
    unfold r, calculateMACD. case_decide; [lia|]. cbn [macd signal histogram].
    fold emaFast emaSlow.
    set (m := imap (λ i fast, fast - arr_at emaSlow i)%js emaFast).
    assert (Hlenm : length m = n) by (unfold m; by rewrite length_imap).
    assert (Hm : m ≠ []) by (intros E; rewrite E in Hlenm; simpl in *; lia).
    destruct (calculateEMA_spec m signalPeriod Hm) as [HlenG HG].
    split; [exact Hlenm|]. split; [lia|].
    split; [by rewrite length_imap|]. split; [|done].
    intros i Hi. split.
    + unfold m. by rewrite arr_at_imap by lia.
    + by rewrite arr_at_imap by lia.
  - intros Hn. unfold r, calculateMACD. by case_decide; [|lia].
Qed.

(** ** Bollinger Bands *)

Lemma fold_left_push3 {A B} (f g h : B → A) (l : list B) (a b c : list A) :
  fold_left (λ '(a, b, c) i, (a ++ [f i], b ++ [g i], c ++ [h i])) l (a, b, c)
  = (a ++ (f <$> l), b ++ (g <$> l), c ++ (h <$> l)).
Proof.
  revert a b c. induction l as [|i l IH]; intros a b c; simpl.
  - by rewrite !app_nil_r.
  - rewrite IH. by rewrite <- !app_assoc.
Qed.

Lemma slice_range (xs : list jsval) (a b : Z) :
  (0 <= a <= b)%Z → (b <= Z.of_nat (length xs))%Z →
  slice xs a b = take (Z.to_nat (b - a)) (drop (Z.to_nat a) xs).
Proof.
  intros Hab Hb. unfold slice, rel_index.
  replace (a <? 0)%Z with false by (symmetry; apply Z.ltb_ge; lia).
  replace (b <? 0)%Z with false by (symmetry; apply Z.ltb_ge; lia).
  rewrite !Z.min_l by lia. f_equal. lia.
Qed.

Lemma Qcsum_nonneg (l : list Qc) : Forall (λ x, 0 <= x) l → 0 <= Qcsum l.
Proof.
  induction 1 as [|x l Hx _ IH]; [apply Qcle_refl|].
  unfold Qcsum in *. simpl. by apply Qcplus_nonneg_nonneg.
Qed.

Section BollingerBands.

Variable Math_sqrt : jsval → jsval.

Lemma calculateBollingerBands_unfold (prices : list jsval) (period : nat)
  (stdDev : jsval) :
  (period <= length prices)%nat →
  let sd := default_arg stdDev (num 2) in
  let idx := seqZ (Z.of_nat period - 1)
               (Z.of_nat (length prices) - (Z.of_nat period - 1)) in
  calculateBollingerBands Math_sqrt prices period stdDev
  = {| upper := (λ i, bb_mean prices period i + bb_std Math_sqrt prices period i * sd)%js <$> idx;
       middle := bb_mean prices period <$> idx;
       lower := (λ i, bb_mean prices period i - bb_std Math_sqrt prices period i * sd)%js <$> idx |}.
Proof.
  intros Hn sd idx. unfold calculateBollingerBands. fold sd.
  case_decide; [lia|]. fold idx.
  rewrite (fold_left_push3 (bb_mean prices period)
             (λ i, bb_mean prices period i + bb_std Math_sqrt prices period i * sd)%js
             (λ i, bb_mean prices period i - bb_std Math_sqrt prices period i * sd)%js).
  reflexivity.
Qed.

End BollingerBands.

(** ** RSI *)

Lemma for_loop_push2 {A} (lo hi : nat) (f g : nat → A) (a b : list A) :
  for_loop lo hi (λ i '(a, b), (a ++ [f i], b ++ [g i])) (a, b)
  = (a ++ (f <$> seq lo (hi - lo)), b ++ (g <$> seq lo (hi - lo))).
Proof.
  unfold for_loop. generalize (seq lo (hi - lo)). intros l. revert a b.
  induction l as [|i l IH]; intros a b; simpl.
  - by rewrite !app_nil_r.
  - rewrite IH. by rewrite <- !app_assoc.
Qed.

Lemma calculateRSI_unfold (prices : list jsval) (period : nat) :
  (period + 1 <= length prices)%nat →
  let gains := rsi_gain prices <$> seq 1 (length prices - 1) in
  let losses := rsi_loss prices <$> seq 1 (length prices - 1) in
  calculateRSI prices period
  = (for_loop period (length prices - 1)
       (λ i '(avgGain, avgLoss, rsi),
          let avgGain := rsi_smooth period avgGain (arr_at gains i) in
          let avgLoss := rsi_smooth period avgLoss (arr_at losses i) in
          (avgGain, avgLoss, rsi ++ [rsi_value avgGain avgLoss]))
       (rsi_start period gains, rsi_start period losses, [])).2.
Proof.
  intros Hn gains losses. unfold calculateRSI. case_decide; [lia|].
  rewrite (for_loop_push2 1 (length prices) (rsi_gain prices) (rsi_loss prices)).
  cbn [app]. fold gains losses.
  replace (length gains) with (length prices - 1)%nat
    by (unfold gains; by rewrite length_fmap, length_seq).
  fold (rsi_start period gains) (rsi_start period losses).
  by destruct (for_loop period _ _ _) as [[? ?] ?].
Qed.

(** The invariant rule of the main loop of [calculateRSI]: [Inv] relates the
    two running averages, [P k] holds of the [k]-th value pushed. *)
Lemma rsi_loop_spec (Inv : nat → jsval → jsval → Prop) (P : nat → jsval → Prop)
  (period hi : nat) (gains losses : list jsval) (g0 l0 : jsval) :
  (period <= hi)%nat →
  Inv period g0 l0 →
  (∀ i g l, (period <= i < hi)%nat → Inv i g l →
     let g' := rsi_smooth period g (arr_at gains i) in
     let l' := rsi_smooth period l (arr_at losses i) in
     Inv (S i) g' l' ∧ P (i - period)%nat (rsi_value g' l')) →
  let rsi :=
    (for_loop period hi
       (λ i '(avgGain, avgLoss, rsi),
          let avgGain := rsi_smooth period avgGain (arr_at gains i) in
          let avgLoss := rsi_smooth period avgLoss (arr_at losses i) in
          (avgGain, avgLoss, rsi ++ [rsi_value avgGain avgLoss]))
       (g0, l0, [])).2 in
  length rsi = (hi - period)%nat ∧
  ∀ k, (k < hi - period)%nat → P k (arr_at rsi k).
Proof.
  intros Hle H0 Hstep. cbn zeta.
  set (body := λ (i : nat) '(avgGain, avgLoss, rsi), _).
  assert (HI : ∃ g l rsi, for_loop period hi body (g0, l0, []) = (g, l, rsi) ∧
    Inv hi g l ∧ length rsi = (hi - period)%nat ∧
    ∀ k, (k < hi - period)%nat → P k (arr_at rsi k)).
  { apply (for_loop_ind (λ i (s : jsval * jsval * list jsval),
      ∃ g l rsi, s = (g, l, rsi) ∧ Inv i g l ∧ length rsi = (i - period)%nat ∧
        ∀ k, (k < i - period)%nat → P k (arr_at rsi k))); [done| |].
    - exists g0, l0, []. split; [done|]. split; [done|]. split; [simpl; lia|].
      intros k Hk. lia.
    - intros i s Hi (g & l & rsi & -> & HInv & Hlen & HP).
      destruct (Hstep i g l Hi HInv) as [HInv' HP'].
      eexists _, _, _. split; [reflexivity|]. split; [exact HInv'|]. split.
      + rewrite length_app. simpl. lia.
      + intros k Hk. destruct (decide (k = i - period)%nat) as [->|].
        * by rewrite arr_at_snoc_eq.
        * rewrite arr_at_app_l by lia. apply HP. lia. }
  destruct HI as (g & l & rsi & -> & _ & Hlen & HP). by split.
Qed.

(** The number of values of [calculateRSI], for any prices and period. *)
Lemma calculateRSI_length (prices : list jsval) (period : nat) :
  ((period + 1 <= length prices)%nat →
     length (calculateRSI prices period) = (length prices - period - 1)%nat) ∧
  ((length prices < period + 1)%nat → calculateRSI prices period = []).
Proof.
  split; intros Hn.
  - rewrite calculateRSI_unfold by done. cbn zeta.
    destruct (rsi_loop_spec (λ _ _ _, True) (λ _ _, True) period
                (length prices - 1)
                (rsi_gain prices <$> seq 1 (length prices - 1))
                (rsi_loss prices <$> seq 1 (length prices - 1))
                (rsi_start period (rsi_gain prices <$> seq 1 (length prices - 1)))
                (rsi_start period (rsi_loss prices <$> seq 1 (length prices - 1))))
      as [Hlen _]; [lia|done|done|].
    cbn zeta in Hlen. rewrite Hlen. lia.
  - unfold calculateRSI. by case_decide; [|lia].
Qed.

(** *** The values of the RSI on finite prices *)

Lemma rsi_change_fin (prices : list Qc) (i : nat) :
  (1 <= i < length prices)%nat →
  rsi_change (Fin <$> prices) i = Fin (qchange prices i).
Proof.
  intros Hi. unfold rsi_change. by rewrite !arr_at_fmap_Fin by lia.
Qed.

Lemma rsi_gain_fin (prices : list Qc) (i : nat) :
  (1 <= i < length prices)%nat →
  rsi_gain (Fin <$> prices) i = Fin (qgain prices i).
Proof.
  intros Hi. unfold rsi_gain, qgain. rewrite rsi_change_fin by done.
  cbn [js_gt js_lt num]. change (Q2Qc (inject_Z 0)) with 0.
  by destruct (bool_decide (0 < qchange prices i)).
Qed.

Lemma rsi_loss_fin (prices : list Qc) (i : nat) :
  (1 <= i < length prices)%nat →
  rsi_loss (Fin <$> prices) i = Fin (qloss prices i).
Proof.
  intros Hi. unfold rsi_loss, qloss. rewrite rsi_change_fin by done.
  cbn [js_lt num Math_abs]. change (Q2Qc (inject_Z 0)) with 0.
  by destruct (bool_decide (qchange prices i < 0)).
Qed.

Lemma qgain_nonneg (prices : list Qc) (i : nat) : 0 <= qgain prices i.
Proof.
  unfold qgain. case_bool_decide; [by apply Qclt_le_weak|apply Qcle_refl].
Qed.

Lemma qloss_nonneg (prices : list Qc) (i : nat) : 0 <= qloss prices i.
Proof. unfold qloss. case_bool_decide; [apply Qcabs_nonneg|apply Qcle_refl]. Qed.

Lemma qgain_qloss_zero (prices : list Qc) (i : nat) :
  qchange prices i = 0 → qgain prices i = 0 ∧ qloss prices i = 0.
Proof.
  intros E. unfold qgain, qloss. rewrite E.
  split; by rewrite bool_decide_eq_false_2 by (by vm_compute).
Qed.

Lemma qgain_qloss_pos (prices : list Qc) (i : nat) :
  qchange prices i ≠ 0 → 0 < qgain prices i ∨ 0 < qloss prices i.
Proof.
  intros Hne. unfold qgain, qloss, Qcabs.
  destruct (Qclt_le_dec 0 (qchange prices i)) as [H|H].
  - left. by rewrite bool_decide_eq_true_2.
  - right. assert (Hlt : qchange prices i < 0).
    { apply Qcle_lt_or_eq in H as [H|H]; [done|]. by destruct Hne. }
    rewrite !bool_decide_eq_true_2 by done. qc_lra.
Qed.

Lemma Qcminus_eq_0 (a b : Qc) : a - b = 0 → a = b.
Proof. intros H. replace a with ((a - b) + b) by ring. rewrite H. ring. Qed.

Lemma flat_upto_change (prices : list Qc) (i j : nat) :
  flat_upto prices i → (1 <= j <= i)%nat → qchange prices j = 0.
Proof.
  intros Hf Hj. unfold qchange. rewrite (Hf j), (Hf (j - 1)%nat) by lia.
  unfold Qcminus. apply Qcplus_opp_r.
Qed.

Lemma flat_or_change (prices : list Qc) (i : nat) :
  flat_upto prices i ∨ ∃ j, (1 <= j <= i)%nat ∧ qchange prices j ≠ 0.
Proof.
  induction i as [|i [IH|(j & Hj & Hne)]].
  - left. intros j Hj. by replace j with 0%nat by lia.
  - destruct (decide (nth (S i) prices 0 = nth 0 prices 0)) as [E|Hne].
    + left. intros j Hj. destruct (decide (j = S i)) as [->|]; [done|].
      apply IH. lia.
    + right. exists (S i). split; [lia|]. unfold qchange.
      replace (S i - 1)%nat with i by lia. rewrite (IH i) by lia.
      intros E. apply Hne. by apply Qcminus_eq_0.
  - right. exists j. split; [lia|done].
Qed.

Lemma flat_upto_S (prices : list Qc) (i : nat) :
  flat_upto prices (S i) → flat_upto prices i.
Proof. intros H j Hj. apply H. lia. Qed.

Lemma Qcsum_zero (l : list Qc) : Forall (λ x, x = 0) l → Qcsum l = 0.
Proof.
  induction 1 as [|x l -> _ IH]; [reflexivity|].
  unfold Qcsum in *. simpl. rewrite IH. ring.
Qed.

Lemma Qcsum_pos (l : list Qc) :
  Forall (λ x, 0 <= x) l → Exists (λ x, 0 < x) l → 0 < Qcsum l.
Proof.
  induction 1 as [|x l Hx Hl IH]; intros HE; [by apply Exists_nil in HE|].
  unfold Qcsum in *. simpl. apply Exists_cons in HE as [H|H].
  - apply Qcplus_pos_nonneg; [done|]. by apply Qcsum_nonneg.
  - apply Qcplus_nonneg_pos; [done|]. by apply IH.
Qed.

Lemma Qc_of_nat_ge_1 (p : nat) : (1 <= p)%nat → (1 <= inject_Z (Z.of_nat p))%Q.
Proof. intros H. change 1%Q with (inject_Z 1). rewrite <- Zle_Qle. lia. Qed.

Lemma Qc_of_nat_ge_2 (p : nat) : (2 <= p)%nat → (2 <= inject_Z (Z.of_nat p))%Q.
Proof. intros H. change 2%Q with (inject_Z 2). rewrite <- Zle_Qle. lia. Qed.

Lemma rsi_smooth_fin (p : nat) (g x : Qc) :
  (1 <= p)%nat → rsi_smooth p (Fin g) (Fin x) = Fin (qsmooth p g x).
Proof.
  intros Hp. unfold rsi_smooth.
  change (of_nat p - num 1)%js with (Fin (Qc_of_nat p - 1)).
  cbn [js_mul js_add]. by rewrite js_div_of_nat by lia.
Qed.

Lemma qsmooth_nonneg (p : nat) (g x : Qc) :
  (1 <= p)%nat → 0 <= g → 0 <= x → 0 <= qsmooth p g x.
Proof.
  intros Hp Hg Hx. pose proof (Qc_of_nat_ge_1 p Hp).
  unfold qsmooth, Qc_of_nat. qc_unfold. change (Qred 0) with 0%Q in *.
  change (Qred 1) with 1%Q. apply Qle_shift_div_l; [lra|]. nra.
Qed.

Lemma qsmooth_zero (p : nat) : (1 <= p)%nat → qsmooth p 0 0 = 0.
Proof.
  intros Hp. unfold qsmooth. rewrite Qcmult_0_l, Qcplus_0_l.
  unfold Qcdiv. apply Qcmult_0_l.
Qed.

Lemma qsmooth_pos_new (p : nat) (g x : Qc) :
  (1 <= p)%nat → 0 <= g → 0 < x → 0 < qsmooth p g x.
Proof.
  intros Hp Hg Hx. pose proof (Qc_of_nat_ge_1 p Hp).
  unfold qsmooth, Qc_of_nat. qc_unfold. change (Qred 0) with 0%Q in *.
  change (Qred 1) with 1%Q. apply Qlt_shift_div_l; [lra|]. nra.
Qed.

Lemma qsmooth_pos_old (p : nat) (g x : Qc) :
  (2 <= p)%nat → 0 < g → 0 <= x → 0 < qsmooth p g x.
Proof.
  intros Hp Hg Hx. pose proof (Qc_of_nat_ge_2 p Hp).
  unfold qsmooth, Qc_of_nat. qc_unfold. change (Qred 0) with 0%Q in *.
  change (Qred 1) with 1%Q. apply Qlt_shift_div_l; [lra|]. nra.
Qed.

Lemma rsi_value_nan : rsi_value (Fin 0) (Fin 0) = NaN.
Proof. reflexivity. Qed.

Lemma rsi_value_in_range (g l : Qc) :
  0 <= g → 0 <= l → 0 < g ∨ 0 < l → rsi_in_range (rsi_value (Fin g) (Fin l)).
Proof.
  intros Hg Hl Hpos. unfold rsi_value.
  destruct (decide (l = 0)) as [->|Hne].
  - assert (Hg' : 0 < g).
    { destruct Hpos as [?|H]; [done|]. by apply Qclt_not_eq in H. }
    cbn [js_div]. rewrite decide_True by done. unfold inf_times.
    rewrite decide_False by (by apply Qclt_neq_0).
    rewrite bool_decide_eq_true_2 by done. cbn [js_add num js_div js_sub js_neg].
    eexists. split; [reflexivity|]. split; by vm_compute.
  - assert (Hl' : 0 < l).
    { apply Qcle_lt_or_eq in Hl as [?|E]; [done|]. by destruct Hne. }
    rewrite js_div_fin by done. cbn [js_add num].
    assert (Ht : 0 <= g / l).
    { qc_unfold. change (Qred 0) with 0%Q in *. apply Qle_shift_div_l; [done|lra]. }
    assert (Hu : 0 < Q2Qc (inject_Z 1) + g / l).
    { apply Qcplus_pos_nonneg; [by vm_compute|done]. }
    unfold num. rewrite js_div_fin by (by apply Qclt_neq_0).
    cbn [js_sub js_neg js_add]. eexists. split; [reflexivity|].
    set (u := Q2Qc (inject_Z 1) + g / l) in *.
    assert (Hu1 : Q2Qc (inject_Z 1) <= u).
    { unfold u. rewrite <- (Qcplus_0_r (Q2Qc (inject_Z 1))) at 1.
      by apply Qcplus_le_mono_l. }
    clearbody u.
    assert (Hq : 0 <= Q2Qc (inject_Z 100) / u ∧ Q2Qc (inject_Z 100) / u <= Q2Qc (inject_Z 100)).
    { qc_unfold. change (Qred 0) with 0%Q in *.
      change (inject_Z 100) with 100%Q. change (inject_Z 1) with 1%Q in *.
      split.
      - apply Qle_shift_div_l; [done|lra].
      - apply Qle_shift_div_r; [done|]. nra. }
    destruct Hq as [Hq1 Hq2]. split; qc_lra.
Qed.

Lemma rsi_start_fin (p : nat) (xs : list Qc) :
  (1 <= p <= length xs)%nat →
  rsi_start p (Fin <$> xs) = Fin (qstart p xs).
Proof.
  intros Hp. unfold rsi_start.
  rewrite slice_prefix by (rewrite length_fmap; lia).
  rewrite Nat2Z.id, <- fmap_take, reduce_sum_fin. by rewrite js_div_of_nat by lia.
Qed.

Lemma qstart_nonneg (p : nat) (xs : list Qc) :
  (1 <= p)%nat → Forall (λ x, 0 <= x) xs → 0 <= qstart p xs.
Proof.
  intros Hp Hxs. pose proof (Qc_of_nat_ge_1 p Hp).
  assert (Hs : 0 <= Qcsum (take p xs)) by (by apply Qcsum_nonneg, Forall_take).
  unfold qstart, Qc_of_nat. qc_unfold. change (Qred 0) with 0%Q in *.
  apply Qle_shift_div_l; [lra|]. lra.
Qed.

Lemma qstart_zero (p : nat) (xs : list Qc) :
  Forall (λ x, x = 0) (take p xs) → qstart p xs = 0.
Proof.
  intros H. unfold qstart. rewrite Qcsum_zero by done.
  unfold Qcdiv. apply Qcmult_0_l.
Qed.

Lemma qstart_pos (p : nat) (xs : list Qc) :
  (1 <= p)%nat → Forall (λ x, 0 <= x) xs → Exists (λ x, 0 < x) (take p xs) →
  0 < qstart p xs.
Proof.
  intros Hp Hxs HE. pose proof (Qc_of_nat_ge_1 p Hp).
  assert (Hs : 0 < Qcsum (take p xs)) by (apply Qcsum_pos; [by apply Forall_take|done]).
  unfold qstart, Qc_of_nat. qc_unfold. change (Qred 0) with 0%Q in *.
  apply Qlt_shift_div_l; [lra|]. lra.
Qed.

Lemma take_fmap_seq {A} (f : nat → A) (p m : nat) :
  (p <= m)%nat → take p (f <$> seq 1 m) = f <$> seq 1 p.
Proof.
  intros H. rewrite <- fmap_take, take_seq. by rewrite Nat.min_l.
Qed.

Lemma arr_at_fmap_seq (f : nat → jsval) (m i : nat) :
  (i < m)%nat → arr_at (f <$> seq 1 m) i = f (S i).
Proof.
  intros H. unfold arr_at. by rewrite list_lookup_fmap, lookup_seq_lt.
Qed.

Lemma rsi_averages_start (prices : list Qc) (period : nat) :
  (1 <= period)%nat → (period + 1 <= length prices)%nat →
  rsi_averages prices period period
    (rsi_start period (rsi_gain (Fin <$> prices) <$> seq 1 (length prices - 1)))
    (rsi_start period (rsi_loss (Fin <$> prices) <$> seq 1 (length prices - 1))).
Proof.
  intros Hp Hn.
  set (G := qgain prices <$> seq 1 (length prices - 1)).
  set (L := qloss prices <$> seq 1 (length prices - 1)).
  assert (EG : rsi_gain (Fin <$> prices) <$> seq 1 (length prices - 1) = Fin <$> G).
  { unfold G. rewrite <- list_fmap_compose. apply list_fmap_ext.
    intros k i Hi. apply lookup_seq in Hi as [-> Hk]. simpl.
    apply rsi_gain_fin. lia. }
  assert (EL : rsi_loss (Fin <$> prices) <$> seq 1 (length prices - 1) = Fin <$> L).
  { unfold L. rewrite <- list_fmap_compose. apply list_fmap_ext.
    intros k i Hi. apply lookup_seq in Hi as [-> Hk]. simpl.
    apply rsi_loss_fin. lia. }
  rewrite EG, EL.
  rewrite !rsi_start_fin by (unfold G, L; rewrite length_fmap, length_seq; lia).
  assert (HG : Forall (λ x, 0 <= x) G).
  { apply Forall_fmap, Forall_forall. intros i _. apply qgain_nonneg. }
  assert (HL : Forall (λ x, 0 <= x) L).
  { apply Forall_fmap, Forall_forall. intros i _. apply qloss_nonneg. }
  assert (TG : take period G = qgain prices <$> seq 1 period)
    by (apply take_fmap_seq; lia).
  assert (TL : take period L = qloss prices <$> seq 1 period)
    by (apply take_fmap_seq; lia).
  exists (qstart period G), (qstart period L).
  split; [done|]. split; [done|].
  split; [by apply qstart_nonneg|]. split; [by apply qstart_nonneg|]. split.
  - intros Hflat. split; apply qstart_zero; rewrite ?TG, ?TL;
      apply Forall_fmap, Forall_forall; intros j Hj;
      apply elem_of_seq in Hj; simpl;
      apply qgain_qloss_zero, (flat_upto_change prices period); (done || lia).
  - intros _ Hnf. destruct (flat_or_change prices period) as [?|(j & Hj & Hne)]; [done|].
    destruct (qgain_qloss_pos prices j Hne) as [H|H]; [left|right];
      apply qstart_pos; try done; rewrite ?TG, ?TL;
      apply Exists_exists; eexists; (split; [|exact H]);
      (apply list_elem_of_fmap; exists j; split; [done|apply elem_of_seq; lia]).
Qed.

Lemma rsi_averages_step (prices : list Qc) (period i : nat) (g l : jsval) :
  (1 <= period)%nat → (period <= i < length prices - 1)%nat →
  rsi_averages prices period i g l →
  let g' := rsi_smooth period g
              (arr_at (rsi_gain (Fin <$> prices) <$> seq 1 (length prices - 1)) i) in
  let l' := rsi_smooth period l
              (arr_at (rsi_loss (Fin <$> prices) <$> seq 1 (length prices - 1)) i) in
  rsi_averages prices period (S i) g' l' ∧
  (rsi_value g' l' = NaN ∨ rsi_in_range (rsi_value g' l')) ∧
  (flat_upto prices (S i) → rsi_value g' l' = NaN) ∧
  (nth (S i) prices 0 ≠ nth i prices 0 → rsi_in_range (rsi_value g' l')) ∧
  ((2 <= period)%nat → ¬ flat_upto prices (S i) → rsi_in_range (rsi_value g' l')).
Proof.
  intros Hp Hi (a & b & -> & -> & Ha & Hb & Hflat & Hnflat) g' l'.
  unfold g', l'. rewrite !arr_at_fmap_seq by lia.
  rewrite rsi_gain_fin, rsi_loss_fin by lia. rewrite !rsi_smooth_fin by done.
  pose proof (qgain_nonneg prices (S i)) as HG.
  pose proof (qloss_nonneg prices (S i)) as HL.
  set (a' := qsmooth period a (qgain prices (S i))).
  set (b' := qsmooth period b (qloss prices (S i))).
  assert (Ha' : 0 <= a') by (by apply qsmooth_nonneg).
  assert (Hb' : 0 <= b') by (by apply qsmooth_nonneg).
  assert (Hz : flat_upto prices (S i) → a' = 0 ∧ b' = 0).
  { intros Hf. destruct (Hflat (flat_upto_S _ _ Hf)) as [-> ->].
    destruct (qgain_qloss_zero prices (S i)) as [EG EL];
      [apply (flat_upto_change prices (S i)); [done|lia]|].
    unfold a', b'. rewrite EG, EL. split; by apply qsmooth_zero. }
  assert (Hnew : qchange prices (S i) ≠ 0 → 0 < a' ∨ 0 < b').
  { intros Hne. destruct (qgain_qloss_pos prices (S i) Hne) as [H|H];
      [left|right]; by apply qsmooth_pos_new. }
  assert (Hnz : (2 <= period)%nat → ¬ flat_upto prices (S i) → 0 < a' ∨ 0 < b').
  { intros Hp2 Hnf. destruct (decide (qchange prices (S i) = 0)) as [E|Hne];
      [|by apply Hnew].
    assert (Hnf' : ¬ flat_upto prices i).
    { intros Hf. apply Hnf. intros j Hj.
      destruct (decide (j = S i)) as [->|]; [|apply Hf; lia].
      apply Qcminus_eq_0 in E. rewrite E.
      replace (S i - 1)%nat with i by lia. apply Hf. lia. }
    destruct (Hnflat Hp2 Hnf') as [H|H]; [left|right]; by apply qsmooth_pos_old. }
  split.
  { exists a', b'. split; [done|]. split; [done|]. split; [exact Ha'|].
    split; [exact Hb'|]. split; [exact Hz|exact Hnz]. }
  assert (Hcases : (a' = 0 ∧ b' = 0) ∨ 0 < a' ∨ 0 < b').
  { destruct (decide (a' = 0)) as [Ea|Na]; destruct (decide (b' = 0)) as [Eb|Nb].
    - by left.
    - right; right. apply Qcle_lt_or_eq in Hb' as [?|E]; [done|]. by destruct Nb.
    - right; left. apply Qcle_lt_or_eq in Ha' as [?|E]; [done|]. by destruct Na.
    - right; left. apply Qcle_lt_or_eq in Ha' as [?|E]; [done|]. by destruct Na. }
  split; [|split; [|split]].
  - destruct Hcases as [[-> ->]|Hpos]; [left; apply rsi_value_nan|right].
    by apply rsi_value_in_range.
  - intros Hf. destruct (Hz Hf) as [-> ->]. apply rsi_value_nan.
  - intros Hne. apply rsi_value_in_range; [done|done|]. apply Hnew.
    unfold qchange. replace (S i - 1)%nat with i by lia.
    intros E. by apply Qcminus_eq_0 in E.
  - intros Hp2 Hnf. apply rsi_value_in_range; [done|done|]. by apply Hnz.
Qed.

(** The values of the RSI of finite prices, for a period of at least one:
    each is [NaN] or a number in [[0, 100]]; it is [NaN] when the prices up
    to that day are all the same, and in [[0, 100]] when the latest price
    differs from the one before, or when the period is at least two and the
    prices up to that day are not all the same. *)
Lemma calculateRSI_values (prices : list Qc) (period k : nat) :
  (1 <= period)%nat → (k < length prices - period - 1)%nat →
  let v := arr_at (calculateRSI (Fin <$> prices) period) k in
  (v = NaN ∨ rsi_in_range v) ∧
  (flat_upto prices (period + k + 1) → v = NaN) ∧
  (nth (period + k + 1) prices 0 ≠ nth (period + k) prices 0 → rsi_in_range v) ∧
  ((2 <= period)%nat → ¬ flat_upto prices (period + k + 1) → rsi_in_range v).
Proof.
  intros Hp Hk. cbn zeta.
  rewrite calculateRSI_unfold by (rewrite length_fmap; lia).
  cbn zeta. rewrite length_fmap.
  pose proof (rsi_loop_spec (rsi_averages prices period)
    (λ k v, (v = NaN ∨ rsi_in_range v) ∧
       (flat_upto prices (period + k + 1) → v = NaN) ∧
       (nth (period + k + 1) prices 0 ≠ nth (period + k) prices 0 → rsi_in_range v) ∧
       ((2 <= period)%nat → ¬ flat_upto prices (period + k + 1) → rsi_in_range v))
    period (length prices - 1)
    (rsi_gain (Fin <$> prices) <$> seq 1 (length prices - 1))
    (rsi_loss (Fin <$> prices) <$> seq 1 (length prices - 1))
    (rsi_start period (rsi_gain (Fin <$> prices) <$> seq 1 (length prices - 1)))
    (rsi_start period (rsi_loss (Fin <$> prices) <$> seq 1 (length prices - 1))))
    as Hloop.
  cbn zeta in Hloop.
  destruct Hloop as [_ HP]; [lia|apply rsi_averages_start; lia| |apply HP; lia].
  intros i g l Hi HInv.
  destruct (rsi_averages_step prices period i g l Hp Hi HInv) as (H1 & H2 & H3 & H4 & H5).
  split; [exact H1|].
  replace (period + (i - period) + 1)%nat with (S i) by lia.
  replace (period + (i - period))%nat with i by lia. done.
Qed.

(** * Properties of the routines on binary64 numbers *)

(** ** Rounding *)

(** Boolean comparisons of integers, as propositions. *)
Ltac zbool :=
  repeat match goal with
  | H : (_ <=? _)%Z = true |- _ => apply Z.leb_le in H
  | H : (_ <=? _)%Z = false |- _ => apply Z.leb_gt in H
  | H : (_ <? _)%Z = true |- _ => apply Z.ltb_lt in H
  | H : (_ <? _)%Z = false |- _ => apply Z.ltb_ge in H
  | H : (_ =? _)%Z = true |- _ => apply Z.eqb_eq in H
  | H : (_ =? _)%Z = false |- _ => apply Z.eqb_neq in H
  | |- (_ <=? _)%Z = true => apply Z.leb_le
  | |- (_ <=? _)%Z = false => apply Z.leb_gt
  | |- (_ <? _)%Z = true => apply Z.ltb_lt
  | |- (_ <? _)%Z = false => apply Z.ltb_ge
  | |- (_ =? _)%Z = true => apply Z.eqb_eq
  | |- (_ =? _)%Z = false => apply Z.eqb_neq
  end.

Section Rounding.

Import Binary64.
Local Open Scope Z_scope.

Lemma pow2_pos (a : Z) : 0 <= a → 0 < 2 ^ a.
Proof. intros. by apply Z.pow_pos_nonneg. Qed.

Lemma pow2_split (a b : Z) : 0 <= b <= a → 2 ^ a = 2 ^ (a - b) * 2 ^ b.
Proof. intros. rewrite <- Z.pow_add_r by lia. f_equal. lia. Qed.

Lemma pow2_le (a b : Z) : 0 <= a <= b → 2 ^ a <= 2 ^ b.
Proof. intros. apply Z.pow_le_mono_r; lia. Qed.

(** The quotient of a non-negative number lies below the power of two
    above its logarithm, also when it is zero. *)
Lemma log2_upper (q : Z) : 0 <= q → q < 2 ^ (Z.log2 q + 1).
Proof.
  intros Hq. destruct (decide (q = 0)) as [->|]; [done|].
  pose proof (Z.log2_spec q). replace (Z.log2 q + 1) with (Z.succ (Z.log2 q)) by lia.
  lia.
Qed.

Lemma log2_lower (q : Z) : 1 <= q → 2 ^ Z.log2 q <= q.
Proof. intros Hq. pose proof (Z.log2_spec q). lia. Qed.

Lemma div_frac_le (n1 d1 n2 d2 : Z) :
  0 < d1 → 0 < d2 → n1 * d2 <= n2 * d1 → n1 / d1 <= n2 / d2.
Proof.
  intros H1 H2 H. apply Z.div_le_lower_bound; [done|].
  pose proof (Z.mul_div_le n1 d1 H1). nia.
Qed.

(** [rne n d] is within a half of [n / d]. *)
Lemma rne_bounds (n d : Z) :
  0 < d → (2 * rne n d - 1) * d <= 2 * n <= (2 * rne n d + 1) * d.
Proof.
  intros Hd. unfold rne.
  pose proof (Z.div_mod n d ltac:(lia)). pose proof (Z.mod_pos_bound n d Hd).
  destruct (Z.compare_spec (2 * (n mod d)) d); [destruct (Z.even (n / d))|..]; nia.
Qed.

Lemma rne_nonneg (n d : Z) : 0 <= n → 0 < d → 0 <= rne n d.
Proof.
  intros Hn Hd. unfold rne. pose proof (Z.div_pos n d Hn Hd).
  destruct (_ ?= _); [destruct (Z.even _)|..]; lia.
Qed.

Lemma rne_exact (k d : Z) : 0 < d → rne (k * d) d = k.
Proof.
  intros Hd. unfold rne. rewrite Z.div_mul, Z.mod_mul by lia.
  by destruct (Z.compare_spec (2 * 0) d); [lia| |lia].
Qed.

Lemma rne_mono (n1 d1 n2 d2 : Z) :
  0 < d1 → 0 < d2 → n1 * d2 <= n2 * d1 → rne n1 d1 <= rne n2 d2.
Proof.
  intros H1 H2 H. pose proof (div_frac_le _ _ _ _ H1 H2 H) as Hq.
  unfold rne.
  pose proof (Z.div_mod n1 d1 ltac:(lia)). pose proof (Z.mod_pos_bound n1 d1 H1).
  pose proof (Z.div_mod n2 d2 ltac:(lia)). pose proof (Z.mod_pos_bound n2 d2 H2).
  set (q1 := n1 / d1) in *. set (q2 := n2 / d2) in *.
  set (r1 := n1 mod d1) in *. set (r2 := n2 mod d2) in *.
  destruct (decide (q1 = q2)) as [Heq|Hne].
  - assert (r1 * d2 <= r2 * d1) by nia.
    destruct (Z.compare_spec (2 * r1) d1), (Z.compare_spec (2 * r2) d2);
      rewrite <- ?Heq; try destruct (Z.even q1); try lia; nia.
  - destruct (Z.compare_spec (2 * r1) d1), (Z.compare_spec (2 * r2) d2);
      try destruct (Z.even q1); try destruct (Z.even q2); lia.
Qed.

Lemma rne_ge_int (k n d : Z) : 0 < d → k * d <= n → k <= rne n d.
Proof.
  intros Hd H. rewrite <- (rne_exact k d Hd). apply rne_mono; [done..|nia].
Qed.

Lemma rne_le_int (k n d : Z) : 0 < d → n <= k * d → rne n d <= k.
Proof.
  intros Hd H. rewrite <- (rne_exact k d Hd). apply rne_mono; [done..|nia].
Qed.

Lemma rne_scale (n d c : Z) : 0 < d → 0 < c → rne (n * c) (d * c) = rne n d.
Proof.
  intros Hd Hc. unfold rne.
  rewrite Z.div_mul_cancel_r, Z.mul_mod_distr_r by lia.
  replace (2 * (n mod d * c)) with (2 * (n mod d) * c) by lia.
  destruct (Z.compare_spec (2 * (n mod d) * c) (d * c)),
    (Z.compare_spec (2 * (n mod d)) d); try reflexivity; nia.
Qed.

Lemma round_mag_unfold (n d : Z) :
  round_mag n d = rne n (d * 2 ^ shift_of (n / d)) * 2 ^ shift_of (n / d).
Proof. reflexivity. Qed.

Lemma shift_of_nonneg (q : Z) : 0 <= shift_of q.
Proof. unfold shift_of. lia. Qed.

Lemma shift_of_le_log2 (q : Z) : shift_of q <= Z.log2 q.
Proof. unfold shift_of. pose proof (Z.log2_nonneg q). lia. Qed.


Lemma round_mag_nonneg (n d : Z) : 0 <= n → 0 < d → 0 <= round_mag n d.
Proof.
  intros Hn Hd. rewrite round_mag_unfold.
  pose proof (pow2_pos _ (shift_of_nonneg (n / d))).
  apply Z.mul_nonneg_nonneg; [apply rne_nonneg|]; lia.
Qed.

Lemma round_mag_upper (n d : Z) :
  0 <= n → 0 < d → round_mag n d <= 2 ^ (Z.log2 (n / d) + 1).
Proof.
  intros Hn Hd. rewrite round_mag_unfold.
  set (q := n / d). set (s := shift_of q).
  pose proof (shift_of_nonneg q). pose proof (shift_of_le_log2 q).
  pose proof (pow2_pos s ltac:(done)).
  rewrite (pow2_split (Z.log2 q + 1) s) by (fold s; lia).
  apply Z.mul_le_mono_nonneg_r; [lia|].
  apply rne_le_int; [lia|].
  replace (2 ^ (Z.log2 q + 1 - s) * (d * 2 ^ s))
    with (2 ^ (Z.log2 q + 1 - s) * 2 ^ s * d) by lia.
  rewrite <- pow2_split by (fold s; lia).
  pose proof (log2_upper q (Z.div_pos n d Hn Hd)).
  pose proof (Z.div_mod n d ltac:(lia)). pose proof (Z.mod_pos_bound n d Hd).
  fold q in H3. nia.
Qed.

Lemma round_mag_lower (n d : Z) :
  0 < d → 1 <= n / d → 2 ^ Z.log2 (n / d) <= round_mag n d.
Proof.
  intros Hd Hq. rewrite round_mag_unfold.
  set (q := n / d) in *. set (s := shift_of q).
  pose proof (shift_of_nonneg q). pose proof (shift_of_le_log2 q).
  pose proof (pow2_pos s ltac:(done)).
  rewrite (pow2_split (Z.log2 q) s) by (fold s; lia).
  apply Z.mul_le_mono_nonneg_r; [lia|].
  apply rne_ge_int; [lia|].
  replace (2 ^ (Z.log2 q - s) * (d * 2 ^ s))
    with (2 ^ (Z.log2 q - s) * 2 ^ s * d) by lia.
  rewrite <- pow2_split by (fold s; lia).
  pose proof (log2_lower q Hq). pose proof (Z.mul_div_le n d Hd). fold q in H3. nia.
Qed.


Lemma round_mag_scale (n d c : Z) :
  0 < d → 0 < c → round_mag (n * c) (d * c) = round_mag n d.
Proof.
  intros Hd Hc. rewrite !round_mag_unfold.
  rewrite Z.div_mul_cancel_r by lia.
  pose proof (pow2_pos _ (shift_of_nonneg (n / d))).
  f_equal. replace (d * c * 2 ^ shift_of (n / d)) with (d * 2 ^ shift_of (n / d) * c) by lia.
  apply rne_scale; lia.
Qed.

(** A multiple of the spacing at its own magnitude is left as it is. *)
Lemma round_mag_fixed (m : Z) :
  0 <= m → (2 ^ shift_of m | m) → round_mag m 1 = m.
Proof.
  intros Hm [k Hk]. rewrite round_mag_unfold, Z.div_1_r, Z.mul_1_l.
  pose proof (pow2_pos _ (shift_of_nonneg m)).
  rewrite Hk at 1. rewrite rne_exact by done. lia.
Qed.

(** The result of a rounding has at most 53 significant bits: rounding it
    again changes nothing. *)
Lemma round_mag_idem (n d : Z) :
  0 <= n → 0 < d → round_mag (round_mag n d) 1 = round_mag n d.
Proof.
  intros Hn Hd. pose proof (round_mag_nonneg n d Hn Hd) as H0.
  pose proof (round_mag_upper n d Hn Hd) as Hup.
  apply round_mag_fixed; [done|].
  rewrite round_mag_unfold in *.
  set (q := n / d) in *. set (s := shift_of q) in *.
  set (r := rne n (d * 2 ^ s)) in *.
  pose proof (shift_of_nonneg q). pose proof (pow2_pos s ltac:(done)).
  set (m := r * 2 ^ s) in *.
  destruct (decide (m = 0)) as [->|Hm0]; [by exists 0|].
  assert (0 < r) by nia.
  destruct (decide (shift_of m <= s)) as [Hle|Hgt].
  - exists (r * 2 ^ (s - shift_of m)).
    pose proof (shift_of_nonneg m).
    transitivity (r * 2 ^ s); [reflexivity|].
    rewrite (pow2_split s (shift_of m)) at 1 by lia. ring.
  - assert (Hl : s + 53 <= Z.log2 m) by (unfold shift_of in Hgt; lia).
    assert (Hlq : Z.log2 q - 52 <= s) by (unfold s, shift_of; lia).
    assert (Z.log2 m < Z.log2 q + 1 ∨ m = 2 ^ (Z.log2 q + 1)) as [?|Hm].
    { destruct (decide (m = 2 ^ (Z.log2 q + 1))); [by right|left].
      apply Z.log2_lt_pow2; lia. }
    + lia.
    + assert (Z.log2 m = Z.log2 q + 1).
      { rewrite Hm. apply Z.log2_pow2. pose proof (Z.log2_nonneg q). lia. }
      assert (shift_of m = s + 1) as Hsm by (unfold shift_of in *; lia).
      exists (2 ^ (Z.log2 q - s)). rewrite Hsm, Hm.
      pose proof (Z.log2_nonneg q).
      rewrite <- Z.pow_add_r by lia. f_equal. lia.
Qed.

(** What is at least one unit does not round to zero. *)
Lemma round_mag_pos (n d : Z) : 0 < d → d <= n → 1 <= round_mag n d.
Proof.
  intros Hd Hn.
  assert (1 <= n / d) by (apply Z.div_le_lower_bound; lia).
  etrans; [|by apply round_mag_lower].
  pose proof (pow2_pos (Z.log2 (n / d)) (Z.log2_nonneg _)). lia.
Qed.

(** Rounding an integer of units moves it up by at most one part in
    [2^53]. *)
Lemma round_mag_int_upper (t : Z) :
  0 <= t → round_mag t 1 * 2 ^ 53 <= t * (2 ^ 53 + 1).
Proof.
  intros Ht. rewrite round_mag_unfold, Z.div_1_r, Z.mul_1_l.
  set (s := shift_of t). assert (0 <= s) by apply shift_of_nonneg.
  pose proof (pow2_pos s ltac:(done)).
  pose proof (rne_bounds t (2 ^ s) ltac:(done)) as [Hb _].
  destruct (decide (s = 0)) as [Hs|Hs].
  - rewrite Hs in *. change (2 ^ 0) with 1 in *. nia.
  - assert (s = Z.log2 t - 52) as Es by (unfold s, shift_of in *; lia).
    assert (1 <= t).
    { destruct (decide (1 <= t)); [done|]. replace t with 0 in * by lia.
      change (Z.log2 0) with 0 in Es. lia. }
    pose proof (log2_lower t ltac:(done)) as Hl.
    rewrite (pow2_split (Z.log2 t) 52) in Hl by lia. rewrite <- Es in Hl.
    change (2 ^ 52) with 4503599627370496 in Hl.
    change (2 ^ 53) with 9007199254740992. nia.
Qed.

End Rounding.

(** ** Numbers *)

Section Numbers.

Import Binary64.
Local Open Scope Z_scope.

Lemma U_pos : 0 < U.
Proof. reflexivity. Qed.


Lemma rnd_0 (d : Z) : rnd 0 d = Num 0.
Proof. reflexivity. Qed.

Lemma rnd_pos (n d : Z) :
  0 < n →
  rnd n d = if OVF <=? round_mag n d then PInf else Num (round_mag n d).
Proof. intros H. unfold rnd. by destruct (Z.compare_spec n 0); [lia..|]. Qed.

Lemma rnd_neg (n d : Z) :
  n < 0 →
  rnd n d = if OVF <=? round_mag (- n) d then NInf
            else if round_mag (- n) d =? 0 then NegZero
                 else Num (- round_mag (- n) d).
Proof. intros H. unfold rnd. by destruct (Z.compare_spec n 0); [lia| |lia]. Qed.

Lemma rnd_scale (n d c : Z) : 0 < d → 0 < c → rnd (n * c) (d * c) = rnd n d.
Proof.
  intros Hd Hc. unfold rnd.
  replace (- (n * c)) with (- n * c) by lia. rewrite !round_mag_scale by done.
  destruct (Z.compare_spec (n * c) 0), (Z.compare_spec n 0); try reflexivity; nia.
Qed.

Lemma double_0 : double 0.
Proof. reflexivity. Qed.

(** What an operator returns is a binary64 value. *)
Lemma rnd_double (n d m : Z) : 0 < d → rnd n d = Num m → double m.
Proof.
  intros Hd. unfold double. destruct (Z.compare_spec n 0) as [->|Hn|Hn].
  - rewrite rnd_0. by intros [= <-].
  - rewrite rnd_neg by done.
    pose proof (round_mag_nonneg (- n) d ltac:(lia) Hd).
    pose proof (round_mag_idem (- n) d ltac:(lia) Hd) as Hi.
    case_match eqn:Ho; [done|]. case_match eqn:Hz; [done|]. intros [= <-].
    rewrite rnd_neg by lia. rewrite Z.opp_involutive, Hi, Ho, Hz. done.
  - rewrite rnd_pos by done.
    pose proof (round_mag_nonneg n d ltac:(lia) Hd).
    pose proof (round_mag_idem n d ltac:(lia) Hd) as Hi.
    case_match eqn:Ho; [done|]. intros [= <-].
    destruct (decide (round_mag n d = 0)) as [->|]; [done|].
    rewrite rnd_pos by lia. by rewrite Hi, Ho.
Qed.

Lemma double_round_mag (k : Z) : double k → 0 <= k → round_mag k 1 = k ∧ k < OVF.
Proof.
  unfold double. intros Hk H0. destruct (decide (k = 0)) as [->|]; [done|].
  rewrite rnd_pos in Hk by lia. case_match eqn:Ho; [done|].
  injection Hk as Hk. split; [done|]. lia.
Qed.


(** A binary64 value below [1] is at most [1 - 2^-53]. *)
Lemma double_below_1 (k : Z) :
  double k → 0 < k < U → k <= U - 2 ^ 1021.
Proof.
  intros Hd [H0 H1]. apply double_round_mag in Hd as [Hr _]; [|lia].
  assert (HU : U = 2 ^ 53 * 2 ^ 1021) by reflexivity.
  assert (HP : 0 < 2 ^ 1021) by (by apply pow2_pos).
  assert (Hl : Z.log2 k < 1074) by (apply Z.log2_lt_pow2; [lia|exact H1]).
  destruct (decide (Z.log2 k = 1073)) as [E|E].
  - rewrite round_mag_unfold, Z.div_1_r, Z.mul_1_l in Hr.
    assert (Es : shift_of k = 1021) by (unfold shift_of; lia).
    rewrite Es in Hr. set (r := rne k (2 ^ 1021)) in *.
    assert (r < 2 ^ 53) by nia.
    change (2 ^ 53) with 9007199254740992 in *. nia.
  - pose proof (log2_upper k ltac:(lia)) as Hu.
    assert (2 ^ (Z.log2 k + 1) <= 2 ^ 1073) by (apply pow2_le; pose proof (Z.log2_nonneg k); lia).
    assert (2 ^ 1073 = 2 ^ 52 * 2 ^ 1021) as E2 by reflexivity.
    change (2 ^ 53) with 9007199254740992 in *.
    change (2 ^ 52) with 4503599627370496 in *. lia.
Qed.

(** The index that [calculateVaR] and [calculateCVaR] compute,
    [Math.floor(confidence * length)], is an index of the array. *)
Lemma var_index_in_range (c : Z) (n : nat) :
  double c → 0 < c < U → (0 < n)%nat → Z.of_nat n < 2 ^ 32 →
  ∃ i : nat, Math_floor (Num c * of_nat n) = of_nat i ∧ (i < n)%nat.
Proof.
  intros Hd Hc Hn Hn32. pose proof (double_below_1 c Hd Hc) as Hle.
  assert (HU : U = 2 ^ 53 * 2 ^ 1021) by reflexivity.
  assert (HP : 0 < 2 ^ 1021) by (by apply pow2_pos).
  assert (HO : OVF = 2 ^ 1024 * U) by reflexivity.
  assert (Hn' : 0 < Z.of_nat n < 2 ^ 32) by lia.
  assert (HU0 : 0 < U) by lia.
  unfold of_nat at 1, num. cbn [js_mul].
  assert (E0 : (c =? 0) || (Z.of_nat n * U =? 0) = false).
  { apply orb_false_intro; apply Z.eqb_neq; nia. }
  rewrite E0.
  replace (rnd (c * (Z.of_nat n * U)) U) with (rnd (c * Z.of_nat n) 1)
    by (rewrite <- (rnd_scale _ 1 U) by lia; f_equal; lia).
  rewrite rnd_pos by nia.
  set (m := round_mag (c * Z.of_nat n) 1).
  pose proof (round_mag_int_upper (c * Z.of_nat n) ltac:(nia)) as Hup. fold m in Hup.
  pose proof (round_mag_nonneg (c * Z.of_nat n) 1 ltac:(nia) ltac:(lia)) as Hm0.
  fold m in Hm0.
  assert (Hm : m < Z.of_nat n * U).
  { assert (c * Z.of_nat n <= (2 ^ 53 - 1) * (2 ^ 1021 * Z.of_nat n)) by nia.
    rewrite HU. change (2 ^ 53) with 9007199254740992 in *. nia. }
  assert (Ho : (OVF <=? m) = false).
  { apply Z.leb_gt. rewrite HO. change (2 ^ 1024) with (2 ^ 992 * 2 ^ 32).
    assert (0 < 2 ^ 992) by (by apply pow2_pos). nia. }
  rewrite Ho. cbn [Math_floor].
  exists (Z.to_nat (m / U)).
  pose proof (Z.div_pos m U Hm0 HU0).
  assert (m / U < Z.of_nat n) by (apply Z.div_lt_upper_bound; lia).
  split; [|lia]. unfold of_nat, num. f_equal. lia.
Qed.

End Numbers.

(** ** Sorting finite Numbers

    On finite Numbers the comparator [a - b] has the sign of the
    difference of the units, since a difference of at least one unit does
    not round to zero: [Array_sort] puts them in ascending order. *)

Ltac zcmp :=
  repeat match goal with
  | |- context [(?a <? ?b)%Z] => destruct (Z.ltb_spec a b)
  | |- context [(?a <=? ?b)%Z] => destruct (Z.leb_spec a b)
  | |- context [(?a =? ?b)%Z] => destruct (Z.eqb_spec a b)
  end; try done; try lia.

Section Sorting.

Import Binary64 Binary64Spec.
Local Open Scope Z_scope.

Lemma js_neg_Num (b : Z) : b ≠ 0 → js_neg (Num b) = Num (- b).
Proof. by destruct b. Qed.

Lemma rnd_int_pos (n : Z) :
  0 < n → rnd n 1 = PInf ∨ ∃ m, rnd n 1 = Num m ∧ 0 < m ∧ double m.
Proof.
  intros Hn. pose proof (round_mag_pos n 1 ltac:(lia) ltac:(lia)).
  destruct (rnd n 1) eqn:E; rewrite rnd_pos in E by done;
    case_match; try done; [|by left].
  right. injection E as <-. eexists. split; [done|]. split; [lia|].
  apply (rnd_double n 1); [lia|]. rewrite rnd_pos by done. by case_match.
Qed.

Lemma rnd_int_neg (n : Z) :
  n < 0 → rnd n 1 = NInf ∨ ∃ m, rnd n 1 = Num m ∧ m < 0 ∧ double m.
Proof.
  intros Hn. pose proof (round_mag_pos (- n) 1 ltac:(lia) ltac:(lia)).
  destruct (rnd n 1) eqn:E; rewrite rnd_neg in E by done;
    repeat case_match; try done; zbool; try lia; [|by left].
  right. injection E as <-. eexists. split; [done|]. split; [lia|].
  apply (rnd_double n 1); [lia|]. rewrite rnd_neg by done.
  repeat case_match; zbool; try done; lia.
Qed.

(** A sum of integers of units is a binary64 value or an infinity. *)
Lemma rnd_int_rounded (n : Z) : rounded (rnd n 1).
Proof.
  destruct (Z.compare_spec n 0) as [->|Hn|Hn].
  - exact double_0.
  - by destruct (rnd_int_neg n Hn) as [->|(m & -> & _ & Hm)].
  - by destruct (rnd_int_pos n Hn) as [->|(m & -> & _ & Hm)].
Qed.

Lemma rnd_int_sign (n : Z) : js_gt (rnd n 1) (Num 0) = (0 <? n).
Proof.
  destruct (Z.compare_spec n 0) as [->|Hn|Hn].
  - reflexivity.
  - destruct (rnd_int_neg n Hn) as [->|(m & -> & Hm & _)]; cbn; zcmp.
  - destruct (rnd_int_pos n Hn) as [->|(m & -> & Hm & _)]; cbn; zcmp.
Qed.

Lemma js_sub_gt_0 (x y : val) :
  finite x → finite y → js_gt (x - y) (Num 0) = (units y <? units x).
Proof.
  destruct x as [a| | | | |], y as [b| | | | |]; try done; intros _ _;
    unfold js_sub.
  - destruct (decide (b = 0)) as [->|Hb].
    + cbn. zcmp.
    + rewrite js_neg_Num by done. cbn [js_add units].
      rewrite rnd_int_sign. zcmp.
  - cbn [js_neg js_add units]. rewrite rnd_int_sign. zcmp.
  - destruct (decide (b = 0)) as [->|Hb]; [reflexivity|].
    rewrite js_neg_Num by done. cbn. zcmp.
Qed.

Lemma js_le_finite (x y : val) :
  finite x → finite y → js_le x y = (units x <=? units y).
Proof. by destruct x, y. Qed.

Lemma sort_insert_perm (cmp : val → val → val) (x : val) (l : list val) :
  sort_insert cmp x l ≡ₚ x :: l.
Proof.
  induction l as [|y l IH]; [reflexivity|]. simpl.
  case_match; [|reflexivity]. rewrite IH. apply Permutation_swap.
Qed.

Lemma sort_insert_ascending (x : val) (l : list val) :
  finite x → Forall finite l → ascending l →
  ascending (sort_insert (λ a b, a - b)%b64 x l).
Proof.
  intros Hx. unfold ascending.
  induction l as [|y l IH]; intros Hl Hs; cbn [sort_insert].
  - repeat constructor.
  - apply Forall_cons in Hl as [Hy Hl].
    rewrite js_sub_gt_0 by done. destruct (Z.ltb_spec (units y) (units x)).
    + apply Sorted_inv in Hs as [Hs Hhd]. constructor; [by apply IH|].
      destruct l as [|z l]; cbn [sort_insert].
      * constructor. rewrite js_le_finite by done. zcmp.
      * apply Forall_cons in Hl as [Hz Hl]. rewrite js_sub_gt_0 by done.
        case_match; constructor.
        -- by apply HdRel_inv in Hhd.
        -- rewrite js_le_finite by done. zcmp.
    + constructor; [exact Hs|]. constructor. rewrite js_le_finite by done. zcmp.
Qed.

Lemma finite_defined (xs : list val) :
  Forall finite xs →
  filter (λ v, v ≠ Undef) xs = xs ∧ filter (λ v, v = Undef) xs = [].
Proof.
  induction 1 as [|x xs Hx _ [IH1 IH2]]; [done|].
  assert (x ≠ Undef) by (by destruct x).
  rewrite (filter_cons_True (λ v, v ≠ Undef)) by exact H.
  rewrite (filter_cons_False (λ v, v = Undef)) by exact H.
  by rewrite IH1, IH2.
Qed.

Lemma Array_sort_finite (xs : list val) :
  Forall finite xs →
  Array_sort (λ a b, a - b)%b64 xs ≡ₚ xs
  ∧ ascending (Array_sort (λ a b, a - b)%b64 xs).
Proof.
  intros Hf. unfold Array_sort.
  destruct (finite_defined xs Hf) as [-> ->]. rewrite app_nil_r.
  induction Hf as [|x xs Hx Hf [IHp IHs]]; [by split; [|constructor]|].
  cbn [foldr]. split.
  - by rewrite sort_insert_perm, IHp.
  - apply sort_insert_ascending; [done| |done]. by rewrite IHp.
Qed.

Lemma ascending_units (l : list val) :
  Forall finite l → ascending l → Sorted Z.le (units <$> l).
Proof.
  intros Hf Hs. induction Hs as [|x l Hs IH Hhd]; [constructor|].
  apply Forall_cons in Hf as [Hx Hf]. rewrite fmap_cons.
  constructor; [by apply IH|].
  destruct Hhd as [|y l Hxy]; [constructor|].
  apply Forall_cons in Hf as [Hy Hf]. rewrite fmap_cons. constructor.
  rewrite js_le_finite in Hxy by done. zbool. done.
Qed.

(** Two ascending arrangements of the same finite Numbers hold the same
    units at every index: they differ at most in the signs of zeros. *)
Lemma ascending_unique (s1 s2 : list val) :
  Forall finite s1 → s1 ≡ₚ s2 → ascending s1 → ascending s2 →
  units <$> s1 = units <$> s2.
Proof.
  intros Hf Hp H1 H2.
  assert (Forall finite s2) by (by rewrite <- Hp).
  apply (Sorted_unique Z.le); [by apply ascending_units..|].
  by apply fmap_Permutation.
Qed.

Lemma arr_at_units (s1 s2 : list val) (i : nat) :
  units <$> s1 = units <$> s2 → units (arr_at s1 i) = units (arr_at s2 i).
Proof.
  intros E. unfold arr_at.
  assert (units <$> s1 !! i = units <$> s2 !! i) as Hi
    by (by rewrite <- !list_lookup_fmap, E).
  destruct (s1 !! i), (s2 !! i); by simplify_eq/=.
Qed.

Lemma arr_at_finite (xs : list val) (i : nat) :
  Forall finite xs → (i < length xs)%nat → finite (arr_at xs i).
Proof.
  intros Hf Hi. unfold arr_at.
  destruct (lookup_lt_is_Some_2 xs i Hi) as [x Hx]. rewrite Hx.
  by eapply Forall_lookup_1.
Qed.

Lemma Math_abs_units (x : val) : finite x → Math_abs x = Num (Z.abs (units x)).
Proof. by destruct x. Qed.

Lemma Math_abs_or_0_number (x : val) :
  x ≠ NaN → x ≠ Undef → Math_abs (x || num 0) = Math_abs x.
Proof.
  destruct x as [k| | | | |]; try done; intros _ _. unfold js_or. cbn [truthy].
  destruct (Z.eqb_spec k 0) as [->|]; reflexivity.
Qed.

Lemma index_of_of_nat (i : nat) : index_of (of_nat i) = Some i.
Proof.
  unfold of_nat, num, index_of. pose proof U_pos.
  rewrite Z.mod_mul, Z.div_mul by lia.
  rewrite decide_True by (split; [nia|done]). by rewrite Nat2Z.id.
Qed.

Lemma arr_get_of_nat (xs : list val) (i : nat) :
  arr_get xs (of_nat i) = arr_at xs i.
Proof. unfold arr_get. by rewrite index_of_of_nat. Qed.

Lemma ToInteger_of_nat (len k : nat) : ToInteger len (of_nat k) = Z.of_nat k.
Proof. unfold of_nat, num, ToInteger. apply Z.quot_mul. pose proof U_pos. lia. Qed.

Lemma slice_prefix64 (xs : list val) (k : nat) :
  (k <= length xs)%nat → slice xs 0 (Z.of_nat k) = take k xs.
Proof.
  intros Hk. unfold slice, rel_index. simpl.
  destruct (Z.ltb_spec (Z.of_nat k) 0); [lia|].
  rewrite Z.min_l by lia. rewrite Nat2Z.id.
  replace (Z.to_nat (0 `min` Z.of_nat (length xs))) with 0%nat by lia.
  by rewrite Nat.sub_0_r.
Qed.

Lemma of_nat_inj (i j : nat) : of_nat i = of_nat j → i = j.
Proof. unfold of_nat, num. pose proof U_pos. intros [= H']. nia. Qed.

End Sorting.

(** ** Sums *)

Section Sums.

Import Binary64 Binary64Spec.
Local Open Scope Z_scope.

Lemma js_add_rounded (acc x : val) :
  rounded acc → finite x → rounded (acc + x).
Proof.
  destruct acc as [a| | | | |], x as [b| | | | |]; try done; intros Ha _.
  cbn [js_add]. apply rnd_int_rounded.
Qed.

(** A zero added to a sum leaves it as it is, whatever its sign. *)
Lemma js_add_units (acc x : val) :
  rounded acc → finite x → (acc + x)%b64 = (acc + Num (units x))%b64.
Proof.
  destruct acc as [a| | | | |], x as [b| | | | |]; try done; intros Ha _.
  cbn [js_add units]. rewrite Z.add_0_r. symmetry. exact Ha.
Qed.

Lemma fold_add_rounded (xs : list val) (acc : val) :
  rounded acc → Forall finite xs → rounded (fold_left js_add xs acc).
Proof.
  intros Ha Hf. revert acc Ha.
  induction Hf as [|x xs Hx _ IH]; intros acc Ha; [done|].
  simpl. apply IH. by apply js_add_rounded.
Qed.

Lemma fold_add_units (xs ys : list val) (acc : val) :
  rounded acc → Forall finite xs → Forall finite ys →
  units <$> xs = units <$> ys →
  fold_left js_add xs acc = fold_left js_add ys acc.
Proof.
  intros Ha Hx. revert ys acc Ha.
  induction Hx as [|x xs Hx _ IH]; intros [|y ys] acc Ha Hy E; try done.
  apply Forall_cons in Hy as [Hy Hys]. injection E as E1 E2. simpl.
  rewrite (js_add_units acc x), (js_add_units acc y), E1 by done.
  apply IH; [|done..]. apply js_add_rounded; [done|]. done.
Qed.

Lemma sum64_rounded (xs : list val) : Forall finite xs → rounded (sum64 xs).
Proof. apply fold_add_rounded. exact double_0. Qed.

Lemma sum64_units (xs ys : list val) :
  Forall finite xs → Forall finite ys → units <$> xs = units <$> ys →
  sum64 xs = sum64 ys.
Proof. apply fold_add_units. exact double_0. Qed.

Lemma rnd_number (n d : Z) : rnd n d ≠ NaN ∧ rnd n d ≠ Undef.
Proof. unfold rnd. by repeat case_match. Qed.

(** A sum over a positive count is a Number. *)
Lemma js_div_of_nat_number (x : val) (k : nat) :
  rounded x → (1 <= k)%nat →
  (x / of_nat k)%b64 ≠ NaN ∧ (x / of_nat k)%b64 ≠ Undef.
Proof.
  intros Hx Hk. pose proof U_pos. unfold of_nat, num.
  assert (0 < Z.of_nat k * U) as Hp by nia.
  destruct (Z.of_nat k * U) as [|p|p] eqn:E; try lia.
  destruct x as [a| | | | |]; try done. cbn [js_div is_zero units].
  destruct a; cbn [is_zero zero xorb sign Z.ltb Z.compare].
  - done.
  - apply rnd_number.
  - apply rnd_number.
Qed.

End Sums.

(** ** Value at Risk and Conditional Value at Risk *)

Section ValueAtRisk.

Import Binary64 Binary64Spec.
Local Open Scope Z_scope.

Lemma finite_number (x : val) : finite x → x ≠ NaN ∧ x ≠ Undef.
Proof. by destruct x. Qed.

Lemma nonempty_length (returns : list val) :
  returns ≠ [] → (0 < length returns)%nat.
Proof. destruct returns; [done|simpl; lia]. Qed.

(** C1: for a non-empty array of finite returns and a confidence level
    [c], a binary64 value with [0 < c < 1], [calculateVaR] is the absolute
    value of the element of the returns in ascending order at the index
    [floor(c * n)], where [c * n] is the product rounded to binary64 as the
    code computes it; that index lies inside the array.  For the empty
    array it is [0]. *)
Theorem calculateVaR_binary64 :
  (∀ c : val, calculateVaR [] c = num 0) ∧
  (∀ (returns sorted : list val) (c : Z),
     returns ≠ [] → Forall finite returns →
     Z.of_nat (length returns) < 2 ^ 32 →
     double c → 0 < c < U →
     sorted ≡ₚ returns → ascending sorted →
     ∃ i : nat,
       Math_floor (Num c * of_nat (length returns)) = of_nat i ∧
       (i < length returns)%nat ∧
       calculateVaR returns (Num c) = Math_abs (arr_at sorted i)).
Proof.
  split; [reflexivity|].
  intros returns sorted c Hne Hf Hn Hd Hc Hp Hs.
  pose proof (nonempty_length returns Hne) as Hlen.
  destruct (var_index_in_range c (length returns) Hd Hc Hlen Hn)
    as (i & Hi & Hlt).
  exists i. split; [exact Hi|]. split; [exact Hlt|].
  unfold calculateVaR. cbn [default_arg]. case_decide; [lia|].
  destruct (Array_sort_finite returns Hf) as [Hp0 Hs0].
  set (s0 := Array_sort _ returns) in *.
  assert (Hf0 : Forall finite s0) by (by rewrite Hp0).
  assert (Hfs : Forall finite sorted) by (by rewrite Hp).
  rewrite (Permutation_length Hp0), Hi, arr_get_of_nat.
  assert (finite (arr_at s0 i)) as Hx
    by (apply arr_at_finite; [done|by rewrite (Permutation_length Hp0)]).
  assert (finite (arr_at sorted i))
    by (apply arr_at_finite; [done|by rewrite (Permutation_length Hp)]).
  destruct (finite_number _ Hx). rewrite Math_abs_or_0_number by done.
  rewrite !Math_abs_units by done. do 2 f_equal.
  apply arr_at_units, ascending_unique; [done| |done..].
  by rewrite Hp0, Hp.
Qed.

Lemma Array_sort_length (cmp : val → val → val) (xs : list val) :
  length (Array_sort cmp xs) = length xs.
Proof.
  unfold Array_sort. rewrite length_app.
  rewrite <- (Permutation_length (filter_app_complement (λ v, v ≠ Undef) xs)).
  rewrite length_app. f_equal.
  - generalize (filter (λ v, v ≠ Undef) xs). intros l.
    induction l as [|x l IH]; [done|]. cbn [foldr].
    rewrite (Permutation_length (sort_insert_perm _ _ _)). simpl.
    by rewrite IH.
  - f_equal. apply list_filter_iff. intros x.
    split; [intros -> H; by apply H|apply dec_stable].
Qed.

(** [calculateCVaR] on an array that is not empty: the mean of the first
    [floor(c * n)] elements of the sorted array, [0] when it is [NaN] or a
    zero. *)
Lemma calculateCVaR_tail64 (returns : list val) (c : Z) (k : nat) :
  returns ≠ [] →
  Math_floor (Num c * of_nat (length returns)) = of_nat k →
  (k <= length returns)%nat →
  calculateCVaR returns (Num c)
  = Math_abs
      (mean64 (take k (Array_sort (λ a b, a - b)%b64 returns)) || num 0).
Proof.
  intros Hne Hk Hle. pose proof (nonempty_length returns Hne) as Hlen.
  unfold calculateCVaR. cbn [default_arg]. case_decide; [lia|].
  rewrite Array_sort_length, Hk, ToInteger_of_nat, slice_prefix64
    by (rewrite Array_sort_length; lia).
  reflexivity.
Qed.

(** C2: when the index [k = floor(c * n)] of the binary64 product is at
    least [1], [calculateCVaR] is the absolute value of the binary64 mean
    of the [k] smallest returns: their sum accumulated from left to right,
    every addition rounded, divided by [k]. *)
Theorem calculateCVaR_binary64 (returns sorted : list val) (c : Z) (k : nat) :
  Forall finite returns → Z.of_nat (length returns) < 2 ^ 32 →
  double c → 0 < c < U →
  sorted ≡ₚ returns → ascending sorted →
  Math_floor (Num c * of_nat (length returns)) = of_nat k → (1 <= k)%nat →
  let tail := take k sorted in
  length tail = k ∧
  calculateCVaR returns (Num c) = Math_abs (mean64 tail).
Proof.
  intros Hf Hn Hd Hc Hp Hs Hk H1 tail.
  assert (Hne : returns ≠ []).
  { intros ->. destruct c as [|p|p]; try lia.
    change (Math_floor (Num (Z.pos p) * of_nat (length []))) with (of_nat 0) in Hk.
    apply of_nat_inj in Hk. lia. }
  pose proof (nonempty_length returns Hne) as Hlen.
  destruct (var_index_in_range c (length returns) Hd Hc Hlen Hn)
    as (i & Hi & Hlt).
  assert (i = k) as -> by (apply of_nat_inj; by rewrite <- Hi, <- Hk).
  assert (Hlt' : length tail = k).
  { unfold tail. rewrite length_take, (Permutation_length Hp). lia. }
  split; [exact Hlt'|].
  rewrite (calculateCVaR_tail64 returns c k) by (done || lia).
  destruct (Array_sort_finite returns Hf) as [Hp0 Hs0].
  set (s0 := Array_sort _ returns) in *.
  assert (Hf0 : Forall finite s0) by (by rewrite Hp0).
  assert (Hfs : Forall finite sorted) by (by rewrite Hp).
  assert (Hl0 : length (take k s0) = k).
  { rewrite length_take, (Permutation_length Hp0). lia. }
  assert (E : sum64 (take k s0) = sum64 tail).
  { apply sum64_units; [by apply Forall_take..|].
    unfold tail. rewrite !fmap_take. f_equal.
    apply ascending_unique; [done| |done..]. by rewrite Hp0, Hp. }
  unfold mean64. rewrite Hl0, Hlt', E.
  destruct (js_div_of_nat_number (sum64 tail) k) as [? ?]; [|done|].
  { apply sum64_rounded. by apply Forall_take. }
  by apply Math_abs_or_0_number.
Qed.

Lemma confidence_001 : dbl (1 # 100) = Num (units (dbl (1 # 100))).
Proof. by vm_compute. Qed.

Lemma var_index_001 (n : nat) :
  (1 <= n < 100)%nat →
  Math_floor (Num (units (dbl (1 # 100))) * of_nat n) = num 0.
Proof.
  intros Hn.
  assert (H : forallb
    (λ n, bool_decide
            (Math_floor (Num (units (dbl (1 # 100))) * of_nat n) = num 0))
    (seq 1 99) = true) by (by vm_compute).
  rewrite forallb_forall in H.
  specialize (H n ltac:(apply in_seq; lia)).
  by apply bool_decide_eq_true in H.
Qed.

(** C10: when the index [floor(c * n)] of the binary64 product is [0], the
    tail is empty, its mean [0 / 0] is [NaN], which [|| 0] turns into [0]:
    [calculateCVaR] returns [0].  This is the case of every array of fewer
    than 100 returns at [c = 0.01]. *)
Theorem calculateCVaR_empty_tail_binary64 :
  (num 0 / of_nat 0 = NaN)%b64 ∧ (NaN || num 0 = num 0)%b64 ∧
  (∀ (returns : list val) (c : Z),
     returns ≠ [] →
     Math_floor (Num c * of_nat (length returns)) = num 0 →
     calculateCVaR returns (Num c) = num 0) ∧
  (∀ returns : list val,
     returns ≠ [] → (length returns < 100)%nat →
     calculateCVaR returns (dbl (1 # 100)) = num 0).
Proof.
  assert (Hgen : ∀ (returns : list val) (c : Z),
     returns ≠ [] →
     Math_floor (Num c * of_nat (length returns)) = num 0 →
     calculateCVaR returns (Num c) = num 0).
  { intros returns c Hne Hk.
    by rewrite (calculateCVaR_tail64 returns c 0) by (done || lia). }
  split; [reflexivity|]. split; [reflexivity|]. split; [exact Hgen|].
  intros returns Hne Hlen. rewrite confidence_001. apply Hgen; [done|].
  apply var_index_001. pose proof (nonempty_length returns Hne). lia.
Qed.

End ValueAtRisk.

(** ** Maximum drawdown *)

Section MaxDrawdown.

Import Binary64 Binary64Spec.
Local Open Scope Z_scope.

Lemma arr_at_fmap_Num (l : list Z) (i : nat) :
  (i < length l)%nat → arr_at (Num <$> l) i = Num (nth i l 0).
Proof.
  intros H. unfold arr_at. rewrite list_lookup_fmap.
  destruct (lookup_lt_is_Some_2 l i H) as [x Hx]. rewrite Hx. simpl.
  f_equal. symmetry. by apply nth_lookup_Some with (d := 0) in Hx.
Qed.

Lemma running_max_0 (prices : list Z) :
  prices ≠ [] → running_max prices 0 = nth 0 prices 0.
Proof.
  destruct prices as [|p l]; [done|]. intros _.
  unfold running_max. cbn [take nth fold_left]. apply Z.max_id.
Qed.

Lemma running_max_S (prices : list Z) (j : nat) :
  (S j < length prices)%nat →
  running_max prices (S j)
  = Z.max (running_max prices j) (nth (S j) prices 0).
Proof.
  intros Hj. unfold running_max.
  destruct (lookup_lt_is_Some_2 prices (S j) Hj) as [x Hx].
  rewrite (take_S_r prices (S j) x Hx), fold_left_app. simpl.
  by rewrite (nth_lookup_Some _ _ 0 _ Hx).
Qed.

Lemma running_max_ge (prices : list Z) (j : nat) :
  (j < length prices)%nat → nth j prices 0 <= running_max prices j.
Proof.
  intros Hj. destruct j as [|j].
  - rewrite running_max_0; [lia|]. destruct prices; [simpl in Hj; lia|done].
  - rewrite running_max_S by done. lia.
Qed.

Lemma nth_positive (prices : list Z) (j : nat) :
  Forall (λ p, 0 < p) prices → (j < length prices)%nat → 0 < nth j prices 0.
Proof.
  intros Hpos Hj. destruct (lookup_lt_is_Some_2 prices j Hj) as [x Hx].
  rewrite (nth_lookup_Some _ _ 0 _ Hx). by eapply Forall_lookup_1 in Hpos.
Qed.

(** What rounds a quotient of non-negative integers is not negative. *)
Lemma rnd_nonneg (n d : Z) : 0 <= n → 0 < d → nonneg (rnd n d).
Proof.
  intros Hn Hd. destruct (decide (n = 0)) as [->|]; [done|].
  rewrite rnd_pos by lia. pose proof (round_mag_nonneg n d Hn Hd).
  by case_match.
Qed.

Lemma js_div_nonneg (x : val) (d : Z) :
  nonneg x → 0 < d → nonneg (x / Num d).
Proof.
  intros Hx Hd. destruct d as [|d|d]; try lia.
  destruct x as [a| | | | |]; try done. cbn in Hx.
  destruct a as [|a|a]; try lia; [done|].
  cbn [js_div is_zero units Z.ltb Z.compare]. apply rnd_nonneg; [|done].
  pose proof U_pos. nia.
Qed.

Lemma drawdown64_nonneg (peak price : Z) :
  0 < price <= peak → nonneg (drawdown64 peak price).
Proof.
  intros H. unfold drawdown64. apply js_div_nonneg; [|lia].
  unfold js_sub. rewrite js_neg_Num by lia. cbn [js_add].
  apply rnd_nonneg; lia.
Qed.

Lemma nonneg_le_0 (x : val) : nonneg x → js_le (num 0) x = true.
Proof. destruct x; try done. cbn. intros. zcmp. Qed.

Lemma nonneg_le_trans (x y z : val) :
  nonneg x → nonneg y → nonneg z →
  js_le x y = true → js_le y z = true → js_le x z = true.
Proof. destruct x, y, z; try done; cbn; intros; try done; zbool; lia. Qed.

(** The larger of two Numbers that are not negative, as the loop picks
    it. *)
Lemma nonneg_gt_max (x d : val) :
  nonneg x → nonneg d →
  let d' := if js_gt x d then x else d in
  nonneg d' ∧ js_le x d' = true ∧ js_le d d' = true ∧ (d' = x ∨ d' = d).
Proof.
  destruct x as [a| | | | |], d as [b| | | | |]; try done;
    intros Hx Hd d'; subst d'; cbn in *; zcmp; cbn in *;
    repeat split; zcmp; auto.
Qed.

(** C3: on a non-empty array of strictly positive prices,
    [calculateMaxDrawdown] is the largest of [0] and of the binary64
    drawdowns from the running maximum: at every index [j >= 1], the fall
    from the largest of [prices[0 .. j]] to [prices[j]] divided by that
    largest price, the difference and the quotient each rounded.  On an
    array of at most one element it is [0]. *)
Theorem calculateMaxDrawdown_binary64 :
  (∀ prices : list Z,
     prices ≠ [] → Forall (λ p, 0 < p) prices →
     let d := calculateMaxDrawdown (Num <$> prices) in
     js_le (num 0) d = true ∧
     (∀ j, (1 <= j < length prices)%nat →
        js_le (drawdown64 (running_max prices j) (nth j prices 0)) d = true) ∧
     (d = num 0 ∨
      ∃ j, (1 <= j < length prices)%nat ∧
        d = drawdown64 (running_max prices j) (nth j prices 0))) ∧
  (∀ prices : list val,
     (length prices <= 1)%nat → calculateMaxDrawdown prices = num 0).
Proof.
  split.
  - intros prices Hne Hpos.
    assert (Hn : (1 <= length prices)%nat) by (destruct prices; [done|simpl; lia]).
    unfold calculateMaxDrawdown. rewrite length_fmap. case_decide; [lia|].
    set (body := λ (i : nat) '(maxPrice, maxDrawdown), _).
    set (dd := λ j, drawdown64 (running_max prices j) (nth j prices 0)).
    assert (HI : ∃ d,
      for_loop 1 (length prices) body (arr_at (Num <$> prices) 0, num 0)
        = (Num (running_max prices (length prices - 1)), d) ∧
      nonneg d ∧
      (∀ j, (1 <= j < length prices)%nat → js_le (dd j) d = true) ∧
      (d = num 0 ∨ ∃ j, (1 <= j < length prices)%nat ∧ d = dd j)).
    { apply (for_loop_ind
        (λ k s, ∃ d, s = (Num (running_max prices (k - 1)), d) ∧
           nonneg d ∧
           (∀ j, (1 <= j < k)%nat → js_le (dd j) d = true) ∧
           (d = num 0 ∨ ∃ j, (1 <= j < k)%nat ∧ d = dd j))); [lia| |].
      - exists (num 0). rewrite arr_at_fmap_Num by lia.
        rewrite running_max_0 by done.
        split; [reflexivity|]. split; [done|]. split; [intros; lia|by left].
      - intros i s Hi (d & -> & Hd & Hub & Hat).
        destruct i as [|i]; [lia|].
        replace (S i - 1)%nat with i in * by lia.
        replace (S (S i) - 1)%nat with (S i) by lia.
        pose proof (running_max_S prices i ltac:(lia)) as Hm.
        pose proof (nth_positive prices (S i) Hpos ltac:(lia)) as Hp.
        set (p := nth (S i) prices 0) in *.
        set (m := running_max prices i) in *.
        assert (Hdd : nonneg (dd (S i))).
        { unfold dd. apply drawdown64_nonneg. fold p. rewrite Hm. lia. }
        destruct (nonneg_gt_max (dd (S i)) d Hdd Hd) as (Hd' & Hle1 & Hle2 & Hor).
        set (d' := if js_gt (dd (S i)) d then dd (S i) else d) in *.
        exists d'. split; [|split; [exact Hd'|split]].
        + unfold body. rewrite arr_at_fmap_Num by lia. fold p.
          assert (E : (if js_gt (Num p) (Num m) then Num p else Num m)
                      = Num (running_max prices (S i))).
          { rewrite Hm. cbn. zcmp; f_equal; lia. }
          rewrite E. reflexivity.
        + intros j Hj. destruct (decide (j = S i)) as [->|]; [exact Hle1|].
          apply (nonneg_le_trans _ d); [| |done|by apply Hub; lia|done].
          * unfold dd. apply drawdown64_nonneg.
            pose proof (running_max_ge prices j ltac:(lia)).
            pose proof (nth_positive prices j Hpos ltac:(lia)). lia.
          * done.
        + destruct Hor as [->| ->].
          * right. exists (S i). split; [lia|done].
          * destruct Hat as [->|(j & Hj & ->)]; [by left|].
            right. exists j. split; [lia|done]. }
    destruct HI as (d & -> & Hd & Hub & Hat).
    split; [by apply nonneg_le_0|]. split; [exact Hub|exact Hat].
  - intros prices Hlen. unfold calculateMaxDrawdown.
    case_decide; [reflexivity|]. rewrite for_loop_ge by lia. reflexivity.
Qed.

End MaxDrawdown.

(** ** Sharpe ratio *)

Section SharpeRatio.

Import Binary64 Binary64Spec.
Local Open Scope Z_scope.

Lemma reduce_add_map (g : val → val) (xs : list val) (acc : val) :
  reduce (λ a b, a + g b)%b64 acc xs = fold_left js_add (g <$> xs) acc.
Proof.
  unfold reduce. revert acc. induction xs as [|x xs IH]; intros acc; [done|].
  simpl. apply IH.
Qed.

Lemma reduce_sum64 (xs : list val) :
  reduce (λ a b, a + b)%b64 (num 0) xs = sum64 xs.
Proof. reflexivity. Qed.

Lemma reduce_sq_dev (avg : val) (xs : list val) :
  reduce (λ a b, a + Math_pow_2 (b - avg))%b64 (num 0) xs
  = sum64 ((λ b, Math_pow_2 (b - avg)) <$> xs).
Proof. apply reduce_add_map. Qed.

(** C4: for a non-empty array of returns, [calculateSharpeRatio] is [0]
    when the population standard deviation that binary64 arithmetic gives
    is zero, and otherwise the mean return less the risk-free rate over
    252, divided by that deviation: the sums accumulated from left to
    right, and every sum, difference, square, quotient and root rounded. *)
Theorem calculateSharpeRatio_binary64 (returns : list val) (riskFreeRate : Z) :
  returns ≠ [] →
  calculateSharpeRatio returns (Num riskFreeRate)
  = if js_seq (std64 returns) (num 0) then num 0
    else ((mean64 returns - Num riskFreeRate / num 252)
            / std64 returns)%b64.
Proof.
  intros Hne.
  assert (Hn : (0 < length returns)%nat) by (destruct returns; [done|simpl; lia]).
  unfold calculateSharpeRatio. cbn [default_arg]. case_decide; [lia|].
  rewrite reduce_sum64. fold (mean64 returns). rewrite reduce_sq_dev.
  replace (sum64 _ / of_nat (length returns))%b64
    with (variance64 returns)
    by (unfold variance64, mean64 at 1; by rewrite length_fmap).
  reflexivity.
Qed.

End SharpeRatio.

(** ** Bollinger Bands *)

Section BollingerBands.

Import Binary64 Binary64Spec.
Local Open Scope Z_scope.



















End BollingerBands.

(** ** Where the rounding shows

    Inputs on which the routines depart from the formulas read in exact
    arithmetic. *)

Section Departures.

Import Binary64 Binary64Spec.
Local Open Scope Z_scope.

(** At [c = 0.7] and ten returns the exact product is just below [7], the
    binary64 product is [7]: [calculateVaR] returns the element at index
    [7], not the one at index [floor(c * n) = 6]. *)
Lemma calculateVaR_exact_index_counterexample :
  0 < units (dbl (7 # 10)) < U ∧
  exact_var_index (units (dbl (7 # 10))) 10 = 6 ∧
  calculateVaR (of_nat <$> [1; 2; 3; 4; 5; 6; 7; 8; 9; 10]%nat) (dbl (7 # 10))
  = of_nat 8 ∧
  calculateVaR (of_nat <$> [1; 2; 3; 4; 5; 6; 7; 8; 9; 10]%nat) (dbl (7 # 10))
  ≠ Math_abs
      (arr_at (of_nat <$> [1; 2; 3; 4; 5; 6; 7; 8; 9; 10]%nat)
         (Z.to_nat (exact_var_index (units (dbl (7 # 10))) 10))).
Proof. vm_compute. repeat split; by intros [=]. Qed.

(** On the same input [calculateCVaR] averages seven returns, not
    [floor(c * n) = 6]; and on three returns of [-0.3], [-0.2], [-0.1] in
    the tail the mean it returns is not their arithmetic mean, which is
    not a binary64 value. *)
Lemma calculateCVaR_exact_mean_counterexample :
  exact_var_index (units (dbl (7 # 10))) 10 = 6 ∧
  calculateCVaR (of_nat <$> [1; 2; 3; 4; 5; 6; 7; 8; 9; 10]%nat) (dbl (7 # 10))
  = of_nat 4 ∧
  calculateCVaR (of_nat <$> [1; 2; 3; 4; 5; 6; 7; 8; 9; 10]%nat) (dbl (7 # 10))
  ≠ Math_abs (mean64 (take 6 (of_nat <$> [1; 2; 3; 4; 5; 6; 7; 8; 9; 10]%nat))) ∧
  exact_var_index (units (dbl (3 # 4))) 4 = 3 ∧
  exact (calculateCVaR [dbl (-3 # 10); dbl (-2 # 10); dbl (-1 # 10); num 1]
           (dbl (3 # 4)))
  ≠ Qcabs (Qcmean (exact <$> [dbl (-3 # 10); dbl (-2 # 10); dbl (-1 # 10)])).
Proof. vm_compute. repeat split; by intros [=]. Qed.

(** At [c = 1/3] (the binary64 value nearest to it) and three returns the
    exact product is below [1] and [floor(c * n) = 0], but the binary64
    product is [1]: the tail holds one return and [calculateCVaR] is not
    [0]. *)
Lemma calculateCVaR_empty_tail_counterexample :
  0 < units (dbl (1 # 3)) < U ∧
  exact_var_index (units (dbl (1 # 3))) 3 = 0 ∧
  calculateCVaR [num (-5); num 1; num 2] (dbl (1 # 3)) = num 5 ∧
  calculateCVaR [num (-5); num 1; num 2] (dbl (1 # 3)) ≠ num 0.
Proof. vm_compute. repeat split; by intros [=]. Qed.

(** The prices [0.11], the next binary64 value above it, and [0.04]: the
    single pass measures the fall to [0.04] from the running maximum, the
    second price, and the binary64 drawdown from the first price is larger;
    nor is the result the textbook maximum in exact arithmetic. *)
Lemma calculateMaxDrawdown_textbook_counterexample :
  calculateMaxDrawdown
    (Num <$> [units (dbl (11 # 100)); units (dbl (11 # 100)) + 2 ^ 1018;
              units (dbl (4 # 100))])
  = drawdown64 (units (dbl (11 # 100)) + 2 ^ 1018) (units (dbl (4 # 100))) ∧
  js_lt
    (calculateMaxDrawdown
       (Num <$> [units (dbl (11 # 100)); units (dbl (11 # 100)) + 2 ^ 1018;
                 units (dbl (4 # 100))]))
    (drawdown64 (units (dbl (11 # 100))) (units (dbl (4 # 100)))) = true ∧
  exact
    (calculateMaxDrawdown
       (Num <$> [units (dbl (11 # 100)); units (dbl (11 # 100)) + 2 ^ 1018;
                 units (dbl (4 # 100))]))
  ≠ textbook_max_drawdown
      (exact <$> (Num <$> [units (dbl (11 # 100));
                           units (dbl (11 # 100)) + 2 ^ 1018;
                           units (dbl (4 # 100))])).
Proof. vm_compute. repeat split; by intros [=]. Qed.

(** The returns [1e-200] and [3e-200]: their population variance is not
    zero, but its binary64 value underflows to zero, and
    [calculateSharpeRatio] returns [0] where the formula has a non-zero
    numerator over a non-zero deviation. *)
Lemma calculateSharpeRatio_underflow_counterexample :
  population_variance
    (exact <$> [dbl (1 # 10 ^ 200); dbl (3 # 10 ^ 200)]) ≠ 0%Qc ∧
  (Qcmean (exact <$> [dbl (1 # 10 ^ 200); dbl (3 # 10 ^ 200)])
   - exact (dbl (2 # 100)) / Q2Qc 252)%Qc ≠ 0%Qc ∧
  std64 [dbl (1 # 10 ^ 200); dbl (3 # 10 ^ 200)] = num 0 ∧
  calculateSharpeRatio [dbl (1 # 10 ^ 200); dbl (3 # 10 ^ 200)] (dbl (2 # 100))
  = num 0.
Proof. vm_compute. repeat split; by intros [=]. Qed.


End Departures.

(** * The routines on the heap

    A program logic for the state transformers of [Refs], and for each
    routine the proof that it runs as the routine over values on a heap it
    only extends. *)

Module RefsLogic.

Import Refs.

(** ** A program logic for the routines *)

Lemma spec_ret {A} (h0 : heap) (a : A) (Q : A → heap → Prop) (ext : heap) :
  Q a ext → spec h0 (mret a) Q ext.
Proof. intros H. by exists a, ext. Qed.

Lemma spec_bind {A B} (h0 : heap) (m : M A) (k : A → M B)
  (Q : B → heap → Prop) (ext : heap) :
  spec h0 m (λ a ext', spec h0 (k a) Q ext') ext → spec h0 (m ≫= k) Q ext.
Proof.
  intros (a & ext' & Hm & b & ext'' & Hk & HQ). exists b, ext''.
  split; [|done]. unfold mbind, M_bind. by rewrite Hm.
Qed.

Lemma spec_mono {A} (h0 : heap) (m : M A) (Q Q' : A → heap → Prop) (ext : heap) :
  (∀ a ext', Q a ext' → Q' a ext') → spec h0 m Q ext → spec h0 m Q' ext.
Proof. intros H (a & ext' & Hm & HQ). exists a, ext'. auto. Qed.

Lemma spec_alloc (h0 : heap) (xs : list jsval) (Q : loc → heap → Prop) (ext : heap) :
  Q (length h0 + length ext)%nat (ext ++ [xs]) → spec h0 (alloc xs) Q ext.
Proof.
  intros H. exists (length h0 + length ext)%nat, (ext ++ [xs]).
  split; [|done]. unfold alloc. by rewrite length_app, app_assoc.
Qed.

(** Writing an object allocated since the routine started. *)
Lemma spec_store_new (h0 : heap) (k : nat) (xs : list jsval)
  (Q : unit → heap → Prop) (ext : heap) :
  Q tt (<[k := xs]> ext) → spec h0 (store (length h0 + k)%nat xs) Q ext.
Proof.
  intros H. exists tt, (<[k := xs]> ext). split; [|done]. unfold store.
  by rewrite insert_app_r.
Qed.

(** A routine specified from any heap runs the same after allocations. *)
Lemma spec_call {A} (h0 : heap) (m : M A) (Q : A → heap → Prop)
  (Q' : A → heap → Prop) (ext : heap) :
  spec (h0 ++ ext) m Q' [] →
  (∀ a ext', Q' a ext' → Q a (ext ++ ext')) →
  spec h0 m Q ext.
Proof.
  intros (a & ext' & Hm & HQ') HQ. exists a, (ext ++ ext').
  split; [|by apply HQ]. rewrite app_nil_r in Hm. by rewrite Hm, app_assoc.
Qed.

(** The invariant rule for loops. *)
Lemma spec_for_each {St B} (h0 : heap) (I : list B → St → heap → Prop)
  (l : list B) (body : B → St → M St) (s : St) (ext : heap) :
  I [] s ext →
  (∀ done i s ext, done ++ [i] `prefix_of` l → I done s ext →
     spec h0 (body i s) (λ s' ext', I (done ++ [i]) s' ext') ext) →
  spec h0 (for_eachM l body s) (λ s' ext', I l s' ext') ext.
Proof.
  intros H0 Hstep. unfold for_eachM.
  assert (G : ∀ rest done s ext, done ++ rest = l → I done s ext →
    ∃ s' ext', fold_left (λ '(s, h) i, body i s h) rest (s, h0 ++ ext)
               = (s', h0 ++ ext') ∧ I l s' ext').
  { induction rest as [|i rest IH]; intros done s' ext' Hl HI.
    - rewrite app_nil_r in Hl. subst. by exists s', ext'.
    - destruct (Hstep done i s' ext') as (s'' & ext'' & Hb & HI'); [|done|].
      { exists rest. by rewrite <- app_assoc. }
      simpl. rewrite Hb. apply (IH (done ++ [i])); [|done].
      by rewrite <- app_assoc. }
  destruct (G l [] s ext eq_refl H0) as (s' & ext' & Hf & HI).
  by exists s', ext'.
Qed.

Lemma spec_for_loop {St} (h0 : heap) (I : nat → St → heap → Prop)
  (lo hi : nat) (body : nat → St → M St) (s : St) (ext : heap) :
  (lo <= hi)%nat →
  I lo s ext →
  (∀ i s ext, (lo <= i < hi)%nat → I i s ext →
     spec h0 (body i s) (λ s' ext', I (S i) s' ext') ext) →
  spec h0 (for_loopM lo hi body s) (λ s' ext', I hi s' ext') ext.
Proof.
  intros Hle H0 Hstep.
  pose proof (spec_for_each h0 (λ done s ext, I (lo + length done)%nat s ext)
                (seq lo (hi - lo)) body s ext) as H.
  cbn beta in H. rewrite length_seq in H.
  replace (lo + (hi - lo))%nat with hi in H by lia.
  apply H.
  - simpl. by rewrite Nat.add_0_r.
  - intros done i s' ext' [rest Hpre] HI.
    assert (Hi : i = (lo + length done)%nat ∧ (length done < hi - lo)%nat).
    { assert (Hlk : seq lo (hi - lo) !! length done = Some i).
      { rewrite Hpre, <- app_assoc. simpl. by apply list_lookup_middle. }
      apply lookup_seq in Hlk. lia. }
    destruct Hi as [-> Hlt].
    rewrite length_app. simpl.
    replace (lo + (length done + 1))%nat with (S (lo + length done)) by lia.
    apply Hstep; [lia|done].
Qed.

(** *** Rules for the array methods *)

Lemma lookup_new (h0 ext : heap) (k : nat) (xs : list jsval) :
  ext !! k = Some xs → (h0 ++ ext) !! (length h0 + k)%nat = Some xs.
Proof.
  intros H. rewrite lookup_app_r by lia.
  by replace (length h0 + k - length h0)%nat with k by lia.
Qed.

Lemma lookup_old (h0 ext : heap) (l : loc) (xs : list jsval) :
  h0 !! l = Some xs → (h0 ++ ext) !! l = Some xs.
Proof. apply lookup_app_l_Some. Qed.

Lemma spec_load (h0 : heap) (l : loc) (xs : list jsval)
  (Q : list jsval → heap → Prop) (ext : heap) :
  (h0 ++ ext) !! l = Some xs → Q xs ext → spec h0 (load l) Q ext.
Proof.
  intros Hl H. exists xs, ext. split; [|done]. unfold load. by rewrite Hl.
Qed.

Lemma spec_length_ref (h0 : heap) (l : loc) (xs : list jsval)
  (Q : nat → heap → Prop) (ext : heap) :
  (h0 ++ ext) !! l = Some xs → Q (length xs) ext →
  spec h0 (length_ref l) Q ext.
Proof.
  intros Hl H. apply spec_bind, (spec_load _ _ xs); [done|]. by apply spec_ret.
Qed.

Lemma spec_at_ref (h0 : heap) (l : loc) (xs : list jsval) (i : nat)
  (Q : jsval → heap → Prop) (ext : heap) :
  (h0 ++ ext) !! l = Some xs → Q (arr_at xs i) ext →
  spec h0 (at_ref l i) Q ext.
Proof.
  intros Hl H. apply spec_bind, (spec_load _ _ xs); [done|]. by apply spec_ret.
Qed.

Lemma spec_get_ref (h0 : heap) (l : loc) (xs : list jsval) (v : jsval)
  (Q : jsval → heap → Prop) (ext : heap) :
  (h0 ++ ext) !! l = Some xs → Q (arr_get xs v) ext →
  spec h0 (get_ref l v) Q ext.
Proof.
  intros Hl H. apply spec_bind, (spec_load _ _ xs); [done|]. by apply spec_ret.
Qed.

Lemma spec_reduce_ref {A} (h0 : heap) (l : loc) (xs : list jsval)
  (f : A → jsval → A) (init : A) (Q : A → heap → Prop) (ext : heap) :
  (h0 ++ ext) !! l = Some xs → Q (reduce f init xs) ext →
  spec h0 (reduce_ref f init l) Q ext.
Proof.
  intros Hl H. apply spec_bind, (spec_load _ _ xs); [done|]. by apply spec_ret.
Qed.

Lemma spec_slice_ref (h0 : heap) (l : loc) (xs : list jsval) (s e : Z)
  (Q : loc → heap → Prop) (ext : heap) :
  (h0 ++ ext) !! l = Some xs →
  Q (length h0 + length ext)%nat (ext ++ [slice xs s e]) →
  spec h0 (slice_ref l s e) Q ext.
Proof.
  intros Hl H. apply spec_bind, (spec_load _ _ xs); [done|]. by apply spec_alloc.
Qed.

Lemma spec_Array_spread (h0 : heap) (l : loc) (xs : list jsval)
  (Q : loc → heap → Prop) (ext : heap) :
  (h0 ++ ext) !! l = Some xs →
  Q (length h0 + length ext)%nat (ext ++ [xs]) →
  spec h0 (Array_spread l) Q ext.
Proof.
  intros Hl H. apply spec_bind, (spec_load _ _ xs); [done|]. by apply spec_alloc.
Qed.

(** [push] and [sort] write: the rules are for an array allocated since the
    routine started. *)
Lemma spec_push_ref (h0 : heap) (k : nat) (xs : list jsval) (v : jsval)
  (Q : unit → heap → Prop) (ext : heap) :
  ext !! k = Some xs → Q tt (<[k := xs ++ [v]]> ext) →
  spec h0 (push_ref (length h0 + k)%nat v) Q ext.
Proof.
  intros Hl H. apply spec_bind, (spec_load _ _ xs); [by apply lookup_new|].
  by apply spec_store_new.
Qed.

Lemma spec_sort_ref (h0 : heap) (k : nat) (xs : list jsval)
  (cmp : jsval → jsval → jsval) (Q : loc → heap → Prop) (ext : heap) :
  ext !! k = Some xs →
  Q (length h0 + k)%nat (<[k := Array_sort cmp xs]> ext) →
  spec h0 (sort_ref cmp (length h0 + k)%nat) Q ext.
Proof.
  intros Hl H. apply spec_bind, (spec_load _ _ xs); [by apply lookup_new|].
  apply spec_bind, spec_store_new. by apply spec_ret.
Qed.

Lemma spec_imapM (h0 : heap) (f : nat → jsval → M jsval)
  (g : nat → jsval → jsval) (xs : list jsval)
  (Q : list jsval → heap → Prop) (ext : heap) :
  (∀ i x, xs !! i = Some x →
     spec h0 (f i x) (λ y ext', y = g i x ∧ ext' = ext) ext) →
  Q (imap g xs) ext →
  spec h0 (imapM f xs) Q ext.
Proof.
  revert f g Q. induction xs as [|x xs IH]; intros f g Q Hf HQ.
  - by apply spec_ret.
  - cbn [imapM]. apply spec_bind.
    eapply spec_mono; [|apply (Hf 0%nat x); done].
    intros y ext' [-> ->]. apply spec_bind.
    apply (IH (f ∘ S) (g ∘ S)).
    + intros i x' Hx'. apply (Hf (S i)). done.
    + by apply spec_ret.
Qed.

Lemma spec_map_ref (h0 : heap) (f : nat → jsval → M jsval)
  (g : nat → jsval → jsval) (l : loc) (xs : list jsval)
  (Q : loc → heap → Prop) (ext : heap) :
  (h0 ++ ext) !! l = Some xs →
  (∀ i x, xs !! i = Some x →
     spec h0 (f i x) (λ y ext', y = g i x ∧ ext' = ext) ext) →
  Q (length h0 + length ext)%nat (ext ++ [imap g xs]) →
  spec h0 (map_ref f l) Q ext.
Proof.
  intros Hl Hf HQ. apply spec_bind, (spec_load _ _ xs); [done|].
  apply spec_bind, (spec_imapM _ _ g); [done|]. by apply spec_alloc.
Qed.

(** A loop whose body only reads runs as the loop over values. *)
Lemma spec_for_loop_pure {St} (h0 : heap) (lo hi : nat)
  (body : nat → St → M St) (f : nat → St → St) (s : St)
  (Q : St → heap → Prop) (ext : heap) :
  (∀ i s, (lo <= i < hi)%nat →
     spec h0 (body i s) (λ s' ext', s' = f i s ∧ ext' = ext) ext) →
  Q (for_loop lo hi f s) ext →
  spec h0 (for_loopM lo hi body s) Q ext.
Proof.
  intros Hbody HQ.
  destruct (decide (lo <= hi)%nat) as [Hle|Hgt].
  - eapply spec_mono;
      [|apply (spec_for_loop h0 (λ i s' ext', s' = for_loop lo i f s ∧ ext' = ext));
        [done|by rewrite for_loop_ge| ]].
    + intros s' ext' [-> ->]. exact HQ.
    + intros i s' ext' Hi [-> ->]. eapply spec_mono; [|by apply Hbody].
      intros s'' ext'' [-> ->]. by rewrite for_loop_S by lia.
  - exists s, ext. rewrite for_loop_ge in HQ by lia. split; [|done].
    unfold for_loopM. by replace (hi - lo)%nat with 0%nat by lia.
Qed.

(** ** The routines run as the routines over values, on a heap they only
    extend *)

Ltac lk := first [by apply lookup_old | by apply lookup_new].

(** The loop over values that the goal mentions is the one the loop over
    the heap runs as. *)
Ltac loop_as_values :=
  match goal with
  | |- context [for_loop _ _ ?f _] => eapply (spec_for_loop_pure _ _ _ _ f)
  end.

Lemma calculateVaR_runs (h : heap) (returns : loc) (xs : list jsval)
  (confidence : jsval) :
  h !! returns = Some xs →
  spec h (calculateVaR returns confidence)
    (λ v ext, v = Values.calculateVaR xs confidence ∧
       (xs ≠ [] → ext = [Array_sort (λ a b, a - b)%js xs])) [].
Proof.
  intros Hl. unfold calculateVaR, Values.calculateVaR. cbn zeta.
  apply spec_bind, (spec_length_ref _ _ xs); [lk|].
  case_decide as Hn.
  { apply spec_ret. split; [done|]. intros Hne. by destruct xs. }
  apply spec_bind, (spec_Array_spread _ _ xs); [lk|]. cbn [length app].
  apply spec_bind, (spec_sort_ref _ 0 xs); [done|]. cbn [insert list_insert].
  set (sorted := Array_sort _ xs).
  apply spec_bind, (spec_length_ref _ _ sorted); [lk|].
  apply spec_bind, (spec_get_ref _ _ sorted); [lk|].
  by apply spec_ret.
Qed.

Lemma calculateCVaR_runs (h : heap) (returns : loc) (xs : list jsval)
  (confidence : jsval) :
  h !! returns = Some xs →
  spec h (calculateCVaR returns confidence)
    (λ v ext, v = Values.calculateCVaR xs confidence ∧
       (xs ≠ [] → ∃ tail, ext = [Array_sort (λ a b, a - b)%js xs; tail])) [].
Proof.
  intros Hl. unfold calculateCVaR, Values.calculateCVaR. cbn zeta.
  apply spec_bind, (spec_length_ref _ _ xs); [lk|].
  case_decide as Hn.
  { apply spec_ret. split; [done|]. intros Hne. by destruct xs. }
  apply spec_bind, (spec_Array_spread _ _ xs); [lk|]. cbn [length app].
  apply spec_bind, (spec_sort_ref _ 0 xs); [done|]. cbn [insert list_insert].
  set (sorted := Array_sort _ xs).
  apply spec_bind, (spec_length_ref _ _ sorted); [lk|].
  apply spec_bind, (spec_slice_ref _ _ sorted); [lk|]. cbn [length app].
  set (tail := slice sorted _ _).
  apply spec_bind, (spec_reduce_ref _ _ tail); [lk|].
  apply spec_bind, (spec_length_ref _ _ tail); [lk|].
  apply spec_ret. split; [done|]. intros _. by exists tail.
Qed.

Lemma calculateMaxDrawdown_runs (h : heap) (prices : loc) (xs : list jsval) :
  h !! prices = Some xs →
  spec h (calculateMaxDrawdown prices)
    (λ v ext, v = Values.calculateMaxDrawdown xs ∧ ext = []) [].
Proof.
  intros Hl. unfold calculateMaxDrawdown, Values.calculateMaxDrawdown.
  apply spec_bind, (spec_length_ref _ _ xs); [lk|].
  case_decide; [by apply spec_ret|].
  apply spec_bind, (spec_at_ref _ _ xs); [lk|].
  apply spec_bind. loop_as_values.
  - intros i [maxPrice maxDrawdown] Hi.
    apply spec_bind, (spec_at_ref _ _ xs); [lk|].
    apply spec_bind, (spec_at_ref _ _ xs); [lk|].
    apply spec_ret. split; reflexivity.
  - cbn beta. destruct (for_loop 1 _ _ _) as [m d]. by apply spec_ret.
Qed.

Section WithSqrt.

Variable Math_sqrt : jsval → jsval.

Lemma calculateSharpeRatio_runs (h : heap) (returns : loc) (xs : list jsval)
  (riskFreeRate : jsval) :
  h !! returns = Some xs →
  spec h (calculateSharpeRatio Math_sqrt returns riskFreeRate)
    (λ v ext, v = Values.calculateSharpeRatio Math_sqrt xs riskFreeRate
              ∧ ext = []) [].
Proof.
  intros Hl. unfold calculateSharpeRatio, Values.calculateSharpeRatio. cbn zeta.
  apply spec_bind, (spec_length_ref _ _ xs); [lk|].
  case_decide; [by apply spec_ret|].
  apply spec_bind, (spec_reduce_ref _ _ xs); [lk|].
  apply spec_bind, (spec_length_ref _ _ xs); [lk|].
  apply spec_bind, (spec_reduce_ref _ _ xs); [lk|].
  apply spec_bind, (spec_length_ref _ _ xs); [lk|].
  by apply spec_ret.
Qed.

Lemma returns_of_spec (h0 : heap) (prices : loc) (xs : list jsval)
  (Q : loc → heap → Prop) (ext : heap) :
  (h0 ++ ext) !! prices = Some xs →
  Q (length h0 + S (length ext))%nat
    (ext ++ [slice xs 1 (Z.of_nat (length xs)); returns_list xs]) →
  spec h0 (returns_of prices) Q ext.
Proof.
  intros Hl HQ. unfold returns_of.
  apply spec_bind, (spec_length_ref _ _ xs); [done|].
  apply spec_bind, (spec_slice_ref _ _ xs); [done|].
  eapply (spec_map_ref _ _ (λ i price, (price - arr_at xs i) / arr_at xs i)%js).
  - apply lookup_new. by apply list_lookup_middle.
  - intros i x _.
    apply spec_bind, (spec_at_ref _ _ xs); [rewrite app_assoc; by apply lookup_app_l_Some|].
    apply spec_bind, (spec_at_ref _ _ xs); [rewrite app_assoc; by apply lookup_app_l_Some|].
    by apply spec_ret.
  - rewrite length_app, <- app_assoc. simpl.
    by replace (length ext + 1)%nat with (S (length ext)) by lia.
Qed.

Lemma mean_ref_spec (h0 : heap) (l : loc) (xs : list jsval)
  (Q : jsval → heap → Prop) (ext : heap) :
  (h0 ++ ext) !! l = Some xs →
  Q (reduce (λ a b, a + b) (num 0) xs / of_nat (length xs))%js ext →
  spec h0 (mean_ref l) Q ext.
Proof.
  intros Hl HQ. unfold mean_ref.
  apply spec_bind, (spec_reduce_ref _ _ xs); [done|].
  apply spec_bind, (spec_length_ref _ _ xs); [done|].
  by apply spec_ret.
Qed.

Lemma calculateCorrelation_runs (h : heap) (prices1 prices2 : loc)
  (xs1 xs2 : list jsval) :
  h !! prices1 = Some xs1 → h !! prices2 = Some xs2 →
  spec h (calculateCorrelation Math_sqrt prices1 prices2)
    (λ v _, v = Values.calculateCorrelation Math_sqrt xs1 xs2) [].
Proof.
  intros Hl1 Hl2. unfold calculateCorrelation, Values.calculateCorrelation.
  apply spec_bind, (spec_length_ref _ _ xs1); [lk|].
  apply spec_bind, (spec_length_ref _ _ xs2); [lk|].
  case_decide; [by apply spec_ret|].
  fold (returns_list xs1) (returns_list xs2).
  apply spec_bind, (returns_of_spec _ _ xs1); [lk|]. cbn [length app].
  apply spec_bind, (returns_of_spec _ _ xs2); [lk|]. cbn [length app].
  apply spec_bind, (mean_ref_spec _ _ (returns_list xs1)); [lk|].
  apply spec_bind, (mean_ref_spec _ _ (returns_list xs2)); [lk|].
  apply spec_bind, (spec_length_ref _ _ (returns_list xs1)); [lk|].
  apply spec_bind. loop_as_values.
  - intros i [[numerator sumSq1] sumSq2] Hi.
    apply spec_bind, (spec_at_ref _ _ (returns_list xs1)); [lk|].
    apply spec_bind, (spec_at_ref _ _ (returns_list xs2)); [lk|].
    apply spec_ret. split; reflexivity.
  - cbn beta. destruct (for_loop 0 _ _ _) as [[n s1] s2]. by apply spec_ret.
Qed.

End WithSqrt.

(** A loop over the heap simulates a loop over values when each iteration
    keeps the relation [R] between the state of the latter and the state
    and the allocated objects of the former. *)
Lemma spec_for_each_sim {S T B} (h0 : heap) (R : S → T → heap → Prop)
  (l : list B) (body : B → T → M T) (f : S → B → S) (s : S) (t : T)
  (ext : heap) :
  R s t ext →
  (∀ i s t ext, i ∈ l → R s t ext →
     spec h0 (body i t) (λ t' ext', R (f s i) t' ext') ext) →
  spec h0 (for_eachM l body t) (λ t' ext', R (fold_left f l s) t' ext') ext.
Proof.
  intros H0 Hstep.
  apply (spec_for_each h0 (λ done t ext, R (fold_left f done s) t ext)); [done|].
  intros done i t' ext' [rest Hpre] HR. rewrite fold_left_app. simpl.
  apply Hstep; [|done]. rewrite Hpre, !elem_of_app, list_elem_of_singleton. auto.
Qed.

Lemma spec_for_loop_sim {S T} (h0 : heap) (R : S → T → heap → Prop)
  (lo hi : nat) (body : nat → T → M T) (f : nat → S → S) (s : S) (t : T)
  (ext : heap) :
  R s t ext →
  (∀ i s t ext, (lo <= i < hi)%nat → R s t ext →
     spec h0 (body i t) (λ t' ext', R (f i s) t' ext') ext) →
  spec h0 (for_loopM lo hi body t)
    (λ t' ext', R (for_loop lo hi f s) t' ext') ext.
Proof.
  intros H0 Hstep. unfold for_loop.
  apply (spec_for_each_sim h0 R (seq lo (hi - lo)) body (λ s i, f i s)); [done|].
  intros i s' t' ext' Hi. apply Hstep. apply elem_of_seq in Hi. lia.
Qed.

Lemma calculateEMA_runs (h : heap) (prices : loc) (xs : list jsval)
  (period : nat) :
  h !! prices = Some xs →
  spec h (calculateEMA prices period)
    (λ r ext, r = length h ∧ ext = [Values.calculateEMA xs period]) [].
Proof.
  intros Hl. unfold calculateEMA, Values.calculateEMA. cbn zeta.
  apply spec_bind, (spec_at_ref _ _ xs); [lk|].
  apply spec_bind, spec_alloc. cbn [length app].
  apply spec_bind, (spec_length_ref _ _ xs); [lk|].
  apply spec_bind.
  match goal with
  | |- context [for_loop _ _ ?f0 ?s0] =>
      eapply spec_mono;
        [|apply (spec_for_loop_sim h (λ ema (_ : unit) ext, ext = [ema])
                   _ _ _ f0 s0); [done|]]
  end.
  - intros [] ext ->. apply spec_ret. split; [lia|done].
  - intros i ema [] ext Hi ->.
    apply spec_bind, (spec_at_ref _ _ xs); [lk|].
    apply spec_bind, (spec_at_ref _ _ ema); [lk|].
    by apply (spec_push_ref _ 0 ema).
Qed.

Lemma calculateRSI_runs (h : heap) (prices : loc) (xs : list jsval)
  (period : nat) :
  h !! prices = Some xs →
  spec h (calculateRSI prices period)
    (λ r ext, (h ++ ext) !! r = Some (Values.calculateRSI xs period)) [].
Proof.
  intros Hl. unfold calculateRSI, Values.calculateRSI.
  apply spec_bind, (spec_length_ref _ _ xs); [lk|].
  case_decide; [apply spec_alloc; by apply lookup_new|].
  apply spec_bind, spec_alloc. cbn [length app].
  apply spec_bind, spec_alloc. cbn [length app].
  apply spec_bind.
  match goal with
  | |- context [for_loop 1 _ ?f0 ?s0] =>
      eapply spec_mono;
        [|apply (spec_for_loop_sim h
                   (λ (gl : list jsval * list jsval) (_ : unit) ext,
                      ext = [gl.1; gl.2])
                   _ _ _ f0 s0); [done|]]
  end.
  - intros [] ext ->. destruct (for_loop 1 _ _ _) as [gains losses].
    cbn [fst snd].
    apply spec_bind, spec_alloc. cbn [length app].
    apply spec_bind, (spec_slice_ref _ _ gains); [lk|]. cbn [length app].
    set (firstGains := slice gains _ _).
    apply spec_bind, (spec_reduce_ref _ _ firstGains); [lk|].
    apply spec_bind, (spec_slice_ref _ _ losses); [lk|]. cbn [length app].
    set (firstLosses := slice losses _ _).
    apply spec_bind, (spec_reduce_ref _ _ firstLosses); [lk|].
    apply spec_bind, (spec_length_ref _ _ gains); [lk|].
    apply spec_bind.
    match goal with
    | |- context [for_loop period _ ?f0 ?s0] =>
        eapply spec_mono;
          [|apply (spec_for_loop_sim h
                     (λ (s : jsval * jsval * list jsval) (t : jsval * jsval) ext,
                        t = s.1 ∧ ext = [gains; losses; s.2; firstGains; firstLosses])
                     _ _ _ f0 s0); [done|]]
    end.
    + intros t ext [-> ->]. destruct (for_loop period _ _ _) as [[ag al] rsi].
      apply spec_ret. by apply lookup_new.
    + intros i [[ag al] rsi] t ext Hi [-> ->]. cbn [fst snd].
      apply spec_bind, (spec_at_ref _ _ gains); [lk|].
      apply spec_bind, (spec_at_ref _ _ losses); [lk|].
      apply spec_bind, (spec_push_ref _ 2 rsi); [done|].
      by apply spec_ret.
  - intros i [gains losses] [] ext Hi ->. cbn [fst snd].
    apply spec_bind, (spec_at_ref _ _ xs); [lk|].
    apply spec_bind, (spec_at_ref _ _ xs); [lk|].
    apply spec_bind, (spec_push_ref _ 0 gains); [done|].
    by apply (spec_push_ref _ 1 losses).
Qed.

Lemma calculateMACD_runs (h : heap) (prices : loc) (xs : list jsval)
  (fastPeriod slowPeriod signalPeriod : nat) :
  h !! prices = Some xs →
  spec h (calculateMACD prices fastPeriod slowPeriod signalPeriod)
    (λ r ext,
       let v := Values.calculateMACD xs fastPeriod slowPeriod signalPeriod in
       (h ++ ext) !! macd_ref r = Some (macd v) ∧
       (h ++ ext) !! signal_ref r = Some (signal v) ∧
       (h ++ ext) !! histogram_ref r = Some (histogram v)) [].
Proof.
  intros Hl. unfold calculateMACD, Values.calculateMACD.
  apply spec_bind, (spec_length_ref _ _ xs); [lk|].
  case_decide.
  - apply spec_bind, spec_alloc. cbn [length app].
    apply spec_bind, spec_alloc. cbn [length app].
    apply spec_bind, spec_alloc. cbn [length app].
    apply spec_ret. cbn. repeat split; by apply lookup_new.
  - set (emaFast := Values.calculateEMA xs fastPeriod).
    set (emaSlow := Values.calculateEMA xs slowPeriod).
    apply spec_bind.
    eapply spec_call; [apply (calculateEMA_runs _ _ xs); lk|].
    intros r ext [-> ->]. fold emaFast. rewrite length_app. cbn [length app].
    apply spec_bind.
    eapply spec_call; [apply (calculateEMA_runs _ _ xs); lk|].
    intros r ext [-> ->]. fold emaSlow. rewrite length_app. cbn [length app].
    apply spec_bind.
    eapply (spec_map_ref _ _ (λ i fast, fast - arr_at emaSlow i)%js _ emaFast); [lk| |].
    { intros i x _. apply spec_bind, (spec_at_ref _ _ emaSlow); [lk|].
      by apply spec_ret. }
    cbn [length app]. set (m := imap _ emaFast).
    apply spec_bind.
    eapply spec_call; [apply (calculateEMA_runs _ _ m); lk|].
    intros r ext [-> ->]. rewrite length_app. cbn [length app].
    set (sg := Values.calculateEMA m signalPeriod).
    apply spec_bind.
    eapply (spec_map_ref _ _ (λ i macdVal, macdVal - arr_at sg i)%js _ m); [lk| |].
    { intros i x _. apply spec_bind, (spec_at_ref _ _ sg); [lk|].
      by apply spec_ret. }
    cbn [length app]. apply spec_ret. cbn. repeat split; by apply lookup_new.
Qed.

Lemma calculateBollingerBands_runs (Math_sqrt : jsval → jsval) (h : heap)
  (prices : loc) (xs : list jsval) (period : nat) (stdDev : jsval) :
  h !! prices = Some xs →
  spec h (calculateBollingerBands Math_sqrt prices period stdDev)
    (λ r ext,
       let v := Values.calculateBollingerBands Math_sqrt xs period stdDev in
       (h ++ ext) !! upper_ref r = Some (upper v) ∧
       (h ++ ext) !! middle_ref r = Some (middle v) ∧
       (h ++ ext) !! lower_ref r = Some (lower v)) [].
Proof.
  intros Hl. unfold calculateBollingerBands, Values.calculateBollingerBands.
  cbn zeta.
  apply spec_bind, (spec_length_ref _ _ xs); [lk|].
  case_decide.
  - apply spec_bind, spec_alloc. cbn [length app].
    apply spec_bind, spec_alloc. cbn [length app].
    apply spec_bind, spec_alloc. cbn [length app].
    apply spec_ret. cbn. repeat split; by apply lookup_new.
  - apply spec_bind, spec_alloc. cbn [length app].
    apply spec_bind, spec_alloc. cbn [length app].
    apply spec_bind, spec_alloc. cbn [length app].
    apply spec_bind.
    match goal with
    | |- context [fold_left ?f0 _ ?s0] =>
        eapply spec_mono;
          [|apply (spec_for_each_sim h
                     (λ (s : list jsval * list jsval * list jsval) (_ : unit) ext,
                        ∃ slices, ext = [s.1.1; s.1.2; s.2] ++ slices)
                     _ _ f0 s0); [by exists []|]]
    end.
    + intros [] ext [slices ->].
      destruct (fold_left _ _ _) as [[sma up] lo]. cbn [fst snd].
      apply spec_ret. cbn [upper_ref middle_ref lower_ref upper middle lower].
      repeat split; by apply lookup_new.
    + intros i [[sma up] lo] [] ext _ [slices ->]. cbn [fst snd].
      apply spec_bind, (spec_slice_ref _ _ xs); [lk|].
      set (sl := slice xs _ _).
      assert (Hsl : ∀ junk, (h ++ ([sma; up; lo] ++ slices) ++ sl :: junk)
                     !! (length h + length ([sma; up; lo] ++ slices))%nat = Some sl).
      { intros junk. apply lookup_new. by apply list_lookup_middle. }
      apply spec_bind, (spec_reduce_ref _ _ sl); [apply Hsl|].
      apply spec_bind, (spec_reduce_ref _ _ sl); [apply Hsl|].
      apply spec_bind, (spec_push_ref _ 0 sma); [done|]. cbn [app insert list_insert].
      apply spec_bind, (spec_push_ref _ 1 up); [done|]. cbn [app insert list_insert].
      apply (spec_push_ref _ 2 lo); [done|]. cbn [app insert list_insert].
      by exists (slices ++ [sl]).
Qed.

Lemma preserves_app (h ext : heap) : preserves h (h ++ ext).
Proof. intros l ys. apply lookup_app_l_Some. Qed.

Lemma spec_run {A} (h : heap) (m : M A) (Q : A → heap → Prop) :
  spec h m Q [] → ∃ a ext, m h = (a, h ++ ext) ∧ Q a ext.
Proof.
  intros (a & ext & Hm & HQ). rewrite app_nil_r in Hm. by exists a, ext.
Qed.

Lemma spec_returns_value {A} (h : heap) (m : M A) (v : A)
  (Q : A → heap → Prop) :
  spec h m Q [] → (∀ a ext, Q a ext → a = v) → returns_value m h v.
Proof.
  intros Hs HQ. destruct (spec_run h m Q Hs) as (a & ext & Hm & Ha).
  apply HQ in Ha as ->. exists (h ++ ext). split; [done|apply preserves_app].
Qed.

Lemma spec_returns_array (h : heap) (m : M loc) (ys : list jsval) :
  spec h m (λ r ext, (h ++ ext) !! r = Some ys) [] → returns_array m h ys.
Proof.
  intros Hs. destruct (spec_run h m _ Hs) as (r & ext & Hm & Hr).
  exists r, (h ++ ext). split; [done|]. split; [apply preserves_app|done].
Qed.

End RefsLogic.


(** * The routines are stateless *)

(** [sort] applied to an array of the caller would change it: the heap
    distinguishes the routines, which sort a copy, from that. *)
Example sort_ref_changes_its_array :
  let h := [[num 3; num 1; num 2]] in
  ¬ Refs.preserves h (Refs.sort_ref (λ a b, a - b)%js 0%nat h).2.
Proof.
  intros h Hp. specialize (Hp 0%nat _ eq_refl). vm_compute in Hp. discriminate Hp.
Qed.

(** C9: every numeric routine is stateless.  Called on a heap [h] with
    arrays of [h] as arguments, it returns (a number, or new arrays) what
    the routine over values returns for the elements of its arguments, and
    the heap it leaves has every array of [h] as it was: [calculateVaR] and
    [calculateCVaR] sort a new array, the copy of the returns, and
    [calculateMaxDrawdown] and [calculateSharpeRatio] allocate nothing. *)
Theorem routines_stateless (Math_sqrt : jsval → jsval) (h : list (list jsval)) :
  (∀ returns xs c, h !! returns = Some xs →
     ∃ ext, Refs.calculateVaR returns c h = (calculateVaR xs c, h ++ ext) ∧
       (xs ≠ [] → ext = [Array_sort (λ a b, a - b)%js xs])) ∧
  (∀ returns xs c, h !! returns = Some xs →
     ∃ ext, Refs.calculateCVaR returns c h = (calculateCVaR xs c, h ++ ext) ∧
       (xs ≠ [] → ∃ tail, ext = [Array_sort (λ a b, a - b)%js xs; tail])) ∧
  (∀ prices xs, h !! prices = Some xs →
     Refs.calculateMaxDrawdown prices h = (calculateMaxDrawdown xs, h)) ∧
  (∀ returns xs rf, h !! returns = Some xs →
     Refs.calculateSharpeRatio Math_sqrt returns rf h
     = (calculateSharpeRatio Math_sqrt xs rf, h)) ∧
  (∀ prices1 prices2 xs1 xs2,
     h !! prices1 = Some xs1 → h !! prices2 = Some xs2 →
     Refs.returns_value (Refs.calculateCorrelation Math_sqrt prices1 prices2) h
       (calculateCorrelation Math_sqrt xs1 xs2)) ∧
  (∀ prices xs period, h !! prices = Some xs →
     Refs.returns_array (Refs.calculateRSI prices period) h
       (calculateRSI xs period)) ∧
  (∀ prices xs period, h !! prices = Some xs →
     Refs.calculateEMA prices period h
     = (length h, h ++ [calculateEMA xs period])) ∧
  (∀ prices xs fast slow sig, h !! prices = Some xs →
     let v := calculateMACD xs fast slow sig in
     ∃ r h', Refs.calculateMACD prices fast slow sig h = (r, h') ∧
       Refs.preserves h h' ∧
       h' !! Refs.macd_ref r = Some (macd v) ∧
       h' !! Refs.signal_ref r = Some (signal v) ∧
       h' !! Refs.histogram_ref r = Some (histogram v)) ∧
  (∀ prices xs period stdDev, h !! prices = Some xs →
     let v := calculateBollingerBands Math_sqrt xs period stdDev in
     ∃ r h', Refs.calculateBollingerBands Math_sqrt prices period stdDev h
             = (r, h') ∧
       Refs.preserves h h' ∧
       h' !! Refs.upper_ref r = Some (upper v) ∧
       h' !! Refs.middle_ref r = Some (middle v) ∧
       h' !! Refs.lower_ref r = Some (lower v)).
Proof.
  repeat split.
  - intros returns xs c Hl.
    destruct (RefsLogic.spec_run _ _ _ (RefsLogic.calculateVaR_runs h returns xs c Hl))
      as (v & ext & Hm & -> & Hext). by exists ext.
  - intros returns xs c Hl.
    destruct (RefsLogic.spec_run _ _ _ (RefsLogic.calculateCVaR_runs h returns xs c Hl))
      as (v & ext & Hm & -> & Hext). by exists ext.
  - intros prices xs Hl.
    destruct (RefsLogic.spec_run _ _ _ (RefsLogic.calculateMaxDrawdown_runs h prices xs Hl))
      as (v & ext & Hm & -> & ->). by rewrite app_nil_r in Hm.
  - intros returns xs rf Hl.
    destruct (RefsLogic.spec_run _ _ _
                (RefsLogic.calculateSharpeRatio_runs Math_sqrt h returns xs rf Hl))
      as (v & ext & Hm & -> & ->). by rewrite app_nil_r in Hm.
  - intros prices1 prices2 xs1 xs2 Hl1 Hl2.
    eapply RefsLogic.spec_returns_value;
      [by apply (RefsLogic.calculateCorrelation_runs Math_sqrt h prices1 prices2 xs1 xs2)|].
    by intros a ext ->.
  - intros prices xs period Hl.
    by apply RefsLogic.spec_returns_array, RefsLogic.calculateRSI_runs.
  - intros prices xs period Hl.
    destruct (RefsLogic.spec_run _ _ _ (RefsLogic.calculateEMA_runs h prices xs period Hl))
      as (v & ext & Hm & -> & ->). exact Hm.
  - intros prices xs fast slow sig Hl v.
    destruct (RefsLogic.spec_run _ _ _
                (RefsLogic.calculateMACD_runs h prices xs fast slow sig Hl))
      as (r & ext & Hm & H1 & H2 & H3).
    exists r, (h ++ ext). split; [done|]. split; [apply RefsLogic.preserves_app|done].
  - intros prices xs period stdDev Hl v.
    destruct (RefsLogic.spec_run _ _ _
                (RefsLogic.calculateBollingerBands_runs Math_sqrt h prices xs period
                   stdDev Hl))
      as (r & ext & Hm & H1 & H2 & H3).
    exists r, (h ++ ext). split; [done|]. split; [apply RefsLogic.preserves_app|done].
Qed.

(** * Default arguments

    An omitted argument is the routine at its default. *)

Lemma calculateVaR_default (returns : list jsval) :
  calculateVaR returns Undef = calculateVaR returns (ratio 5 100).
Proof. reflexivity. Qed.

Lemma calculateCVaR_default (returns : list jsval) :
  calculateCVaR returns Undef = calculateCVaR returns (ratio 5 100).
Proof. reflexivity. Qed.

Lemma calculateSharpeRatio_default (Math_sqrt : jsval → jsval)
  (returns : list jsval) :
  calculateSharpeRatio Math_sqrt returns Undef
  = calculateSharpeRatio Math_sqrt returns (ratio 2 100).
Proof. reflexivity. Qed.

Lemma calculateBollingerBands_default (Math_sqrt : jsval → jsval)
  (prices : list jsval) (period : nat) :
  calculateBollingerBands Math_sqrt prices period Undef
  = calculateBollingerBands Math_sqrt prices period (num 2).
Proof. reflexivity. Qed.

(** * Examples

    The routines evaluated on small inputs.  Two numbers are equal when
    their decidable equality says so. *)

Ltac js_compute := refine (bool_decide_unpack _ _); vm_compute; exact I.

Example calculateVaR_example :
  calculateVaR (num <$> [3; -5; 1; -2; 0]%Z) Undef = num 5.
Proof. js_compute. Qed.

Example calculateCVaR_example :
  calculateCVaR (num <$> [3; -5; 1; -2; 0]%Z) (ratio 1 2) = ratio 7 2.
Proof. js_compute. Qed.

Example calculateMaxDrawdown_example :
  calculateMaxDrawdown (num <$> [10; 12; 9; 6; 13; 12]%Z) = ratio 1 2.
Proof. js_compute. Qed.

Example calculateRSI_example :
  calculateRSI (num <$> [1; 2; 1; 1; 3]%Z) 2 = [num 50; num 90].
Proof. js_compute. Qed.

Example calculateEMA_example :
  calculateEMA (num <$> [1; 2; 3; 4; 5]%Z) 3
  = [num 1; ratio 3 2; ratio 9 4; ratio 25 8; ratio 65 16].
Proof. js_compute. Qed.

Example calculateBollingerBands_example :
  calculateBollingerBands sqrt_floor (num <$> [1; 3; 1; 3; 5]%Z) 2 Undef
  = {| upper := [num 4; num 4; num 4; num 6];
       middle := [num 2; num 2; num 2; num 4];
       lower := [num 0; num 0; num 0; num 2] |}.
Proof.
  unfold calculateBollingerBands. cbn zeta. case_decide; [simpl in *; lia|].
  set (r := fold_left _ _ _).
  assert (E : r = ([num 2; num 2; num 2; num 4], [num 4; num 4; num 4; num 6],
                   [num 0; num 0; num 0; num 2])) by js_compute.
  by rewrite E.
Qed.

(** With no price the EMA is seeded by [prices[0]], which is [undefined]:
    for an empty array and a slow period of zero, [calculateMACD] returns
    arrays of one [NaN]. *)
Example calculateMACD_no_price_no_period :
  calculateEMA [] 12 = [Undef] ∧
  calculateMACD [] 12 0 9
  = {| macd := [NaN]; signal := [NaN]; histogram := [NaN] |}.
Proof. split; reflexivity. Qed.

(** * The RSI of a flat series *)

(** C5 (the code falls short of it): on sixteen equal prices and the
    default period [14], [calculateRSI] returns one value, [n - period - 1]
    as the claim says, but the value is [NaN], the quotient [0 / 0] of an
    average gain and an average loss that are both zero: it does not lie in
    [[0, 100]].  ([calculateRSI_length] has the number of values for every
    input, and [calculateRSI_values] the range of every value that is not
    [NaN].) *)
Theorem calculateRSI_flat_series_nan :
  let prices := replicate 16 (num 100) in
  (length prices >= default_rsi_period + 2)%nat ∧
  calculateRSI prices default_rsi_period = [NaN] ∧
  (∀ v, v ∈ calculateRSI prices default_rsi_period →
     js_le (num 0) v && js_le v (num 100) = false).
Proof.
  assert (E : calculateRSI (replicate 16 (num 100)) default_rsi_period = [NaN])
    by (by vm_compute).
  intros prices. split; [simpl; lia|]. split; [exact E|].
  intros v Hv. unfold prices in Hv. rewrite E in Hv.
  apply list_elem_of_singleton in Hv as ->. reflexivity.
Qed.

(** The same on every flat series: all the values are [NaN]. *)
Lemma calculateRSI_flat (c : Qc) (n period k : nat) :
  (1 <= period)%nat → (k < n - period - 1)%nat →
  arr_at (calculateRSI (Fin <$> replicate n c) period) k = NaN.
Proof.
  intros Hp Hk.
  destruct (calculateRSI_values (replicate n c) period k Hp) as (_ & Hflat & _).
  { by rewrite length_replicate. }
  apply Hflat. intros j Hj.
  assert (Hnth : ∀ i, (i < n)%nat → nth i (replicate n c) 0 = c).
  { intros i Hi. apply nth_lookup_Some with (d := 0).
    by apply lookup_replicate_2. }
  rewrite !Hnth by lia. reflexivity.
Qed.

(** With a period of one the averages are the latest gain and loss: a price
    equal to the one before gives [NaN] wherever it occurs. *)
Example calculateRSI_period_1_unchanged_price :
  calculateRSI (num <$> [1; 2; 3; 3]%Z) 1 = [num 100; NaN].
Proof. js_compute. Qed.

(** * Instances *)

Lemma calculateMACD_spec_witness :
  let prices := [num 1; num 2; num 3] in
  let r := calculateMACD prices 1 2 1 in
  length (macd r) = 3%nat ∧ length (signal r) = 3%nat ∧
  length (histogram r) = 3%nat ∧
  (∀ i, (i < 3)%nat →
     arr_at (macd r) i
     = (arr_at (calculateEMA prices 1) i - arr_at (calculateEMA prices 2) i)%js ∧
     arr_at (histogram r) i = (arr_at (macd r) i - arr_at (signal r) i)%js) ∧
  is_ema 1 prices (calculateEMA prices 1) ∧
  is_ema 2 prices (calculateEMA prices 2) ∧
  is_ema 1 (macd r) (signal r).
Proof.
  intros prices r.
  apply (proj1 (calculateMACD_spec prices 1 2 1 ltac:(lia))).
  simpl. lia.
Defined.

Lemma calculateCorrelationMatrix_symmetric_witness :
  let priceData : object :=
    [("AAPL"%string, [num 1; num 2; num 4]);
     ("MSFT"%string, [num 3; num 2; num 1])] in
  let m := matrix (calculateCorrelationMatrix sqrt_floor priceData) in
  matrix_at m 0 0 = num 1 ∧ matrix_at m 0 1 = matrix_at m 1 0.
Proof.
  intros priceData m.
  destruct (calculateCorrelationMatrix_symmetric sqrt_floor priceData)
    as (_ & _ & _ & Hdiag & Hsym & _).
  split.
  - apply Hdiag. simpl. lia.
  - apply Hsym; simpl; lia.
Defined.

Lemma routines_stateless_witness :
  let h := [[num 3; num 1; num 2]] in
  ∃ ext,
    Refs.calculateVaR 0%nat (ratio 1 2) h
    = (calculateVaR [num 3; num 1; num 2] (ratio 1 2), h ++ ext) ∧
    ([num 3; num 1; num 2] ≠ [] →
     ext = [Array_sort (λ a b, a - b)%js [num 3; num 1; num 2]]).
Proof.
  intros h.
  apply (proj1 (routines_stateless sqrt_floor h) 0%nat [num 3; num 1; num 2]
           (ratio 1 2)).
  reflexivity.
Defined.

Section Instances.

Import Binary64 Binary64Spec.
Local Open Scope Z_scope.

Lemma calculateVaR_binary64_witness :
  ∃ i : nat,
    Math_floor (Num (units (dbl (1 # 2))) * of_nat 2) = of_nat i ∧
    (i < 2)%nat ∧
    calculateVaR [num 2; num (-1)] (Num (units (dbl (1 # 2))))
    = Math_abs (arr_at [num (-1); num 2] i).
Proof.
  apply (proj2 calculateVaR_binary64 [num 2; num (-1)] [num (-1); num 2]
           (units (dbl (1 # 2)))).
  - discriminate.
  - by repeat constructor.
  - by vm_compute.
  - by vm_compute.
  - by vm_compute.
  - apply perm_swap.
  - repeat constructor; by vm_compute.
Defined.

Lemma calculateCVaR_binary64_witness :
  length (take 1 [num (-1); num 2]) = 1%nat ∧
  calculateCVaR [num 2; num (-1)] (Num (units (dbl (1 # 2))))
  = Math_abs (mean64 (take 1 [num (-1); num 2])).
Proof.
  apply (calculateCVaR_binary64 [num 2; num (-1)] [num (-1); num 2]
           (units (dbl (1 # 2))) 1).
  - by repeat constructor.
  - by vm_compute.
  - by vm_compute.
  - by vm_compute.
  - apply perm_swap.
  - repeat constructor; by vm_compute.
  - by vm_compute.
  - lia.
Defined.

Lemma calculateCVaR_empty_tail_binary64_witness :
  calculateCVaR [num 2; num 1] (Num (units (dbl (1 # 4)))) = num 0 ∧
  calculateCVaR [num 2; num 1] (dbl (1 # 100)) = num 0.
Proof.
  destruct calculateCVaR_empty_tail_binary64 as (_ & _ & Hc & H100). split.
  - apply Hc; [discriminate|by vm_compute].
  - apply H100; [discriminate|simpl; lia].
Defined.

Lemma calculateMaxDrawdown_binary64_witness :
  js_le (num 0)
    (calculateMaxDrawdown (Num <$> [10 * U; 12 * U; 9 * U; 6 * U])) = true ∧
  (∀ j, (1 <= j < 4)%nat →
     js_le
       (drawdown64 (running_max [10 * U; 12 * U; 9 * U; 6 * U] j)
          (nth j [10 * U; 12 * U; 9 * U; 6 * U] 0))
       (calculateMaxDrawdown (Num <$> [10 * U; 12 * U; 9 * U; 6 * U]))
     = true) ∧
  (calculateMaxDrawdown (Num <$> [10 * U; 12 * U; 9 * U; 6 * U]) = num 0 ∨
   ∃ j, (1 <= j < 4)%nat ∧
     calculateMaxDrawdown (Num <$> [10 * U; 12 * U; 9 * U; 6 * U])
     = drawdown64 (running_max [10 * U; 12 * U; 9 * U; 6 * U] j)
         (nth j [10 * U; 12 * U; 9 * U; 6 * U] 0)).
Proof.
  apply (proj1 calculateMaxDrawdown_binary64 [10 * U; 12 * U; 9 * U; 6 * U]).
  - discriminate.
  - repeat constructor; by vm_compute.
Defined.

Lemma calculateSharpeRatio_binary64_witness :
  calculateSharpeRatio [dbl (1 # 100); dbl (-2 # 100); dbl (3 # 100)]
    (Num (units (dbl (2 # 100))))
  = if js_seq (std64 [dbl (1 # 100); dbl (-2 # 100); dbl (3 # 100)]) (num 0)
    then num 0
    else ((mean64 [dbl (1 # 100); dbl (-2 # 100); dbl (3 # 100)]
           - Num (units (dbl (2 # 100))) / num 252)
          / std64 [dbl (1 # 100); dbl (-2 # 100); dbl (3 # 100)])%b64.
Proof.
  apply (calculateSharpeRatio_binary64
           [dbl (1 # 100); dbl (-2 # 100); dbl (3 # 100)]).
  discriminate.
Defined.


End Instances.

(** * Further properties

    Further properties of the routines, and what the two pages do with them. *)

(** ** The risk measures *)

Lemma qsort_Permutation (l1 l2 : list Qc) : l1 ≡ₚ l2 → qsort l1 = qsort l2.
Proof.
  intros Hp. apply sorted_is_qsort; [|apply qsort_sorted].
  by rewrite qsort_perm.
Qed.

(** X1: [calculateVaR] and [calculateCVaR] do not depend on the order of
    the returns: two arrays of finite returns that are permutations of each
    other give the same value at risk and the same conditional value at
    risk, at any confidence argument. *)
Theorem VaR_CVaR_order_independent (returns1 returns2 : list Qc) (c : jsval) :
  returns1 ≡ₚ returns2 →
  calculateVaR (Fin <$> returns1) c = calculateVaR (Fin <$> returns2) c ∧
  calculateCVaR (Fin <$> returns1) c = calculateCVaR (Fin <$> returns2) c.
Proof.
  intros Hp. unfold calculateVaR, calculateCVaR.
  rewrite !Array_sort_fin, !length_fmap, (qsort_Permutation _ _ Hp).
  by rewrite (Permutation_length Hp).
Qed.

(** ** The maximum drawdown *)

(** The single pass computes the maximum of [0] and of the drawdowns
    between the pairs of days. *)
Lemma calculateMaxDrawdown_is_max (prices : list Qc) :
  prices ≠ [] → Forall (λ p, 0 < p) prices →
  ∃ d, calculateMaxDrawdown (Fin <$> prices) = Fin d ∧
       is_max_drawdown prices (length prices) d.
Proof.
  intros Hne Hpos.
  assert (Hn : (1 <= length prices)%nat) by (destruct prices; [done|simpl; lia]).
  unfold calculateMaxDrawdown. rewrite length_fmap. case_decide; [lia|].
  set (body := λ (i : nat) '(maxPrice, maxDrawdown), _).
  assert (HI : ∃ m d,
    for_loop 1 (length prices) body (arr_at (Fin <$> prices) 0, num 0)
      = (Fin m, Fin d) ∧
    is_running_max prices (length prices) m ∧
    is_max_drawdown prices (length prices) d).
  { apply (for_loop_ind
      (λ k s, ∃ m d, s = (Fin m, Fin d) ∧
         is_running_max prices k m ∧ is_max_drawdown prices k d)); [lia| |].
    - exists (nth 0 prices 0), 0. rewrite arr_at_fmap_Fin by lia.
      split; [reflexivity|]. split.
      + split; [exists 0%nat; split; [lia|done]|].
        intros i Hi. replace i with 0%nat by lia. apply Qcle_refl.
      + split; [apply Qcle_refl|]. split; [intros; lia|by left].
    - intros i s Hi (m & d & -> & Hm & Hd).
      destruct (max_drawdown_step prices i m d Hpos Hi Hm Hd) as [Hm' Hd'].
      set (p := nth i prices 0) in *.
      set (m' := if bool_decide (m < p) then p else m) in *.
      set (d' := if bool_decide (d < (m' - p) / m') then (m' - p) / m' else d) in *.
      exists m', d'. split; [|split; [exact Hm'|exact Hd']].
      assert (Hm'pos : m' ≠ 0).
      { apply Qclt_neq_0. destruct Hm' as ((im & Him & ->) & _).
        apply nth_Forall_pos; [done|lia]. }
      unfold body. rewrite arr_at_fmap_Fin by lia. fold p.
      cbn [js_gt js_lt].
      replace (if bool_decide (m < p) then Fin p else Fin m) with (Fin m')
        by (unfold m'; by destruct (bool_decide (m < p))).
      cbn [js_sub js_neg js_add]. rewrite js_div_fin by done.
      cbn [js_lt]. fold (m' - p). unfold d'.
      by destruct (bool_decide (d < (m' - p) / m')). }
  destruct HI as (m & d & -> & _ & Hd). by exists d.
Qed.

(** ** The risk analysis of a response *)

Section Objects.

Context {A : Type}.

Lemma prop_get_None (o : list (string * A)) (k : string) :
  k ∉ o.*1 → Pages.prop_get o k = None.
Proof.
  induction o as [|[k' v] o IH]; [done|]. intros Hk. simpl in *.
  rewrite not_elem_of_cons in Hk. destruct Hk as [Hne Hk].
  case_decide; [congruence|]. by apply IH.
Qed.

Lemma prop_put_fresh (o : list (string * A)) (k : string) (v : A) :
  k ∉ o.*1 → Pages.prop_put o k v = o ++ [(k, v)].
Proof.
  induction o as [|[k' v'] o IH]; [done|]. intros Hk. simpl in *.
  rewrite not_elem_of_cons in Hk. destruct Hk as [Hne Hk].
  case_decide; [congruence|]. by rewrite IH.
Qed.

Lemma prop_set_fresh (o : list (string * A)) (k : string) (v : A) :
  k ≠ "__proto__"%string → k ∉ o.*1 → Pages.prop_set o k v = o ++ [(k, v)].
Proof.
  intros Hk Hf. unfold Pages.prop_set. rewrite decide_False by done.
  by apply prop_put_fresh.
Qed.

Lemma prop_set_proto (o : list (string * A)) (v : A) :
  Pages.prop_set o "__proto__" v = o.
Proof. reflexivity. Qed.

Lemma prop_get_app (o1 o2 : list (string * A)) (k : string) :
  Pages.prop_get (o1 ++ o2) k
  = match Pages.prop_get o1 k with
    | Some v => Some v
    | None => Pages.prop_get o2 k
    end.
Proof.
  induction o1 as [|[k' v'] o1 IH]; [done|]. simpl.
  case_decide; [done|]. apply IH.
Qed.

Lemma prop_get_is_Some (o : list (string * A)) (k : string) :
  k ∈ o.*1 → is_Some (Pages.prop_get o k).
Proof.
  induction o as [|[k' v] o IH]; simpl.
  - intros H. by apply elem_of_nil in H.
  - intros H. case_decide; [by eexists|]. apply IH.
    apply elem_of_cons in H. destruct H; [congruence|done].
Qed.

End Objects.

Lemma obj_get_prop_get (o : object) (k : string) :
  obj_get o k = Pages.prop_get o k.
Proof. induction o as [|[k' v] o IH]; [done|]. simpl. by rewrite IH. Qed.

Section RiskAnalysis.

Variable Math_sqrt : jsval → jsval.

Lemma has_history_spec (data : response_data) (k : string) :
  has_history data k ↔ ∃ prices, Pages.prop_get data k = Some (Some prices).
Proof.
  unfold has_history. destruct (Pages.prop_get data k) as [[p|]|]; simpl.
  - split; [by exists p|done].
  - split; [done|]. by intros [? ?].
  - split; [done|]. by intros [? ?].
Qed.

Lemma process_symbol_history (data : response_data) (k : string)
  (prices : list jsval) (pd : object) (rm : list (string * Pages.risk_metrics)) :
  Pages.prop_get data k = Some (Some prices) →
  ∃ m, metrics_of Math_sqrt data k = Some m ∧
    Pages.process_symbol Math_sqrt data (pd, rm) k
    = (Pages.prop_set pd k prices, Pages.prop_set rm k m).
Proof.
  intros E. unfold metrics_of, Pages.process_symbol. rewrite E. simpl.
  eexists. split; reflexivity.
Qed.

Lemma process_symbol_no_history (data : response_data) (k : string)
  (acc : object * list (string * Pages.risk_metrics)) :
  ¬ has_history data k → Pages.process_symbol Math_sqrt data acc k = acc.
Proof.
  unfold has_history, Pages.process_symbol. destruct acc as [pd rm].
  by destruct (Pages.prop_get data k) as [[p|]|].
Qed.

(** What the loop over the symbols leaves in the two objects. *)
Lemma process_symbols_spec (data : response_data) (ks : list string) :
  NoDup ks →
  let acc := fold_left (Pages.process_symbol Math_sqrt data) ks ([], []) in
  let listed :=
    filter (λ k, has_history data k ∧ k ≠ "__proto__"%string) ks in
  acc.1.*1 = listed ∧
  acc.2.*1 = listed ∧
  ∀ k, k ∈ listed →
    Pages.prop_get acc.1 k = mjoin (Pages.prop_get data k) ∧
    Pages.prop_get acc.2 k = metrics_of Math_sqrt data k.
Proof.
  induction ks as [|k ks IH] using rev_ind; intros Hnd acc listed.
  - subst acc listed. simpl. split; [done|]. split; [done|].
    intros k Hk. by apply elem_of_nil in Hk.
  - apply NoDup_app in Hnd. destruct Hnd as (Hnd & Hfresh & _).
    specialize (IH Hnd). cbv zeta in IH.
    subst acc listed. rewrite fold_left_app. simpl.
    destruct (fold_left _ ks _) as [pd rm]. simpl in IH.
    destruct IH as (Epd & Erm & Hget).
    rewrite filter_app.
    set (listed := filter (λ k, has_history data k ∧ k ≠ "__proto__"%string) ks) in *.
    assert (Hk : k ∉ listed).
    { intros Hin. apply list_elem_of_filter in Hin. destruct Hin as [_ Hin].
      apply (Hfresh k Hin). by apply list_elem_of_singleton. }
    destruct (decide (has_history data k)) as [Hh|Hh];
      [destruct (decide (k = "__proto__"%string)) as [Hp|Hp]|].
    + destruct (proj1 (has_history_spec data k) Hh) as [prices E].
      destruct (process_symbol_history data k prices pd rm E) as (m & Em & ->).
      rewrite filter_cons_False, filter_nil, app_nil_r by (intros [_ ?]; done).
      subst k. rewrite !prop_set_proto. simpl.
      split; [done|]. split; [done|]. intros k' Hk'. by apply Hget.
    + destruct (proj1 (has_history_spec data k) Hh) as [prices E].
      destruct (process_symbol_history data k prices pd rm E) as (m & Em & ->).
      rewrite filter_cons_True, filter_nil by done.
      rewrite (prop_set_fresh pd), (prop_set_fresh rm)
        by (done || by rewrite ?Epd, ?Erm).
      simpl.
      rewrite !fmap_app, Epd, Erm. simpl.
      split; [done|]. split; [done|].
      intros k' Hk'. rewrite !prop_get_app.
      apply elem_of_app in Hk'. destruct Hk' as [Hk'|Hk'].
      * destruct (Hget k' Hk') as [H1 H2]. rewrite <- H1, <- H2.
        assert (Hs1 : is_Some (Pages.prop_get pd k')).
        { apply prop_get_is_Some. by rewrite Epd. }
        assert (Hs2 : is_Some (Pages.prop_get rm k')).
        { apply prop_get_is_Some. by rewrite Erm. }
        destruct Hs1 as [v1 ->]. by destruct Hs2 as [v2 ->].
      * apply list_elem_of_singleton in Hk'. subst k'.
        rewrite (prop_get_None pd), (prop_get_None rm)
          by (by rewrite ?Epd, ?Erm).
        simpl. rewrite !decide_True by done. by rewrite E, Em.
    + rewrite process_symbol_no_history by done.
      rewrite filter_cons_False, filter_nil, app_nil_r by (intros [? _]; done).
      simpl.
      split; [done|]. split; [done|]. intros k' Hk'. by apply Hget.
Qed.

(** X6: after a successful response (an object, so its keys are distinct)
    and with at least one symbol entered, [fetchRiskAnalysis] sets
    [riskMetrics] to an object whose keys are the symbols of the response
    that have historical data, in the order of the response, but for
    [__proto__], which names no property of the object; the metrics of a
    symbol are those its own data gives, whatever the other symbols are. *)
Theorem fetchRiskAnalysis_rows (symbols : list string) (data : response_data)
  (st : Pages.risk_state) :
  symbols ≠ [] → NoDup data.*1 →
  let st' := Pages.fetchRiskAnalysis Math_sqrt symbols (Some data) st in
  ∃ rows, Pages.riskMetrics st' = Some rows ∧
    rows.*1 = listed_symbols data ∧
    ∀ k, k ∈ listed_symbols data →
      Pages.prop_get rows k = metrics_of Math_sqrt data k.
Proof.
  intros Hs Hnd st'. subst st'. unfold Pages.fetchRiskAnalysis.
  rewrite decide_False by (by destruct symbols).
  pose proof (process_symbols_spec data _ Hnd) as H. cbv zeta in H.
  destruct (fold_left _ _ _) as [pd rm]. simpl in H.
  destruct H as (_ & Erm & Hget).
  exists rm. split; [by case_decide|]. split; [done|].
  intros k Hk. by apply Hget.
Qed.

(** X7: [fetchRiskAnalysis] replaces the correlation matrix only when at
    least two symbols of the response get a row of metrics; with fewer, the
    matrix of the state stays as it was while the metrics are replaced.
    When it is replaced, its symbols are those of the metrics, and the entry
    at row [i] and column [j] is [1] on the diagonal and else
    [calculateCorrelation] of the closing prices of the two symbols. *)
Theorem fetchRiskAnalysis_matrix (symbols : list string) (data : response_data)
  (st : Pages.risk_state) :
  symbols ≠ [] → NoDup data.*1 →
  let st' := Pages.fetchRiskAnalysis Math_sqrt symbols (Some data) st in
  let listed := listed_symbols data in
  let n := length listed in
  ((n < 2)%nat → Pages.correlationMatrix st' = Pages.correlationMatrix st) ∧
  ((2 <= n)%nat →
     ∃ c, Pages.correlationMatrix st' = Some c ∧ Values.symbols c = listed ∧
       ∀ i j, (i < n)%nat → (j < n)%nat →
         matrix_at (matrix c) i j
         = if decide (i = j) then num 1
           else calculateCorrelation Math_sqrt
                  (history_of data (listed !!! i))
                  (history_of data (listed !!! j))).
Proof.
  intros Hs Hnd st' listed n. subst st'. unfold Pages.fetchRiskAnalysis.
  rewrite decide_False by (by destruct symbols).
  pose proof (process_symbols_spec data _ Hnd) as H. cbv zeta in H.
  destruct (fold_left _ _ _) as [pd rm]. simpl in H.
  destruct H as (Epd & _ & Hget).
  fold (listed_symbols data) in Epd, Hget. fold listed in Epd, Hget.
  unfold Object_keys. rewrite Epd. fold n. split.
  - intros Hn. by rewrite decide_False by lia.
  - intros Hn. rewrite decide_True by lia. eexists. split; [reflexivity|].
    split; [exact Epd|]. intros i j Hi Hj.
    rewrite matrix_at_entry by (unfold Object_keys; by rewrite Epd).
    unfold matrix_entry. case_decide; [done|].
    unfold prop_at, Object_keys. rewrite Epd, !obj_get_prop_get.
    assert (Hl : ∀ i, (i < n)%nat →
      default [] (Pages.prop_get pd (listed !!! i)) = history_of data (listed !!! i)).
    { intros i' Hi'. unfold history_of.
      destruct (Hget (listed !!! i')) as [-> _]; [|done].
      apply list_elem_of_lookup_2 with i'. by apply list_lookup_lookup_total_lt. }
    by rewrite !Hl.
Qed.

End RiskAnalysis.

(** ** The metrics of a symbol *)

Section Metrics.

Variable Math_sqrt : jsval → jsval.

(** The record written for a symbol with historical data. *)
Lemma metrics_of_history (data : response_data) (k : string) (prices : list jsval) :
  Pages.prop_get data k = Some (Some prices) →
  ∃ m, metrics_of Math_sqrt data k = Some m ∧
    Pages.var95 m = calculateVaR (returns_list prices) (ratio 5 100) ∧
    Pages.var99 m = calculateVaR (returns_list prices) (ratio 1 100) ∧
    Pages.cvar95 m = calculateCVaR (returns_list prices) (ratio 5 100) ∧
    Pages.cvar99 m = calculateCVaR (returns_list prices) (ratio 1 100) ∧
    Pages.maxDrawdown m = calculateMaxDrawdown prices ∧
    Pages.sharpeRatio m
      = calculateSharpeRatio Math_sqrt (returns_list prices) Undef ∧
    Pages.volatility m
      = (Math_sqrt
           (reduce
              (λ a b,
                 a + Math_pow
                       (b - reduce (λ x y, x + y) (num 0) (returns_list prices)
                            / of_nat (length (returns_list prices))) 2)
              (num 0) (returns_list prices)
            / of_nat (length (returns_list prices)))
         * Math_sqrt (num 252))%js ∧
    Pages.avgReturn m
      = (reduce (λ a b, a + b) (num 0) (returns_list prices)
           / of_nat (length (returns_list prices)) * num 252)%js.
Proof.
  intros E. unfold metrics_of. rewrite E. simpl.
  eexists. split; [reflexivity|]. repeat split.
Qed.

(** X8: a symbol with a single day of history has no return: its VaR, CVaR,
    maximum drawdown and Sharpe ratio are [0]; its average return is [NaN]
    (the mean of no return is [0 / 0]) and so is its volatility, given that
    [Math.sqrt(NaN)] is [NaN]; [getRiskLevel] grades this volatility "High",
    the drawdown "Low" and the Sharpe ratio "Poor". *)
Theorem fetchRiskAnalysis_one_day (data : response_data) (k : string) (price : jsval) :
  Math_sqrt NaN = NaN →
  Pages.prop_get data k = Some (Some [price]) →
  ∃ m, metrics_of Math_sqrt data k = Some m ∧
    Pages.var95 m = num 0 ∧ Pages.var99 m = num 0 ∧
    Pages.cvar95 m = num 0 ∧ Pages.cvar99 m = num 0 ∧
    Pages.maxDrawdown m = num 0 ∧ Pages.sharpeRatio m = num 0 ∧
    Pages.volatility m = NaN ∧ Pages.avgReturn m = NaN ∧
    Pages.level (Pages.getRiskLevel (Pages.volatility m) "volatility")
      = "High"%string ∧
    Pages.level (Pages.getRiskLevel (Pages.maxDrawdown m) "maxDrawdown")
      = "Low"%string ∧
    Pages.level (Pages.getRiskLevel (Pages.sharpeRatio m) "sharpeRatio")
      = "Poor"%string.
Proof.
  intros Hsqrt E.
  destruct (metrics_of_history data k [price] E)
    as (m & Em & H1 & H2 & H3 & H4 & H5 & H6 & H7 & H8).
  exists m. split; [exact Em|].
  assert (Er : returns_list [price] = []) by reflexivity.
  rewrite Er in *.
  assert (E0 : (num 0 / of_nat 0)%js = NaN) by (by vm_compute).
  cbn [reduce fold_left length] in H7, H8. rewrite E0 in H7, H8.
  rewrite Hsqrt in H7. cbn [js_mul] in H7, H8.
  rewrite H1, H2, H3, H4, H5, H6, H7, H8.
  repeat split; by vm_compute.
Qed.

End Metrics.

(** ** The moving averages *)

Lemma list_eq_arr_at (l1 l2 : list jsval) :
  length l1 = length l2 →
  (∀ i, (i < length l1)%nat → arr_at l1 i = arr_at l2 i) → l1 = l2.
Proof.
  intros Hlen H. apply list_eq. intros i.
  destruct (decide (i < length l1)%nat) as [Hi|Hi].
  - specialize (H i Hi). unfold arr_at in H.
    destruct (lookup_lt_is_Some_2 l1 i Hi) as [x Hx].
    destruct (lookup_lt_is_Some_2 l2 i ltac:(lia)) as [y Hy].
    rewrite Hx, Hy in *. simpl in H. by rewrite H.
  - by rewrite !lookup_ge_None_2 by lia.
Qed.

Lemma arr_at_take (l : list jsval) (m i : nat) :
  (i < m)%nat → arr_at (take m l) i = arr_at l i.
Proof. intros H. unfold arr_at. by rewrite lookup_take_lt. Qed.

(** The recurrence has one solution of each length. *)
Lemma is_ema_unique (period : nat) (x e1 e2 : list jsval) :
  x ≠ [] → length e1 = length x → length e2 = length x →
  is_ema period x e1 → is_ema period x e2 → e1 = e2.
Proof.
  intros Hne H1 H2 [A0 Arec] [B0 Brec].
  apply list_eq_arr_at; [lia|]. rewrite H1.
  intros i. induction i as [|i IH]; intros Hi.
  - by rewrite A0, B0.
  - rewrite Arec, Brec by lia. replace (S i - 1)%nat with i by lia.
    by rewrite IH by lia.
Qed.

Lemma is_ema_take (period : nat) (x e : list jsval) (m : nat) :
  (1 <= m)%nat → is_ema period x e → is_ema period (take m x) (take m e).
Proof.
  intros Hm [E0 Erec]. split.
  - by rewrite !arr_at_take by lia.
  - intros i Hi. rewrite length_take in Hi.
    rewrite !arr_at_take by lia. apply Erec. lia.
Qed.

(** The average up to a day does not depend on later days. *)
Lemma calculateEMA_take (prices : list jsval) (period m : nat) :
  (1 <= m)%nat →
  calculateEMA (take m prices) period = take m (calculateEMA prices period).
Proof.
  intros Hm. destruct (decide (prices = [])) as [->|Hne].
  { rewrite take_nil. destruct m; [lia|]. unfold calculateEMA, for_loop. simpl.
    by rewrite take_nil. }
  assert (Hne' : take m prices ≠ []).
  { destruct prices; [done|]. destruct m; [lia|done]. }
  destruct (calculateEMA_spec prices period Hne) as [Hlen Hema].
  destruct (calculateEMA_spec (take m prices) period Hne') as [Hlen' Hema'].
  apply (is_ema_unique period (take m prices)); try done.
  - rewrite !length_take. lia.
  - by apply is_ema_take.
Qed.

Lemma ema_multiplier_fin (period : nat) :
  ∃ a : Qc, ema_multiplier period = Fin a ∧ 0 < a ∧
    ((1 <= period)%nat → a <= 1).
Proof.
  unfold ema_multiplier, of_nat, num. cbn [js_add].
  set (d := Q2Qc (inject_Z (Z.of_nat period)) + Q2Qc (inject_Z 1)).
  assert (Hd : 0 < d).
  { subst d. qc_unfold. change (Qred 0) with 0%Q. change (inject_Z 1) with 1%Q.
    assert (0 <= inject_Z (Z.of_nat period))%Q.
    { change 0%Q with (inject_Z 0). rewrite <- Zle_Qle. lia. }
    lra. }
  rewrite js_div_fin by (by apply Qclt_neq_0).
  eexists. split; [reflexivity|]. split.
  - clearbody d. qc_unfold. change (Qred 0) with 0%Q in *.
    change (inject_Z 2) with 2%Q.
    apply Qlt_shift_div_l; [done|]. lra.
  - intros Hp.
    assert (Hd2 : Q2Qc (inject_Z 2) <= d).
    { subst d. qc_unfold. change (inject_Z 1) with 1%Q.
      change (inject_Z 2) with 2%Q.
      pose proof (Qc_of_nat_ge_1 period Hp). lra. }
    clearbody d. qc_unfold. change (Qred 0) with 0%Q in *.
    change (Qred 1) with 1%Q. change (inject_Z 2) with 2%Q in *.
    apply Qle_shift_div_r; [done|]. lra.
Qed.

Lemma num_1_fin : num 1 = Fin 1.
Proof. reflexivity. Qed.

(** What the two weights of the recurrence preserve, the average keeps. *)
Lemma calculateEMA_inv (P : Qc → Prop) (prices : list Qc) (period : nat)
  (a : Qc) :
  prices ≠ [] → ema_multiplier period = Fin a → Forall P prices →
  (∀ x e, P x → P e → P (a * x + (1 - a) * e)) →
  ∃ qs : list Qc, calculateEMA (Fin <$> prices) period = Fin <$> qs ∧
    length qs = length prices ∧ Forall P qs.
Proof.
  intros Hne Ea HP Hstep.
  assert (Hne' : Fin <$> prices ≠ []) by (by destruct prices).
  destruct (calculateEMA_spec (Fin <$> prices) period Hne') as [Hlen [E0 Erec]].
  rewrite length_fmap in Hlen, Erec.
  set (ema := calculateEMA (Fin <$> prices) period) in *. clearbody ema.
  assert (Hnth : ∀ j, (j < length prices)%nat → P (nth j prices 0)).
  { intros j Hj. rewrite Forall_forall in HP. apply HP.
    destruct (lookup_lt_is_Some_2 prices j Hj) as [x Hx].
    rewrite (nth_lookup_Some _ _ 0 _ Hx). by eapply list_elem_of_lookup_2. }
  assert (Hn : (0 < length prices)%nat) by (destruct prices; [done|simpl; lia]).
  assert (Hall : ∀ i, (i < length prices)%nat →
    ∃ q, arr_at ema i = Fin q ∧ P q).
  { intros i. induction i as [|i IH]; intros Hi.
    - exists (nth 0 prices 0). rewrite E0, arr_at_fmap_Fin by lia.
      split; [done|]. by apply Hnth.
    - destruct (IH ltac:(lia)) as (q & Eq & Hq).
      rewrite Erec by lia. replace (S i - 1)%nat with i by lia.
      rewrite Eq, Ea, arr_at_fmap_Fin, num_1_fin by lia.
      eexists. split; [reflexivity|]. apply Hstep; [by apply Hnth|done]. }
  clear E0 Erec. revert prices Hlen Hall HP Hstep Hnth Hne Hne' Hn.
  intros prices. generalize (length prices). clear. intros n Hlen Hall _ _ _ _ _ _.
  revert n Hlen Hall. induction ema as [|v ema IH] using rev_ind; intros n Hlen Hall.
  - exists []. by subst n.
  - rewrite length_app in Hlen. simpl in Hlen.
    destruct (IH (length ema) eq_refl) as (qs & -> & Hl & HPqs).
    { intros i Hi. destruct (Hall i ltac:(lia)) as (q & Eq & Hq).
      exists q. split; [|done]. by rewrite arr_at_app_l in Eq by lia. }
    destruct (Hall (length (Fin <$> qs)) ltac:(lia)) as (q & Eq & Hq).
    rewrite arr_at_snoc in Eq. subst v.
    exists (qs ++ [q]). rewrite fmap_app, length_app. simpl.
    rewrite length_fmap in Hlen. split; [done|]. split; [lia|].
    apply Forall_app. split; [done|]. by apply Forall_singleton.
Qed.

(** The average of finite prices is finite, whatever the period. *)
Lemma calculateEMA_fin (prices : list Qc) (period : nat) :
  prices ≠ [] →
  ∃ qs : list Qc, calculateEMA (Fin <$> prices) period = Fin <$> qs ∧
    length qs = length prices.
Proof.
  intros Hne. destruct (ema_multiplier_fin period) as (a & Ea & _).
  destruct (calculateEMA_inv (λ _, True) prices period a Hne Ea) as (qs & E & Hl & _).
  - by apply Forall_true.
  - done.
  - by exists qs.
Qed.

(** ** MACD *)

Lemma imap_take_arr (f : nat → jsval → jsval) (l : list jsval) (m : nat) :
  imap f (take m l) = take m (imap f l).
Proof.
  apply list_eq. intros i. rewrite list_lookup_imap.
  destruct (decide (i < m)%nat) as [Hi|Hi].
  - by rewrite !lookup_take_lt, list_lookup_imap by done.
  - by rewrite !lookup_take_ge by lia.
Qed.

Lemma imap_ext_lt (f g : nat → jsval → jsval) (l : list jsval) :
  (∀ i x, (i < length l)%nat → f i x = g i x) → imap f l = imap g l.
Proof.
  intros H. apply list_eq. intros i. rewrite !list_lookup_imap.
  destruct (l !! i) as [x|] eqn:E; [|done]. simpl. f_equal. apply H.
  by eapply lookup_lt_Some.
Qed.

Lemma calculateEMA_length (prices : list jsval) (period : nat) :
  prices ≠ [] → length (calculateEMA prices period) = length prices.
Proof. intros H. by destruct (calculateEMA_spec prices period H). Qed.

Lemma calculateMACD_unfold (prices : list jsval) (fast slow sig : nat) :
  (slow <= length prices)%nat →
  let emaFast := calculateEMA prices fast in
  let emaSlow := calculateEMA prices slow in
  let macd := imap (λ i fast, fast - arr_at emaSlow i)%js emaFast in
  let signal := calculateEMA macd sig in
  calculateMACD prices fast slow sig
  = {| macd := macd; signal := signal;
       histogram := imap (λ i macdVal, macdVal - arr_at signal i)%js macd |}.
Proof. intros H. unfold calculateMACD. by rewrite decide_False by lia. Qed.

(** X11: [calculateEMA] and [calculateMACD] are causal: on the first [m]
    prices (with [m] at least one and at least the slow period) they give
    the first [m] values of what they give on all the prices. *)
Theorem calculateMACD_prefix (prices : list jsval) (fast slow sig m : nat) :
  (1 <= m)%nat → (slow <= m)%nat → (m <= length prices)%nat →
  let r := calculateMACD prices fast slow sig in
  calculateEMA (take m prices) fast = take m (calculateEMA prices fast) ∧
  calculateMACD (take m prices) fast slow sig
  = {| macd := take m (macd r); signal := take m (signal r);
       histogram := take m (histogram r) |}.
Proof.
  intros Hm Hs Hn r. split; [by apply calculateEMA_take|].
  subst r. rewrite !calculateMACD_unfold by (rewrite ?length_take; lia).
  cbv zeta. cbn [macd signal histogram].
  rewrite !calculateEMA_take by done.
  set (emaFast := calculateEMA prices fast).
  set (emaSlow := calculateEMA prices slow).
  set (macd0 := imap (λ i fast0, fast0 - arr_at emaSlow i)%js emaFast).
  assert (Em : imap (λ i fast0, fast0 - arr_at (take m emaSlow) i)%js
                 (take m emaFast) = take m macd0).
  { unfold macd0. rewrite <- imap_take_arr. apply imap_ext_lt. intros i x Hi.
    rewrite length_take in Hi. by rewrite arr_at_take by lia. }
  rewrite Em, calculateEMA_take by done.
  set (signal0 := calculateEMA macd0 sig).
  f_equal. rewrite <- (imap_take_arr _ macd0). apply imap_ext_lt. intros i x Hi.
  rewrite length_take in Hi. by rewrite arr_at_take by lia.
Qed.

Lemma imap_sub_fin (xs ys : list Qc) :
  length xs = length ys →
  imap (λ i x, x - arr_at (Fin <$> ys) i)%js (Fin <$> xs)
  = Fin <$> zip_with Qcminus xs ys.
Proof.
  intros Hl. apply list_eq. intros i.
  rewrite list_lookup_imap, !list_lookup_fmap, lookup_zip_with.
  destruct (xs !! i) as [x|] eqn:Ex; [|done]. simpl.
  assert (Hi : (i < length ys)%nat) by (apply lookup_lt_Some in Ex; lia).
  destruct (lookup_lt_is_Some_2 ys i Hi) as [y Ey]. rewrite Ey. simpl.
  rewrite arr_at_fmap_Fin by done. by rewrite (nth_lookup_Some _ _ 0 _ Ey).
Qed.

(** The three arrays on finite prices. *)
Lemma calculateMACD_fin (prices : list Qc) (fast slow sig : nat) :
  prices ≠ [] → (slow <= length prices)%nat →
  ∃ fs ss gs : list Qc,
    calculateEMA (Fin <$> prices) fast = Fin <$> fs ∧
    calculateEMA (Fin <$> prices) slow = Fin <$> ss ∧
    length fs = length prices ∧ length ss = length prices ∧
    length gs = length prices ∧
    calculateEMA (Fin <$> zip_with Qcminus fs ss) sig = Fin <$> gs ∧
    calculateMACD (Fin <$> prices) fast slow sig
    = {| macd := Fin <$> zip_with Qcminus fs ss;
         signal := Fin <$> gs;
         histogram := Fin <$> zip_with Qcminus (zip_with Qcminus fs ss) gs |}.
Proof.
  intros Hne Hn.
  destruct (calculateEMA_fin prices fast Hne) as (fs & Ef & Hf).
  destruct (calculateEMA_fin prices slow Hne) as (ss & Es & Hs).
  assert (Hz : length (zip_with Qcminus fs ss) = length prices).
  { rewrite length_zip_with. lia. }
  assert (Hzne : zip_with Qcminus fs ss ≠ []).
  { intros E. rewrite E in Hz. destruct prices; [done|simpl in Hz; lia]. }
  destruct (calculateEMA_fin (zip_with Qcminus fs ss) sig Hzne) as (gs & Eg & Hg).
  exists fs, ss, gs. repeat (split; [done || lia|]).
  rewrite calculateMACD_unfold by (rewrite length_fmap; lia). cbv zeta.
  rewrite Ef, Es, imap_sub_fin by lia. rewrite Eg, imap_sub_fin by lia. done.
Qed.

(** ** RSI *)

Lemma for_loop_split {St} (lo mid hi : nat) (f : nat → St → St) (s : St) :
  (lo <= mid)%nat → (mid <= hi)%nat →
  for_loop lo hi f s = for_loop mid hi f (for_loop lo mid f s).
Proof.
  intros H1 H2. unfold for_loop.
  replace (hi - lo)%nat with ((mid - lo) + (hi - mid))%nat by lia.
  rewrite seq_app, fold_left_app. by replace (lo + (mid - lo))%nat with mid by lia.
Qed.

Lemma rsi_loop_extends (period lo hi : nat) (gains losses : list jsval)
  (s : jsval * jsval * list jsval) :
  (lo <= hi)%nat →
  ∃ ext, (for_loop lo hi (rsi_body period gains losses) s).2 = s.2 ++ ext.
Proof.
  intros Hle.
  apply (for_loop_ind (λ _ t, ∃ ext, t.2 = s.2 ++ ext)); [done| |].
  - exists []. by rewrite app_nil_r.
  - intros i [[g l] rsi] Hi [ext E]. simpl in E. subst rsi.
    eexists. simpl. by rewrite <- app_assoc.
Qed.

Lemma rsi_loop_take (period hi' hi : nat)
  (gains losses gains' losses' : list jsval) (g0 l0 : jsval) :
  (period <= hi')%nat → (hi' <= hi)%nat →
  (∀ i, (i < hi')%nat → arr_at gains' i = arr_at gains i) →
  (∀ i, (i < hi')%nat → arr_at losses' i = arr_at losses i) →
  (for_loop period hi' (rsi_body period gains' losses') (g0, l0, [])).2
  = take (hi' - period)
      (for_loop period hi (rsi_body period gains losses) (g0, l0, [])).2.
Proof.
  intros H1 H2 HG HL.
  rewrite (for_loop_ext period hi' (rsi_body period gains' losses')
             (rsi_body period gains losses)).
  2:{ intros i [[g l] rsi] Hi. simpl. by rewrite HG, HL by lia. }
  rewrite (for_loop_split period hi' hi) by done.
  destruct (rsi_loop_spec (λ _ _ _, True) (λ _ _, True) period hi' gains losses
              g0 l0 H1 I) as [Hlen _]; [done|]. cbn zeta in Hlen.
  destruct (rsi_loop_extends period hi' hi gains losses
              (for_loop period hi' (rsi_body period gains losses) (g0, l0, [])) H2)
    as [ext ->].
  by rewrite <- Hlen, take_app_length.
Qed.

Lemma rsi_gain_take (prices : list jsval) (m j : nat) :
  (1 <= j < m)%nat → rsi_gain (take m prices) j = rsi_gain prices j.
Proof.
  intros Hj. unfold rsi_gain, rsi_change. by rewrite !arr_at_take by lia.
Qed.

Lemma rsi_loss_take (prices : list jsval) (m j : nat) :
  (1 <= j < m)%nat → rsi_loss (take m prices) j = rsi_loss prices j.
Proof.
  intros Hj. unfold rsi_loss, rsi_change. by rewrite !arr_at_take by lia.
Qed.

Lemma rsi_start_take (period : nat) (xs : list jsval) (m : nat) :
  (period <= m)%nat → (m <= length xs)%nat →
  rsi_start period (take m xs) = rsi_start period xs.
Proof.
  intros H1 H2. unfold rsi_start.
  rewrite !slice_prefix by (rewrite ?length_take; lia).
  rewrite take_take. by replace (Z.to_nat (Z.of_nat period) `min` m)%nat
    with (Z.to_nat (Z.of_nat period)) by lia.
Qed.

(** The index up to a day does not depend on later days. *)
Lemma calculateRSI_take (prices : list jsval) (period m : nat) :
  (m <= length prices)%nat →
  calculateRSI (take m prices) period
  = take (m - period - 1) (calculateRSI prices period).
Proof.
  intros Hm. destruct (decide (m < period + 1)%nat) as [Hlt|Hge].
  { replace (m - period - 1)%nat with 0%nat by lia. rewrite take_0.
    apply calculateRSI_length. rewrite length_take. lia. }
  rewrite !calculateRSI_unfold by (rewrite ?length_take; lia). cbv zeta.
  rewrite length_take. replace (m `min` length prices)%nat with m by lia.
  set (gains := rsi_gain prices <$> seq 1 (length prices - 1)).
  set (losses := rsi_loss prices <$> seq 1 (length prices - 1)).
  assert (EG : rsi_gain (take m prices) <$> seq 1 (m - 1) = take (m - 1) gains).
  { unfold gains. rewrite take_fmap_seq by lia. apply list_fmap_ext.
    intros k j Hj. apply lookup_seq in Hj as [-> Hk]. apply rsi_gain_take. lia. }
  assert (EL : rsi_loss (take m prices) <$> seq 1 (m - 1) = take (m - 1) losses).
  { unfold losses. rewrite take_fmap_seq by lia. apply list_fmap_ext.
    intros k j Hj. apply lookup_seq in Hj as [-> Hk]. apply rsi_loss_take. lia. }
  rewrite EG, EL.
  rewrite !rsi_start_take
    by (unfold gains, losses; rewrite ?length_fmap, ?length_seq; lia).
  replace (m - period - 1)%nat with (m - 1 - period)%nat by lia.
  apply rsi_loop_take; [lia|lia| |]; intros i Hi; by apply arr_at_take.
Qed.

Lemma rising_gain (prices : list Qc) (j : nat) :
  nth j prices 0 < nth (S j) prices 0 →
  0 < qgain prices (S j) ∧ qloss prices (S j) = 0.
Proof.
  intros H. unfold qgain, qloss, qchange. replace (S j - 1)%nat with j by lia.
  set (a := nth j prices 0) in *. set (b := nth (S j) prices 0) in *.
  assert (Hd : 0 < b - a) by (clearbody a b; qc_lra).
  rewrite bool_decide_eq_true_2 by done.
  rewrite bool_decide_eq_false_2; [done|]. by apply Qcle_not_lt, Qclt_le_weak.
Qed.

Lemma falling_loss (prices : list Qc) (j : nat) :
  nth (S j) prices 0 < nth j prices 0 →
  qgain prices (S j) = 0 ∧ 0 < qloss prices (S j).
Proof.
  intros H. unfold qgain, qloss, qchange. replace (S j - 1)%nat with j by lia.
  set (a := nth j prices 0) in *. set (b := nth (S j) prices 0) in *.
  assert (Hd : b - a < 0) by (clearbody a b; qc_lra).
  rewrite (bool_decide_eq_true_2 (b - a < 0)) by done.
  rewrite bool_decide_eq_false_2 by (by apply Qcle_not_lt, Qclt_le_weak).
  split; [done|]. unfold Qcabs. rewrite bool_decide_eq_true_2 by done.
  clearbody a b. qc_lra.
Qed.

Lemma rsi_value_no_loss (a : Qc) : 0 < a → rsi_value (Fin a) (Fin 0) = num 100.
Proof.
  intros Ha. unfold rsi_value. cbn [js_div]. rewrite decide_True by done.
  unfold inf_times. rewrite decide_False by (by apply Qclt_neq_0).
  rewrite bool_decide_eq_true_2 by done. by vm_compute.
Qed.

Lemma rsi_value_no_gain (b : Qc) : 0 < b → rsi_value (Fin 0) (Fin b) = num 0.
Proof.
  intros Hb. unfold rsi_value. rewrite js_div_fin by (by apply Qclt_neq_0).
  replace (0 / b) with 0 by (field; by apply Qclt_neq_0).
  by vm_compute.
Qed.

(** X13: [calculateRSI] is causal: on the first [m] prices it gives the
    first [m - period - 1] values of what it gives on all the prices; so the
    value of index [k] is the last RSI of the prices up to day
    [period + k + 1]. *)
Theorem calculateRSI_prefix (prices : list jsval) (period : nat) :
  (∀ m, (m <= length prices)%nat →
     calculateRSI (take m prices) period
     = take (m - period - 1) (calculateRSI prices period)) ∧
  (∀ k, (k < length prices - period - 1)%nat →
     let upto := take (period + k + 2) prices in
     length (calculateRSI upto period) = S k ∧
     arr_at (calculateRSI prices period) k
     = arr_at (calculateRSI upto period) k).
Proof.
  split; [intros m Hm; by apply calculateRSI_take|].
  intros k Hk upto. subst upto. split.
  - destruct (calculateRSI_length (take (period + k + 2) prices) period) as [-> _];
      rewrite length_take; lia.
  - rewrite calculateRSI_take by lia. rewrite arr_at_take; [done|lia].
Qed.

(** On prices that only rise, or only fall, up to a day. *)
Lemma calculateRSI_monotone (prices : list Qc) (period k : nat) :
  (1 <= period)%nat → (k < length prices - period - 1)%nat →
  let v := arr_at (calculateRSI (Fin <$> prices) period) k in
  (rising_upto prices (period + k + 1) → v = num 100) ∧
  (falling_upto prices (period + k + 1) → v = num 0).
Proof.
  intros Hp Hk. cbn zeta.
  rewrite calculateRSI_unfold by (rewrite length_fmap; lia).
  cbn zeta. rewrite length_fmap.
  set (G := qgain prices <$> seq 1 (length prices - 1)).
  set (L := qloss prices <$> seq 1 (length prices - 1)).
  assert (EG : rsi_gain (Fin <$> prices) <$> seq 1 (length prices - 1) = Fin <$> G).
  { unfold G. rewrite <- list_fmap_compose. apply list_fmap_ext.
    intros j i Hi. apply lookup_seq in Hi as [-> Hj]. simpl.
    apply rsi_gain_fin. lia. }
  assert (EL : rsi_loss (Fin <$> prices) <$> seq 1 (length prices - 1) = Fin <$> L).
  { unfold L. rewrite <- list_fmap_compose. apply list_fmap_ext.
    intros j i Hi. apply lookup_seq in Hi as [-> Hj]. simpl.
    apply rsi_loss_fin. lia. }
  rewrite EG, EL.
  assert (HlG : length G = (length prices - 1)%nat)
    by (unfold G; by rewrite length_fmap, length_seq).
  assert (HlL : length L = (length prices - 1)%nat)
    by (unfold L; by rewrite length_fmap, length_seq).
  assert (HnG : ∀ i, (i < length prices - 1)%nat → nth i G 0 = qgain prices (S i)).
  { intros i Hi. apply nth_lookup_Some. unfold G.
    by rewrite list_lookup_fmap, lookup_seq_lt by lia. }
  assert (HnL : ∀ i, (i < length prices - 1)%nat → nth i L 0 = qloss prices (S i)).
  { intros i Hi. apply nth_lookup_Some. unfold L.
    by rewrite list_lookup_fmap, lookup_seq_lt by lia. }
  pose proof (rsi_loop_spec
    (λ i g l, ∃ a b : Qc, g = Fin a ∧ l = Fin b ∧ 0 <= a ∧ 0 <= b ∧
       (rising_upto prices i → 0 < a ∧ b = 0) ∧
       (falling_upto prices i → a = 0 ∧ 0 < b))
    (λ k v, (rising_upto prices (period + k + 1) → v = num 100) ∧
            (falling_upto prices (period + k + 1) → v = num 0))
    period (length prices - 1) (Fin <$> G) (Fin <$> L)
    (rsi_start period (Fin <$> G)) (rsi_start period (Fin <$> L))) as Hloop.
  cbn zeta in Hloop.
  assert (HG0 : Forall (λ x, 0 <= x) G).
  { apply Forall_fmap, Forall_forall. intros i _. apply qgain_nonneg. }
  assert (HL0 : Forall (λ x, 0 <= x) L).
  { apply Forall_fmap, Forall_forall. intros i _. apply qloss_nonneg. }
  destruct Hloop as [_ HP]; [lia| | |apply HP; lia].
  - rewrite !rsi_start_fin by lia.
    assert (TG : take period G = qgain prices <$> seq 1 period)
      by (apply take_fmap_seq; lia).
    assert (TL : take period L = qloss prices <$> seq 1 period)
      by (apply take_fmap_seq; lia).
    exists (qstart period G), (qstart period L).
    split; [done|]. split; [done|].
    split; [by apply qstart_nonneg|]. split; [by apply qstart_nonneg|]. split.
    + intros Hr. split.
      * apply qstart_pos; [done|done|]. rewrite TG. apply Exists_exists.
        exists (qgain prices 1). split.
        -- apply list_elem_of_fmap. exists 1%nat. split; [done|].
           apply elem_of_seq. lia.
        -- apply rising_gain, Hr. lia.
      * apply qstart_zero. rewrite TL. apply Forall_fmap, Forall_forall.
        intros j Hj. apply elem_of_seq in Hj. simpl.
        destruct j as [|j]; [lia|]. apply rising_gain, Hr. lia.
    + intros Hf. split.
      * apply qstart_zero. rewrite TG. apply Forall_fmap, Forall_forall.
        intros j Hj. apply elem_of_seq in Hj. simpl.
        destruct j as [|j]; [lia|]. apply falling_loss, Hf. lia.
      * apply qstart_pos; [done|done|]. rewrite TL. apply Exists_exists.
        exists (qloss prices 1). split.
        -- apply list_elem_of_fmap. exists 1%nat. split; [done|].
           apply elem_of_seq. lia.
        -- apply falling_loss, Hf. lia.
  - intros i g l Hi (a & b & -> & -> & Ha & Hb & Hr & Hf).
    rewrite !arr_at_fmap_Fin by lia. rewrite HnG, HnL by lia.
    rewrite !rsi_smooth_fin by done.
    pose proof (qgain_nonneg prices (S i)) as HG.
    pose proof (qloss_nonneg prices (S i)) as HL.
    set (a' := qsmooth period a (qgain prices (S i))).
    set (b' := qsmooth period b (qloss prices (S i))).
    assert (Hr' : rising_upto prices (S i) → 0 < a' ∧ b' = 0).
    { intros H. destruct (Hr (λ j Hj, H j ltac:(lia))) as [Ha1 ->].
      destruct (rising_gain prices i (H i ltac:(lia))) as [Hg Hl].
      unfold a', b'. rewrite Hl. split; [by apply qsmooth_pos_new|].
      by apply qsmooth_zero. }
    assert (Hf' : falling_upto prices (S i) → a' = 0 ∧ 0 < b').
    { intros H. destruct (Hf (λ j Hj, H j ltac:(lia))) as [-> Hb1].
      destruct (falling_loss prices i (H i ltac:(lia))) as [Hg Hl].
      unfold a', b'. rewrite Hg. split; [by apply qsmooth_zero|].
      by apply qsmooth_pos_new. }
    replace (period + (i - period) + 1)%nat with (S i) by lia.
    split.
    + exists a', b'. split; [done|]. split; [done|].
      split; [by apply qsmooth_nonneg|]. split; [by apply qsmooth_nonneg|].
      split; done.
    + split.
      * intros H. destruct (Hr' H) as [Ha' ->]. by apply rsi_value_no_loss.
      * intros H. destruct (Hf' H) as [-> Hb']. by apply rsi_value_no_gain.
Qed.

(** ** The technical analysis of a response *)

Section Slices.

Context {A : Type}.

Lemma slice_from_last (xs : list A) (k : nat) :
  (1 <= k)%nat →
  Pages.slice_from xs (- Z.of_nat k) = drop (length xs - k) xs.
Proof.
  intros Hk. unfold Pages.slice_from, rel_index.
  replace (- Z.of_nat k <? 0)%Z with true by (symmetry; apply Z.ltb_lt; lia).
  f_equal. lia.
Qed.

Lemma slice_from_last_length (xs : list A) (k : nat) :
  (1 <= k)%nat →
  length (Pages.slice_from xs (- Z.of_nat k)) = (k `min` length xs)%nat.
Proof. intros Hk. rewrite slice_from_last, length_drop by done. lia. Qed.

Lemma slice_from_last_lookup (xs : list A) (k j : nat) :
  (1 <= k)%nat →
  Pages.slice_from xs (- Z.of_nat k) !! j = xs !! (length xs - k + j)%nat.
Proof. intros Hk. by rewrite slice_from_last, lookup_drop by done. Qed.

End Slices.

Lemma arr_at_slice_from_last (xs : list jsval) (k j : nat) :
  (1 <= k)%nat →
  arr_at (Pages.slice_from xs (- Z.of_nat k)) j
  = arr_at xs (length xs - k + j).
Proof. intros Hk. unfold arr_at. by rewrite slice_from_last_lookup. Qed.

Lemma arr_at_int_nat (xs : list jsval) (k : Z) :
  (0 <= k)%Z → Pages.arr_at_int xs k = arr_at xs (Z.to_nat k).
Proof.
  intros Hk. unfold Pages.arr_at_int.
  by replace (k <? 0)%Z with false by (symmetry; apply Z.ltb_ge; lia).
Qed.

Lemma calculateMACD_lengths (prices : list jsval) (fast slow sig : nat) :
  (1 <= slow)%nat →
  let r := calculateMACD prices fast slow sig in
  let n := if decide (length prices < slow)%nat then 0%nat else length prices in
  length (macd r) = n ∧ length (signal r) = n ∧ length (histogram r) = n.
Proof.
  intros Hs r n. subst r n. case_decide.
  { unfold calculateMACD. by rewrite decide_True by done. }
  rewrite calculateMACD_unfold by lia. cbv zeta. cbn [macd signal histogram].
  assert (Hne : prices ≠ []) by (intros ->; simpl in *; lia).
  set (macd0 := imap _ (calculateEMA prices fast)).
  assert (Hm : length macd0 = length prices).
  { unfold macd0. by rewrite length_imap, calculateEMA_length. }
  assert (Hne' : macd0 ≠ []).
  { intros E. rewrite E in Hm. destruct prices; [done|simpl in Hm; lia]. }
  by rewrite length_imap, calculateEMA_length, Hm.
Qed.

Lemma calculateBollingerBands_lengths (Math_sqrt : jsval → jsval)
  (prices : list jsval) (period : nat) (stdDev : jsval) :
  (1 <= period)%nat →
  let r := calculateBollingerBands Math_sqrt prices period stdDev in
  let n := if decide (length prices < period)%nat then 0%nat
           else (length prices - period + 1)%nat in
  length (upper r) = n ∧ length (middle r) = n ∧ length (lower r) = n.
Proof.
  intros Hp r n. subst r n. case_decide.
  - unfold calculateBollingerBands. by rewrite decide_True by done.
  - rewrite calculateBollingerBands_unfold by lia. cbv zeta.
    cbn [upper middle lower]. rewrite !length_fmap, !length_seqZ.
    repeat split; lia.
Qed.

Section TechnicalAnalysis.

Variable Math_sqrt : jsval → jsval.

(** X21: what [fetchTechnicalAnalysis] keeps of a history of [n] days: all
    [n] prices and dates; of the RSI its last [min(100, n - 15)] values; of
    the three MACD arrays their last [min(100, n)] values when [n >= 26],
    none otherwise; of the three Bollinger bands their last
    [min(100, n - 19)] values when [n >= 20], none otherwise. *)
Theorem fetchTechnicalAnalysis_lengths (days : list Pages.day)
  (st : Pages.technical_state) :
  let st' := Pages.fetchTechnicalAnalysis Math_sqrt (Some (Some days)) st in
  let n := length days in
  let kept (k : nat) := (100 `min` k)%nat in
  ∃ md ind, Pages.marketData st' = Some md ∧ Pages.indicators st' = Some ind ∧
    length (Pages.prices md) = n ∧ length (Pages.dates md) = n ∧
    length (Pages.rsi ind) = kept (n - 15)%nat ∧
    length (macd (Pages.macd ind))
      = (if decide (n < 26)%nat then 0%nat else kept n) ∧
    length (signal (Pages.macd ind)) = length (macd (Pages.macd ind)) ∧
    length (histogram (Pages.macd ind)) = length (macd (Pages.macd ind)) ∧
    length (upper (Pages.bollinger ind))
      = (if decide (n < 20)%nat then 0%nat else kept (n - 19)%nat) ∧
    length (middle (Pages.bollinger ind)) = length (upper (Pages.bollinger ind)) ∧
    length (lower (Pages.bollinger ind)) = length (upper (Pages.bollinger ind)).
Proof.
  intros st' n kept. subst st'. unfold Pages.fetchTechnicalAnalysis.
  eexists _, _. split; [reflexivity|]. split; [reflexivity|].
  cbn [Pages.prices Pages.dates Pages.rsi Pages.macd Pages.bollinger
       macd signal histogram upper middle lower].
  rewrite !length_fmap. split; [done|]. split; [done|].
  change (-100)%Z with (- Z.of_nat 100)%Z.
  rewrite !slice_from_last_length by lia.
  destruct (calculateMACD_lengths (Pages.close <$> days) default_fast_period
              default_slow_period default_signal_period) as (M1 & M2 & M3);
    [unfold default_slow_period; lia|].
  destruct (calculateBollingerBands_lengths Math_sqrt (Pages.close <$> days)
              default_bollinger_period Undef) as (B1 & B2 & B3);
    [unfold default_bollinger_period; lia|].
  cbv zeta in *. rewrite M1, M2, M3, B1, B2, B3. rewrite length_fmap. fold n.
  unfold default_slow_period, default_bollinger_period, kept.
  destruct (calculateRSI_length (Pages.close <$> days) default_rsi_period)
    as [R1 R2].
  rewrite length_fmap in R1, R2. fold n in R1, R2.
  unfold default_rsi_period in *.
  split.
  { destruct (decide (15 <= n)%nat).
    - rewrite R1 by lia. lia.
    - rewrite R2 by lia. cbn [length]. lia. }
  repeat case_decide; repeat split; lia.
Qed.

(** X22: the RSI trace of [createRSIChart] after [fetchTechnicalAnalysis]
    on [n] days: its [x] are the last [min(100, n)] dates, its [y] the last
    [min(100, n - 15)] RSI values; [x[j]] is the date of day
    [n - min(100, n) + j] and [y[j]] is the RSI of the prices up to day
    [n - min(100, n - 15) + j]. The two days are the same exactly when
    [n >= 115]: with a shorter history every RSI value is drawn at the date
    of an earlier day. *)
Theorem createRSIChart_alignment (days : list Pages.day)
  (st : Pages.technical_state) :
  let st' := Pages.fetchTechnicalAnalysis Math_sqrt (Some (Some days)) st in
  let n := length days in
  let closes := Pages.close <$> days in
  ∃ t1 t2 t3, Pages.createRSIChart st' = Some [t1; t2; t3] ∧
    Pages.x t2 = Pages.x t1 ∧ Pages.x t3 = Pages.x t1 ∧
    length (Pages.x t1) = (100 `min` n)%nat ∧
    length (Pages.y t1) = (100 `min` (n - 15))%nat ∧
    ∀ j, (j < length (Pages.y t1))%nat →
      let dx := (n - 100 `min` n + j)%nat in
      let dy := (n - 100 `min` (n - 15) + j)%nat in
      let upto := take (S dy) closes in
      Pages.x t1 !! j = Pages.date <$> days !! dx ∧
      length (calculateRSI upto default_rsi_period) = (dy - 14)%nat ∧
      arr_at (Pages.y t1) j
        = arr_at (calculateRSI upto default_rsi_period) (dy - 15) ∧
      (dx = dy ↔ (115 <= n)%nat).
Proof.
  intros st' n closes. subst st'.
  unfold Pages.createRSIChart, Pages.fetchTechnicalAnalysis.
  cbn [Pages.indicators Pages.marketData Pages.dates Pages.rsi].
  eexists _, _, _. split; [reflexivity|].
  cbn [Pages.x Pages.y]. split; [done|]. split; [done|].
  change (-100)%Z with (- Z.of_nat 100)%Z.
  rewrite !slice_from_last_length by lia. rewrite length_fmap. fold n closes.
  destruct (calculateRSI_length closes default_rsi_period) as [R1 R2].
  unfold closes in R1, R2. rewrite length_fmap in R1, R2. fold n closes in R1, R2.
  unfold default_rsi_period in *.
  assert (Hlen : length (calculateRSI closes 14) = (n - 15)%nat).
  { destruct (decide (15 <= n)%nat).
    - rewrite R1 by lia. lia.
    - rewrite R2 by lia. cbn [length]. lia. }
  rewrite Hlen. split; [lia|]. split; [done|].
  intros j Hj.
  set (dx := (n - 100 `min` n + j)%nat).
  set (dy := (n - 100 `min` (n - 15) + j)%nat).
  set (upto := take (S dy) closes).
  assert (Hcl : length closes = n) by (unfold closes; by rewrite length_fmap).
  split; [|split; [|split]].
  - rewrite slice_from_last_lookup by lia.
    rewrite length_fmap, list_lookup_fmap. do 2 f_equal. unfold dx, n. lia.
  - destruct (calculateRSI_length upto 14) as [-> _];
      unfold upto; rewrite length_take; lia.
  - rewrite arr_at_slice_from_last by lia. rewrite Hlen.
    unfold upto. rewrite calculateRSI_take by lia.
    rewrite arr_at_take by lia. f_equal. lia.
  - unfold dx, dy. lia.
Qed.

(** What [getMACDSignal] compares, on finite values. *)
Lemma getMACDSignal_fin (st : Pages.technical_state)
  (ind : Pages.indicators_data) (ms gs : list Qc) :
  Pages.indicators st = Some ind →
  macd (Pages.macd ind) = Fin <$> ms → signal (Pages.macd ind) = Fin <$> gs →
  length gs = length ms → (2 <= length ms)%nat →
  let a := nth (length ms - 1) ms 0 in
  let b := nth (length ms - 1) gs 0 in
  let a0 := nth (length ms - 2) ms 0 in
  let b0 := nth (length ms - 2) gs 0 in
  Pages.getMACDSignal st
  = if bool_decide (b < a) && bool_decide (a0 <= b0)
    then "Bullish Crossover"%string
    else if bool_decide (a < b) && bool_decide (b0 <= a0)
    then "Bearish Crossover"%string
    else "No Signal"%string.
Proof.
  intros Hind Hm Hg Hl Hn a b a0 b0. unfold Pages.getMACDSignal.
  rewrite Hind, Hm, Hg, !length_fmap, Hl. rewrite decide_False by lia.
  rewrite !arr_at_int_nat by lia.
  replace (Z.to_nat (Z.of_nat (length ms) - 1)) with (length ms - 1)%nat by lia.
  replace (Z.to_nat (Z.of_nat (length ms) - 2)) with (length ms - 2)%nat by lia.
  rewrite !arr_at_fmap_Fin by lia. done.
Qed.

Lemma fmap_slice_from_last (l : list Qc) (k : nat) :
  (1 <= k)%nat →
  Pages.slice_from (Fin <$> l) (- Z.of_nat k) = Fin <$> drop (length l - k) l.
Proof.
  intros Hk. by rewrite slice_from_last, length_fmap, fmap_drop by done.
Qed.

Lemma nth_drop_Qc (l : list Qc) (k i : nat) :
  nth i (drop k l) 0 = nth (k + i) l 0.
Proof.
  destruct (decide (k + i < length l)%nat) as [H|H].
  - destruct (lookup_lt_is_Some_2 l (k + i) H) as [x Hx].
    rewrite (nth_lookup_Some _ _ 0 _ Hx). apply nth_lookup_Some.
    by rewrite lookup_drop.
  - rewrite !nth_overflow; [done|lia|rewrite length_drop; lia].
Qed.

Lemma nth_zip_with_minus (xs ys : list Qc) (i : nat) :
  (i < length xs)%nat → (i < length ys)%nat →
  nth i (zip_with Qcminus xs ys) 0 = nth i xs 0 - nth i ys 0.
Proof.
  intros Hx Hy.
  destruct (lookup_lt_is_Some_2 xs i Hx) as [x Ex].
  destruct (lookup_lt_is_Some_2 ys i Hy) as [y Ey].
  rewrite (nth_lookup_Some _ _ 0 _ Ex), (nth_lookup_Some _ _ 0 _ Ey).
  apply nth_lookup_Some. by rewrite lookup_zip_with, Ex, Ey.
Qed.

(** X23: after [fetchTechnicalAnalysis] on at least 26 days of finite
    prices, [getMACDSignal] reads the last two bars of the kept histogram:
    it is "Bullish Crossover" exactly when the last bar is positive and the
    one before is not, and "Bearish Crossover" exactly when the last bar is
    negative and the one before is not. *)
Theorem getMACDSignal_histogram (days : list Pages.day) (prices : list Qc)
  (st : Pages.technical_state) :
  Pages.close <$> days = Fin <$> prices → (26 <= length days)%nat →
  let st' := Pages.fetchTechnicalAnalysis Math_sqrt (Some (Some days)) st in
  ∃ ind, Pages.indicators st' = Some ind ∧
    let h := histogram (Pages.macd ind) in
    let last := arr_at h (length h - 1) in
    let prev := arr_at h (length h - 2) in
    (2 <= length h)%nat ∧
    (Pages.getMACDSignal st' = "Bullish Crossover"%string
       ↔ js_gt last (num 0) = true ∧ js_le prev (num 0) = true) ∧
    (Pages.getMACDSignal st' = "Bearish Crossover"%string
       ↔ js_lt last (num 0) = true ∧ js_le (num 0) prev = true).
Proof.
  intros Hc Hn st'.
  assert (Hlp : length prices = length days).
  { rewrite <- (length_fmap Fin prices), <- Hc. by rewrite length_fmap. }
  assert (Hne : prices ≠ []) by (intros ->; simpl in Hlp; lia).
  destruct (calculateMACD_fin prices default_fast_period default_slow_period
              default_signal_period Hne)
    as (fs & ss & gs & _ & _ & Hlf & Hls & Hlg & _ & E);
    [unfold default_slow_period; lia|].
  set (ms := zip_with Qcminus fs ss) in *.
  assert (Hlm : length ms = length prices).
  { unfold ms. rewrite length_zip_with. lia. }
  set (n := length prices) in *.
  assert (Hind : ∃ ind, Pages.indicators st' = Some ind ∧
    macd (Pages.macd ind) = Fin <$> drop (n - 100) ms ∧
    signal (Pages.macd ind) = Fin <$> drop (n - 100) gs ∧
    histogram (Pages.macd ind)
      = Fin <$> drop (n - 100) (zip_with Qcminus ms gs)).
  { eexists. split; [reflexivity|]. cbn [Pages.macd macd signal histogram].
    rewrite Hc, E. cbn [macd signal histogram].
    change (-100)%Z with (- Z.of_nat 100)%Z.
    rewrite !fmap_slice_from_last by lia.
    by rewrite length_zip_with, Hlm, Hlg, Nat.min_id. }
  destruct Hind as (ind & Hind & Hm & Hg & Hh).
  exists ind. split; [exact Hind|]. cbv zeta. rewrite Hh.
  rewrite length_fmap, length_drop, length_zip_with, Hlm, Hlg, Nat.min_id.
  set (L := (n - (n - 100))%nat).
  assert (HL : (2 <= L)%nat) by (unfold L; lia).
  split; [done|].
  rewrite !arr_at_fmap_Fin by (rewrite length_drop, !length_zip_with; lia).
  rewrite !nth_drop_Qc, !nth_zip_with_minus by lia.
  rewrite (getMACDSignal_fin st' ind (drop (n - 100) ms) (drop (n - 100) gs)
             Hind Hm Hg) by (rewrite !length_drop; lia).
  cbv zeta. rewrite length_drop, Hlm. fold L. rewrite !nth_drop_Qc.
  set (a := nth (n - 100 + (L - 1)) ms 0).
  set (b := nth (n - 100 + (L - 1)) gs 0).
  set (a0 := nth (n - 100 + (L - 2)) ms 0).
  set (b0 := nth (n - 100 + (L - 2)) gs 0).
  clearbody a b a0 b0. cbn [js_gt js_lt js_le num].
  change (Q2Qc (inject_Z 0)) with (Q2Qc 0).
  assert (E1 : bool_decide (0 < a - b) = bool_decide (b < a))
    by (apply bool_decide_ext; split; intros; qc_lra).
  assert (E2 : bool_decide (a - b < 0) = bool_decide (a < b))
    by (apply bool_decide_ext; split; intros; qc_lra).
  assert (E3 : bool_decide (a0 - b0 <= 0) = bool_decide (a0 <= b0))
    by (apply bool_decide_ext; split; intros; qc_lra).
  assert (E4 : bool_decide (0 <= a0 - b0) = bool_decide (b0 <= a0))
    by (apply bool_decide_ext; split; intros; qc_lra).
  rewrite E1, E2, E3, E4.
  assert (Hex : ¬ (b < a ∧ a < b)) by (intros [? ?]; qc_lra).
  split; split.
  - destruct (bool_decide (b < a)), (bool_decide (a0 <= b0)); simpl; try done;
      destruct (bool_decide (a < b)), (bool_decide (b0 <= a0)); simpl; done.
  - intros [-> ->]. done.
  - destruct (bool_decide (b < a)) eqn:B1, (bool_decide (a0 <= b0)); simpl;
      try done;
      destruct (bool_decide (a < b)) eqn:B2, (bool_decide (b0 <= a0)); simpl;
      done.
  - intros [H1 ->]. rewrite H1. simpl.
    rewrite bool_decide_eq_false_2; [done|].
    apply bool_decide_eq_true in H1. intros ?. by apply Hex.
Qed.

Lemma Forall_arr_at (P : jsval → Prop) (l : list jsval) :
  (∀ i, (i < length l)%nat → P (arr_at l i)) → Forall P l.
Proof.
  intros H. apply Forall_lookup. intros i x Hx.
  specialize (H i (lookup_lt_Some _ _ _ Hx)). unfold arr_at in H.
  by rewrite Hx in H.
Qed.

(** What [getRSISignal] compares. *)
Lemma getRSISignal_last (st : Pages.technical_state)
  (ind : Pages.indicators_data) :
  Pages.indicators st = Some ind → Pages.rsi ind ≠ [] →
  let currentRSI := arr_at (Pages.rsi ind) (length (Pages.rsi ind) - 1) in
  Pages.getRSISignal st
  = if js_gt currentRSI (num 70) then "Overbought"%string
    else if js_lt currentRSI (num 30) then "Oversold"%string
    else "Neutral"%string.
Proof.
  intros Hind Hne. unfold Pages.getRSISignal. rewrite Hind.
  rewrite decide_False; [done|]. by destruct (Pages.rsi ind).
Qed.

Lemma closes_flat (days : list Pages.day) (c : Qc) :
  Forall (λ d, Pages.close d = Fin c) days →
  Pages.close <$> days = Fin <$> replicate (length days) c.
Proof.
  induction 1 as [|d days Hd _ IH]; [done|].
  cbn [length]. by rewrite replicate_S, !fmap_cons, Hd, IH.
Qed.

(** X24: a market that does not move: after [fetchTechnicalAnalysis] on at
    least 16 days with the same finite closing price there are RSI values,
    every one of them is [NaN] (each change is [0], so the average gain and
    the average loss are [0] and their quotient is [0 / 0]), and
    [getRSISignal] is "Neutral". *)
Theorem fetchTechnicalAnalysis_flat (days : list Pages.day) (c : Qc)
  (st : Pages.technical_state) :
  Forall (λ d, Pages.close d = Fin c) days → (16 <= length days)%nat →
  let st' := Pages.fetchTechnicalAnalysis Math_sqrt (Some (Some days)) st in
  ∃ ind, Pages.indicators st' = Some ind ∧
    Pages.rsi ind ≠ [] ∧ Forall (λ v, v = NaN) (Pages.rsi ind) ∧
    Pages.getRSISignal st' = "Neutral"%string.
Proof.
  intros Hflat Hn st'. set (n := length days) in *.
  pose proof (closes_flat days c Hflat) as Hc. fold n in Hc.
  assert (Hind : ∃ ind, Pages.indicators st' = Some ind ∧
    Pages.rsi ind
      = Pages.slice_from (calculateRSI (Fin <$> replicate n c) default_rsi_period)
          (- Z.of_nat 100)).
  { eexists. split; [reflexivity|]. cbn [Pages.rsi]. by rewrite Hc. }
  destruct Hind as (ind & Hind & Hr).
  exists ind. split; [exact Hind|].
  destruct (calculateRSI_length (Fin <$> replicate n c) default_rsi_period)
    as [Rl _].
  rewrite length_fmap, length_replicate in Rl. unfold default_rsi_period in *.
  specialize (Rl ltac:(lia)).
  assert (Hrl : length (Pages.rsi ind) = (100 `min` (n - 15))%nat).
  { rewrite Hr, slice_from_last_length by lia. rewrite Rl. lia. }
  assert (Hrne : Pages.rsi ind ≠ []).
  { intros E0. rewrite E0 in Hrl. cbn [length] in Hrl. lia. }
  assert (Hnan : ∀ i, (i < length (Pages.rsi ind))%nat →
    arr_at (Pages.rsi ind) i = NaN).
  { intros i Hi. rewrite Hr, arr_at_slice_from_last by lia.
    apply calculateRSI_flat; lia. }
  split; [exact Hrne|]. split; [by apply Forall_arr_at|].
  rewrite (getRSISignal_last st' ind Hind Hrne). cbv zeta.
  by rewrite Hnan by lia.
Qed.

(** X25: a market that only moves one way: after [fetchTechnicalAnalysis]
    on at least 16 days of finite prices, if every price is above the one
    before then every kept RSI value is [100] and [getRSISignal] is
    "Overbought"; if every price is below the one before then every kept
    RSI value is [0] and [getRSISignal] is "Oversold". *)
Theorem fetchTechnicalAnalysis_trend (days : list Pages.day)
  (prices : list Qc) (st : Pages.technical_state) :
  Pages.close <$> days = Fin <$> prices → (16 <= length days)%nat →
  let st' := Pages.fetchTechnicalAnalysis Math_sqrt (Some (Some days)) st in
  ∃ ind, Pages.indicators st' = Some ind ∧ Pages.rsi ind ≠ [] ∧
    (rising_upto prices (length prices - 1) →
       Forall (λ v, v = num 100) (Pages.rsi ind) ∧
       Pages.getRSISignal st' = "Overbought"%string) ∧
    (falling_upto prices (length prices - 1) →
       Forall (λ v, v = num 0) (Pages.rsi ind) ∧
       Pages.getRSISignal st' = "Oversold"%string).
Proof.
  intros Hc Hn st'.
  assert (Hlp : length prices = length days).
  { rewrite <- (length_fmap Fin prices), <- Hc. by rewrite length_fmap. }
  set (n := length prices) in *.
  assert (Hind : ∃ ind, Pages.indicators st' = Some ind ∧
    Pages.rsi ind
      = Pages.slice_from (calculateRSI (Fin <$> prices) default_rsi_period)
          (- Z.of_nat 100)).
  { eexists. split; [reflexivity|]. cbn [Pages.rsi]. by rewrite Hc. }
  destruct Hind as (ind & Hind & Hr).
  exists ind. split; [exact Hind|].
  destruct (calculateRSI_length (Fin <$> prices) default_rsi_period) as [Rl _].
  rewrite length_fmap in Rl. fold n in Rl. unfold default_rsi_period in *.
  specialize (Rl ltac:(lia)).
  assert (Hrl : length (Pages.rsi ind) = (100 `min` (n - 15))%nat).
  { rewrite Hr, slice_from_last_length by lia. rewrite Rl. lia. }
  assert (Hrne : Pages.rsi ind ≠ []).
  { intros E0. rewrite E0 in Hrl. cbn [length] in Hrl. lia. }
  split; [exact Hrne|].
  assert (Hval : ∀ i, (i < length (Pages.rsi ind))%nat →
    (rising_upto prices (n - 1) → arr_at (Pages.rsi ind) i = num 100) ∧
    (falling_upto prices (n - 1) → arr_at (Pages.rsi ind) i = num 0)).
  { intros i Hi. rewrite Hr, arr_at_slice_from_last by lia. rewrite Rl.
    destruct (calculateRSI_monotone prices 14 (n - 14 - 1 - 100 + i))
      as [Hup Hdown]; [lia|fold n; lia|].
    cbv zeta in Hup, Hdown.
    split; intros H; [apply Hup|apply Hdown]; intros j Hj; apply H; lia. }
  split; intros H.
  - split; [apply Forall_arr_at; intros i Hi; by apply Hval|].
    rewrite (getRSISignal_last st' ind Hind Hrne). cbv zeta.
    destruct (Hval (length (Pages.rsi ind) - 1)%nat ltac:(lia)) as [-> _]; done.
  - split; [apply Forall_arr_at; intros i Hi; by apply Hval|].
    rewrite (getRSISignal_last st' ind Hind Hrne). cbv zeta.
    destruct (Hval (length (Pages.rsi ind) - 1)%nat ltac:(lia)) as [_ ->]; done.
Qed.

End TechnicalAnalysis.

(** ** The grade of a drawdown *)

Lemma drawdown_between_ge (prices : list Qc) (i j : nat) (t : Qc) :
  Forall (λ p, 0 < p) prices → (i < length prices)%nat →
  t <= drawdown_between prices i j
  ↔ nth j prices 0 <= (1 - t) * nth i prices 0.
Proof.
  intros Hpos Hi. unfold drawdown_between.
  pose proof (nth_Forall_pos prices i Hpos Hi) as Ha.
  set (a := nth i prices 0) in *. set (b := nth j prices 0) in *.
  clearbody a b. split; intros H.
  - assert (E : b = a - (a - b) / a * a) by (field; by apply Qclt_neq_0).
    rewrite E. set (d := (a - b) / a) in *. clearbody d. clear E.
    qc_unfold. change (Qred 0) with 0%Q in *. change (Qred 1) with 1%Q in *. nra.
  - qc_unfold. change (Qred 0) with 0%Q in *. change (Qred 1) with 1%Q in *.
    apply Qle_shift_div_l; [done|]. nra.
Qed.

(** X26: what the grade of the maximum drawdown says about strictly
    positive prices: [getRiskLevel] grades [calculateMaxDrawdown] "High"
    exactly when some price is at most 80% of an earlier one, and "Low"
    exactly when every price is above 90% of every earlier one. *)
Theorem getRiskLevel_maxDrawdown (prices : list Qc) :
  prices ≠ [] → Forall (λ p, 0 < p) prices →
  let grade :=
    Pages.level
      (Pages.getRiskLevel (calculateMaxDrawdown (Fin <$> prices)) "maxDrawdown") in
  (grade = "High"%string
     ↔ ∃ i j, (i < j < length prices)%nat ∧
         nth j prices 0 <= Q2Qc (8 # 10) * nth i prices 0) ∧
  (grade = "Low"%string
     ↔ ∀ i j, (i < j < length prices)%nat →
         Q2Qc (9 # 10) * nth i prices 0 < nth j prices 0).
Proof.
  intros Hne Hpos grade. subst grade.
  destruct (calculateMaxDrawdown_is_max prices Hne Hpos) as (d & -> & H0 & Hub & Hat).
  unfold Pages.getRiskLevel. rewrite decide_False by done.
  rewrite decide_True by done. cbn [js_lt ratio].
  assert (E8 : 1 - Q2Qc (2 # 10) = Q2Qc (8 # 10)) by (by apply Qc_is_canon).
  assert (E9 : 1 - Q2Qc (1 # 10) = Q2Qc (9 # 10)) by (by apply Qc_is_canon).
  assert (H12 : Q2Qc (1 # 10) < Q2Qc (2 # 10)) by (by vm_compute).
  assert (H01 : 0 < Q2Qc (1 # 10)) by (by vm_compute).
  split.
  - split.
    + intros Hg.
      assert (Hd : Q2Qc (2 # 10) <= d).
      { apply Qcnot_lt_le. intros Hlt.
        rewrite (bool_decide_eq_true_2 (d < Q2Qc (2 # 10))) in Hg by done.
        by destruct (bool_decide (d < Q2Qc (1 # 10))). }
      destruct Hat as [->|(i & j & Hij & ->)].
      { exfalso. revert Hd. by vm_compute. }
      exists i, j. split; [done|]. rewrite <- E8.
      apply drawdown_between_ge; [done|lia|done].
    + intros (i & j & Hij & Hle).
      assert (Hd : Q2Qc (2 # 10) <= d).
      { eapply Qcle_trans; [|apply (Hub i j Hij)].
        apply drawdown_between_ge; [done|lia|]. by rewrite E8. }
      rewrite (bool_decide_eq_false_2 (d < Q2Qc (1 # 10))).
      2:{ apply Qcle_not_lt. eapply Qcle_trans; [|exact Hd].
          by apply Qclt_le_weak. }
      rewrite bool_decide_eq_false_2 by (by apply Qcle_not_lt). done.
  - split.
    + intros Hg i j Hij.
      assert (Hd : d < Q2Qc (1 # 10)).
      { apply Qcnot_le_lt. intros Hle.
        rewrite (bool_decide_eq_false_2 (d < Q2Qc (1 # 10))) in Hg
          by (by apply Qcle_not_lt).
        by destruct (bool_decide (d < Q2Qc (2 # 10))). }
      apply Qcnot_le_lt. intros Hle. rewrite <- E9 in Hle.
      apply drawdown_between_ge in Hle; [|done|lia].
      apply (Qclt_not_le _ _ Hd). eapply Qcle_trans; [exact Hle|]. by apply Hub.
    + intros Hall.
      assert (Hd : d < Q2Qc (1 # 10)).
      { destruct Hat as [->|(i & j & Hij & ->)]; [done|].
        apply Qcnot_le_lt. intros Hle.
        apply drawdown_between_ge in Hle; [|done|lia]. rewrite E9 in Hle.
        by apply (Qclt_not_le _ _ (Hall i j Hij)). }
      by rewrite bool_decide_eq_true_2.
Qed.

(** ** The charts *)

Section Charts.

Variable Math_sqrt : jsval → jsval.

(** X27: the traces of [createMACDChart] after [fetchTechnicalAnalysis] on
    [n >= 26] days are drawn at their own dates: the dates and the three
    arrays all have [min(100, n)] points, the point [j] belongs to day
    [d = n - min(100, n) + j], its MACD value is the fast EMA less the slow
    EMA of the prices up to day [d], and its histogram value is the MACD
    value less the signal value. *)
Theorem createMACDChart_alignment (days : list Pages.day)
  (st : Pages.technical_state) :
  (26 <= length days)%nat →
  let st' := Pages.fetchTechnicalAnalysis Math_sqrt (Some (Some days)) st in
  let n := length days in
  let closes := Pages.close <$> days in
  ∃ t1 t2 t3, Pages.createMACDChart st' = Some [t1; t2; t3] ∧
    Pages.x t2 = Pages.x t1 ∧ Pages.x t3 = Pages.x t1 ∧
    length (Pages.x t1) = (100 `min` n)%nat ∧
    length (Pages.y t1) = (100 `min` n)%nat ∧
    length (Pages.y t2) = (100 `min` n)%nat ∧
    length (Pages.y t3) = (100 `min` n)%nat ∧
    ∀ j, (j < 100 `min` n)%nat →
      let d := (n - 100 `min` n + j)%nat in
      let upto := take (S d) closes in
      Pages.x t1 !! j = Pages.date <$> days !! d ∧
      arr_at (Pages.y t1) j
        = (arr_at (calculateEMA upto default_fast_period) d
           - arr_at (calculateEMA upto default_slow_period) d)%js ∧
      arr_at (Pages.y t3) j = (arr_at (Pages.y t1) j - arr_at (Pages.y t2) j)%js.
Proof.
  intros Hn st' n closes. subst st'.
  unfold Pages.createMACDChart, Pages.fetchTechnicalAnalysis.
  cbn [Pages.indicators Pages.marketData Pages.dates Pages.macd
       macd signal histogram].
  eexists _, _, _. split; [reflexivity|].
  cbn [Pages.x Pages.y]. split; [done|]. split; [done|].
  fold closes.
  assert (Hcl : length closes = n) by (unfold closes; by rewrite length_fmap).
  destruct (calculateMACD_lengths closes default_fast_period default_slow_period
              default_signal_period) as (M1 & M2 & M3);
    [unfold default_slow_period; lia|].
  cbv zeta in M1, M2, M3. rewrite Hcl in M1, M2, M3.
  rewrite decide_False in M1, M2, M3 by (unfold default_slow_period; lia).
  change (-100)%Z with (- Z.of_nat 100)%Z.
  rewrite !slice_from_last_length by lia.
  rewrite M1, M2, M3, length_fmap. fold n.
  repeat (split; [done|]).
  intros j Hj.
  set (d := (n - 100 `min` n + j)%nat).
  split; [|split].
  - rewrite slice_from_last_lookup by lia.
    rewrite length_fmap, list_lookup_fmap. do 2 f_equal. unfold d, n. lia.
  - rewrite arr_at_slice_from_last, M1 by lia.
    replace (n - 100 + j)%nat with d by (unfold d; lia).
    rewrite calculateMACD_unfold by (rewrite Hcl; unfold default_slow_period; lia).
    cbv zeta. cbn [macd].
    assert (Hne : closes ≠ []) by (intros E; rewrite E in Hcl; simpl in Hcl; lia).
    rewrite arr_at_imap by (rewrite calculateEMA_length, Hcl by done; unfold d; lia).
    rewrite !calculateEMA_take by lia.
    by rewrite !arr_at_take by lia.
  - rewrite !arr_at_slice_from_last, M1, M2, M3 by lia.
    rewrite calculateMACD_unfold by (rewrite Hcl; unfold default_slow_period; lia).
    cbv zeta. cbn [macd signal histogram].
    set (macd0 := imap _ (calculateEMA closes default_fast_period)).
    assert (Hne : closes ≠ []) by (intros E; rewrite E in Hcl; simpl in Hcl; lia).
    assert (Hm : length macd0 = n).
    { unfold macd0. by rewrite length_imap, calculateEMA_length, Hcl. }
    by rewrite arr_at_imap by lia.
Qed.

(** X28: the traces of [createBollingerBandsChart] after
    [fetchTechnicalAnalysis] on [n >= 20] days: the price trace has the
    last [min(100, n)] prices at their own dates, but the three bands have
    [min(100, n - 19)] points; the middle band at point [j] is what the
    routine computes from the 20 prices that end at day
    [n - min(100, n - 19) + j], their sum from left to right over the
    period, drawn at the date of day [n - min(100, n) + j].  The two days
    are the same exactly when [n >= 119]: with a shorter history the bands
    are drawn 19 days (or [119 - n] days) before the prices they
    average. *)
Theorem createBollingerBandsChart_alignment (days : list Pages.day)
  (st : Pages.technical_state) :
  (20 <= length days)%nat →
  let st' := Pages.fetchTechnicalAnalysis Math_sqrt (Some (Some days)) st in
  let n := length days in
  let closes := Pages.close <$> days in
  ∃ p u m l, Pages.createBollingerBandsChart st' = Some [p; u; m; l] ∧
    Pages.x u = Pages.x p ∧ Pages.x m = Pages.x p ∧ Pages.x l = Pages.x p ∧
    length (Pages.x p) = (100 `min` n)%nat ∧
    length (Pages.y p) = (100 `min` n)%nat ∧
    length (Pages.y u) = (100 `min` (n - 19))%nat ∧
    length (Pages.y m) = (100 `min` (n - 19))%nat ∧
    length (Pages.y l) = (100 `min` (n - 19))%nat ∧
    ∀ j, (j < 100 `min` (n - 19))%nat →
      let dx := (n - 100 `min` n + j)%nat in
      let dy := (n - 100 `min` (n - 19) + j)%nat in
      Pages.x p !! j = Pages.date <$> days !! dx ∧
      arr_at (Pages.y p) j = arr_at closes dx ∧
      arr_at (Pages.y m) j
        = (reduce (λ a b, a + b) (num 0) (take 20 (drop (dy - 19) closes))
           / of_nat default_bollinger_period)%js ∧
      (dx = dy ↔ (119 <= n)%nat).
Proof.
  intros Hn st' n closes. subst st'.
  unfold Pages.createBollingerBandsChart, Pages.fetchTechnicalAnalysis.
  cbn [Pages.indicators Pages.marketData Pages.dates Pages.prices
       Pages.bollinger upper middle lower].
  eexists _, _, _, _. split; [reflexivity|].
  cbn [Pages.x Pages.y]. repeat (split; [done|]).
  fold closes.
  assert (Hlp : length closes = n) by (unfold closes; by rewrite length_fmap).
  destruct (calculateBollingerBands_lengths Math_sqrt closes
              default_bollinger_period Undef) as (B1 & B2 & B3);
    [unfold default_bollinger_period; lia|].
  cbv zeta in B1, B2, B3. rewrite Hlp in B1, B2, B3.
  unfold default_bollinger_period in *.
  rewrite decide_False in B1, B2, B3 by lia.
  change (-100)%Z with (- Z.of_nat 100)%Z.
  rewrite !slice_from_last_length by lia.
  rewrite B1, B2, B3, length_fmap, Hlp. fold n.
  split; [done|]. split; [done|].
  split; [lia|]. split; [lia|]. split; [lia|].
  intros j Hj.
  set (dx := (n - 100 `min` n + j)%nat).
  set (dy := (n - 100 `min` (n - 19) + j)%nat).
  split; [|split; [|split]].
  - rewrite slice_from_last_lookup by lia.
    rewrite length_fmap, list_lookup_fmap. do 2 f_equal. unfold dx, n. lia.
  - rewrite arr_at_slice_from_last, Hlp by lia. f_equal. unfold dx. lia.
  - rewrite arr_at_slice_from_last, B2 by lia.
    rewrite calculateBollingerBands_unfold by lia.
    cbv zeta. cbn [middle]. unfold arr_at.
    rewrite list_lookup_fmap, lookup_seqZ_lt by lia.
    cbn [fmap option_fmap option_map default].
    unfold bb_mean, bb_slice. rewrite slice_range by lia.
    unfold id. do 2 f_equal. f_equal; [lia|].
    f_equal. unfold dy. lia.
  - unfold dx, dy. lia.
Qed.

End Charts.

(** ** Instances *)

Lemma VaR_CVaR_order_independent_witness :
  let returns1 := [Q2Qc (2 # 1); Q2Qc (1 # 1)] in
  let returns2 := [Q2Qc (1 # 1); Q2Qc (2 # 1)] in
  calculateVaR (Fin <$> returns1) (ratio 1 2)
    = calculateVaR (Fin <$> returns2) (ratio 1 2) ∧
  calculateCVaR (Fin <$> returns1) (ratio 1 2)
    = calculateCVaR (Fin <$> returns2) (ratio 1 2).
Proof.
  intros returns1 returns2.
  apply (VaR_CVaR_order_independent returns1 returns2 (ratio 1 2)).
  apply perm_swap.
Defined.

Lemma fetchRiskAnalysis_rows_witness :
  let data := [("AAPL"%string, Some [num 1; num 2]);
               ("__proto__"%string, Some [num 1; num 2]);
               ("MSFT"%string, None)] in
  let st := {| Pages.riskMetrics := None; Pages.correlationMatrix := None |} in
  let st' := Pages.fetchRiskAnalysis sqrt_floor ["AAPL"%string] (Some data) st in
  ∃ rows, Pages.riskMetrics st' = Some rows ∧ rows.*1 = ["AAPL"%string].
Proof.
  intros data st st'.
  destruct (fetchRiskAnalysis_rows sqrt_floor ["AAPL"%string] data st)
    as (rows & E & Hk & _).
  - discriminate.
  - refine (bool_decide_unpack _ _). by vm_compute.
  - by exists rows.
Defined.

Lemma fetchRiskAnalysis_matrix_witness :
  let data := [("AAPL"%string, Some [num 1; num 2; num 4]);
               ("__proto__"%string, Some [num 1; num 2]);
               ("MSFT"%string, Some [num 3; num 2; num 1])] in
  let matrix0 := {| matrix := [[num 1]]; symbols := ["GOOG"%string] |} in
  let st := {| Pages.riskMetrics := None;
               Pages.correlationMatrix := Some matrix0 |} in
  ∃ c,
    Pages.correlationMatrix
      (Pages.fetchRiskAnalysis sqrt_floor ["AAPL"%string] (Some data) st)
    = Some c ∧
    symbols c = ["AAPL"%string; "MSFT"%string] ∧
    matrix_at (matrix c) 0 0 = num 1 ∧
    matrix_at (matrix c) 0 1
    = calculateCorrelation sqrt_floor [num 1; num 2; num 4]
        [num 3; num 2; num 1].
Proof.
  intros data matrix0 st.
  destruct (proj2 (fetchRiskAnalysis_matrix sqrt_floor ["AAPL"%string] data st
                     ltac:(discriminate)
                     ltac:(refine (bool_decide_unpack _ _); by vm_compute)))
    as (c & E & Hs & Hm).
  - vm_compute. lia.
  - exists c. split; [exact E|]. split; [exact Hs|]. split.
    + apply (Hm 0%nat 0%nat); vm_compute; lia.
    + apply (Hm 0%nat 1%nat); vm_compute; lia.
Defined.

Lemma fetchRiskAnalysis_one_day_witness :
  let data := [("AAPL"%string, Some [num 5])] in
  ∃ m, metrics_of sqrt_floor data "AAPL" = Some m ∧
    Pages.volatility m = NaN ∧ Pages.sharpeRatio m = num 0.
Proof.
  intros data.
  destruct (fetchRiskAnalysis_one_day sqrt_floor data "AAPL" (num 5))
    as (m & E & _ & _ & _ & _ & _ & Hs & Hv & _).
  - reflexivity.
  - reflexivity.
  - by exists m.
Defined.

Lemma calculateMACD_prefix_witness :
  let prices := [num 1; num 2; num 3] in
  let r := calculateMACD prices 1 2 1 in
  calculateMACD (take 2 prices) 1 2 1
  = {| macd := take 2 (macd r); signal := take 2 (signal r);
       histogram := take 2 (histogram r) |}.
Proof.
  intros prices r.
  apply (calculateMACD_prefix prices 1 2 1 2); simpl; lia.
Defined.

Lemma calculateRSI_prefix_witness :
  let prices := [num 1; num 2; num 3; num 3] in
  calculateRSI (take 3 prices) 1 = take 1 (calculateRSI prices 1).
Proof.
  intros prices. apply (proj1 (calculateRSI_prefix prices 1) 3%nat).
  simpl. lia.
Defined.

Lemma getMACDSignal_histogram_witness :
  let prices := Q2Qc ∘ inject_Z ∘ Z.of_nat <$> seq 1 26 in
  let days := (λ p, {| Pages.date := "d"; Pages.close := Fin p |}) <$> prices in
  let st := {| Pages.marketData := None; Pages.indicators := None |} in
  ∃ ind,
    Pages.indicators
      (Pages.fetchTechnicalAnalysis sqrt_floor (Some (Some days)) st)
    = Some ind ∧
    (2 <= length (histogram (Pages.macd ind)))%nat.
Proof.
  intros prices days st.
  destruct (getMACDSignal_histogram sqrt_floor days prices st)
    as (ind & E & Hl & _).
  - unfold days. rewrite <- list_fmap_compose. reflexivity.
  - unfold days, prices. rewrite !length_fmap, length_seq. lia.
  - by exists ind.
Defined.

Lemma fetchTechnicalAnalysis_flat_witness :
  let days :=
    replicate 16 {| Pages.date := "d"; Pages.close := Fin (Q2Qc (7 # 1)) |} in
  let st := {| Pages.marketData := None; Pages.indicators := None |} in
  let st' := Pages.fetchTechnicalAnalysis sqrt_floor (Some (Some days)) st in
  Pages.getRSISignal st' = "Neutral"%string.
Proof.
  intros days st st'.
  destruct (fetchTechnicalAnalysis_flat sqrt_floor days (Q2Qc (7 # 1)) st)
    as (ind & _ & _ & _ & H1).
  - by apply Forall_replicate.
  - unfold days. rewrite length_replicate. lia.
  - exact H1.
Defined.

Lemma fetchTechnicalAnalysis_trend_witness :
  let prices := Q2Qc ∘ inject_Z ∘ Z.of_nat <$> seq 1 16 in
  let days := (λ p, {| Pages.date := "d"; Pages.close := Fin p |}) <$> prices in
  let st := {| Pages.marketData := None; Pages.indicators := None |} in
  Pages.getRSISignal
    (Pages.fetchTechnicalAnalysis sqrt_floor (Some (Some days)) st)
  = "Overbought"%string.
Proof.
  intros prices days st.
  destruct (fetchTechnicalAnalysis_trend sqrt_floor days prices st)
    as (ind & _ & _ & Hup & _).
  - unfold days. rewrite <- list_fmap_compose. reflexivity.
  - unfold days, prices. rewrite !length_fmap, length_seq. lia.
  - apply Hup. intros j Hj. unfold prices in Hj.
    rewrite length_fmap, length_seq in Hj.
    do 15 (destruct j as [|j]; [by vm_compute|]). lia.
Defined.

Lemma getRiskLevel_maxDrawdown_witness :
  let prices := [Q2Qc (10 # 1); Q2Qc (12 # 1); Q2Qc (9 # 1)] in
  Pages.level
    (Pages.getRiskLevel (calculateMaxDrawdown (Fin <$> prices)) "maxDrawdown")
  = "High"%string.
Proof.
  intros prices.
  apply (proj1 (getRiskLevel_maxDrawdown prices ltac:(discriminate)
                  ltac:(repeat constructor; by vm_compute))).
  exists 1%nat, 2%nat. split; [simpl; lia|by vm_compute].
Defined.

Lemma createRSIChart_alignment_witness :
  let days :=
    (λ i, {| Pages.date := "d"; Pages.close := num (Z.of_nat i) |})
      <$> seq 1 17 in
  let st := {| Pages.marketData := None; Pages.indicators := None |} in
  ∃ t1 t2 t3,
    Pages.createRSIChart
      (Pages.fetchTechnicalAnalysis sqrt_floor (Some (Some days)) st)
    = Some [t1; t2; t3] ∧
    length (Pages.x t1) = 17%nat ∧ length (Pages.y t1) = 2%nat ∧
    Pages.x t1 !! 0%nat = Pages.date <$> days !! 0%nat ∧
    arr_at (Pages.y t1) 0
    = arr_at (calculateRSI (take 16 (Pages.close <$> days)) default_rsi_period) 0.
Proof.
  intros days st.
  destruct (createRSIChart_alignment sqrt_floor days st)
    as (t1 & t2 & t3 & E & _ & _ & Hx & Hy & Hj).
  assert (Hn : length days = 17%nat) by reflexivity.
  rewrite Hn in Hx, Hy, Hj.
  change (100 `min` 17)%nat with 17%nat in Hx, Hj.
  change (100 `min` (17 - 15))%nat with 2%nat in Hy, Hj.
  destruct (Hj 0%nat) as (H1 & _ & H3 & _); [rewrite Hy; lia|].
  exists t1, t2, t3. split; [exact E|]. split; [exact Hx|]. split; [exact Hy|].
  split; [exact H1|exact H3].
Defined.

Lemma createMACDChart_alignment_witness :
  let days :=
    (λ i, {| Pages.date := "d"; Pages.close := num (Z.of_nat i) |})
      <$> seq 1 26 in
  let st := {| Pages.marketData := None; Pages.indicators := None |} in
  ∃ t1 t2 t3,
    Pages.createMACDChart
      (Pages.fetchTechnicalAnalysis sqrt_floor (Some (Some days)) st)
    = Some [t1; t2; t3] ∧
    length (Pages.x t1) = 26%nat ∧ length (Pages.y t1) = 26%nat ∧
    arr_at (Pages.y t3) 0 = (arr_at (Pages.y t1) 0 - arr_at (Pages.y t2) 0)%js.
Proof.
  intros days st.
  destruct (createMACDChart_alignment sqrt_floor days st)
    as (t1 & t2 & t3 & E & _ & _ & Hx & Hy & _ & _ & Hj).
  - unfold days. rewrite length_fmap, length_seq. lia.
  - assert (Hn : length days = 26%nat) by reflexivity.
    rewrite Hn in Hx, Hy, Hj.
    change (100 `min` 26)%nat with 26%nat in Hx, Hy, Hj.
    destruct (Hj 0%nat) as (_ & _ & H3); [lia|].
    exists t1, t2, t3. split; [exact E|]. split; [exact Hx|]. split; [exact Hy|].
    exact H3.
Defined.

Lemma createBollingerBandsChart_alignment_witness :
  let closes := num ∘ Z.of_nat <$> seq 1 21 in
  let days := (λ p, {| Pages.date := "d"; Pages.close := p |}) <$> closes in
  let st := {| Pages.marketData := None; Pages.indicators := None |} in
  ∃ p u m l,
    Pages.createBollingerBandsChart
      (Pages.fetchTechnicalAnalysis sqrt_floor (Some (Some days)) st)
    = Some [p; u; m; l] ∧
    length (Pages.y p) = 21%nat ∧ length (Pages.y m) = 2%nat ∧
    arr_at (Pages.y p) 0 = arr_at (Pages.close <$> days) 0 ∧
    arr_at (Pages.y m) 0
    = (reduce (λ a b, a + b) (num 0) (take 20 (Pages.close <$> days))
       / of_nat default_bollinger_period)%js.
Proof.
  intros closes days st.
  destruct (createBollingerBandsChart_alignment sqrt_floor days st)
    as (p & u & m & l & E & _ & _ & _ & _ & Hp & _ & Hm & _ & Hj).
  - unfold days, closes. rewrite !length_fmap, length_seq. lia.
  - assert (Hn : length days = 21%nat) by reflexivity.
    rewrite Hn in Hp, Hm, Hj.
    change (100 `min` 21)%nat with 21%nat in Hp, Hj.
    change (100 `min` (21 - 19))%nat with 2%nat in Hm, Hj.
    destruct (Hj 0%nat) as (_ & H2 & H3 & _); [lia|].
    exists p, u, m, l. split; [exact E|]. split; [exact Hp|]. split; [exact Hm|].
    split; [exact H2|exact H3].
Defined.

